(** * f1tracker: reference track, path locator and pipeline controller

    A shallow embedding of the geometric core ([generateReferenceTrack],
    [mapLocationToIndex], [mapLocationsToIndices]) and of the control
    surface ([start], [fetcher]) of the f1viz module, with the properties
    stated by its specification.

    Go's [int] is the 64-bit two's complement integer: values are [Z]
    with the wrap-around written out.  Go's [float64] is IEEE 754
    binary64 with round-to-nearest-even: values are Rocq's primitive
    floats, whose operations are the same format and rounding.  Every
    operation is rounded on its own, as on amd64: no multiplication and
    addition are fused. *)

From Stdlib Require Import ZArith List Lia Bool Floats.
From Stdlib Require String Uint63.
Import ListNotations.

Set Warnings "-register-all".

Local Open Scope Z_scope.

(** ** Go's [int] *)

Module GoInt.

Definition min_int : Z := - 2 ^ 63.
Definition max_int : Z := 2 ^ 63 - 1.

(** A value of type [int]. *)
Definition int64 (z : Z) : Prop := min_int <= z <= max_int.

(** Two's complement wrap-around of an exact result. *)
Definition wrap64 (z : Z) : Z := (z + 2 ^ 63) mod 2 ^ 64 - 2 ^ 63.

(** [a - b] on [int]. *)
Definition sub (a b : Z) : Z := wrap64 (a - b).

End GoInt.

(** ** Go's [float64] *)

Module GoFloat.

(** The float of a magnitude below [2^63], rounded to nearest even. *)
Definition of_magnitude (z : Z) : float := PrimFloat.of_uint63 (Uint63.of_Z z).

(** [float64(n)] for [n] of type [int]. *)
Definition float64_of_int (n : Z) : float :=
  let z := GoInt.wrap64 n in
  if z =? GoInt.min_int then (- (Z.ldexp one 63))%float
  else if z <? 0 then (- of_magnitude (- z))%float
  else of_magnitude z.

(** The integer part of a finite float, rounded toward zero. *)
Definition trunc (s : bool) (m : positive) (e : Z) : Z :=
  let a := if 0 <=? e then Z.pos m * 2 ^ e else Z.pos m / 2 ^ (- e) in
  if s then - a else a.

(** [int(f)] for [f] of type [float64]: truncation toward zero.  Where
    the value does not fit (NaN, infinities, magnitudes of [2^63] and
    above) Go leaves the result to the implementation; this is the
    amd64 one, the "integer indefinite" value [-2^63]. *)
Definition int_of_float64 (f : float) : Z :=
  match Prim2SF f with
  | S754_zero _ => 0
  | S754_finite s m e =>
      let v := trunc s m e in
      if (GoInt.min_int <=? v) && (v <=? GoInt.max_int) then v else GoInt.min_int
  | S754_infinity _ | S754_nan => GoInt.min_int
  end.

(** [math.Floor]: the greatest integral float at or below [f]; zeros,
    infinities and NaN are returned as they are. *)
Definition Floor (f : float) : float :=
  match Prim2SF f with
  | S754_finite s m e =>
      if 0 <=? e then f
      else
        let q := (if s then Z.neg m else Z.pos m) / 2 ^ (- e) in
        if q <? 0 then (- of_magnitude (- q))%float else of_magnitude q
  | _ => f
  end.

(** [math.MaxFloat64]. *)
Definition MaxFloat64 : float := 0x1.fffffffffffffp+1023%float.

End GoFloat.

Import GoFloat.

(** ** Data model *)

(** [Location]: one position sample of the upstream API. *)
Record Location := mkLocation {
  Date : String.string;
  DriverNumber : Z;
  MeetingKey : Z;
  SessionKey : Z;
  X : Z;
  Y : Z;
  Z_ : Z
}.

(** [TrackPoint]: a point of the reference track. *)
Record TrackPoint := mkTrackPoint {
  tpX : Z;
  tpY : Z;
  tpZ : Z
}.

(** [ReferenceTrack]: the start point and the points of the track. *)
Record ReferenceTrack := mkReferenceTrack {
  StartPoint : TrackPoint;
  Points : list TrackPoint
}.

(** ** Geometry *)

(** [distance2D]: the planar Euclidean distance, Z ignored. *)
Definition distance2D (x1 y1 x2 y2 : Z) : float :=
  let dx := float64_of_int (GoInt.sub x2 x1) in
  let dy := float64_of_int (GoInt.sub y2 y1) in
  PrimFloat.sqrt (dx * dx + dy * dy)%float.

(** ** Reference path builder *)

Module Builder.

Inductive BuildError := InsufficientData.

Definition threshold : float := 1000%float.

(** The scan [for i := 100; i < len(locations); i++] with its [break]:
    [scanLapEnd ls i] walks the samples from index [i] on and returns
    the first index whose sample is closer than [threshold] to the
    start; [dflt] is the initial value of [lapEndIdx]. *)
Fixpoint scanLapEnd (startX startY : Z) (ls : list Location) (i dflt : nat) : nat :=
  match ls with
  | [] => dflt
  | l :: rest =>
      if (distance2D (X l) (Y l) startX startY <? threshold)%float then i
      else scanLapEnd startX startY rest (S i) dflt
  end.

Definition lapEndIdx (locations : list Location) (startPoint : TrackPoint) : nat :=
  scanLapEnd (tpX startPoint) (tpY startPoint) (skipn 100 locations) 100
             (length locations - 1).

(** [lapLocations]: the samples of the lap that is resampled. *)
Definition lapLocations (locations : list Location) (startPoint : TrackPoint)
  : list Location :=
  let lap := firstn (lapEndIdx locations startPoint + 1) locations in
  if (length lap <? 144)%nat then locations else lap.

(** The running sums [cumulativeDistances[1..]], [prev] being the sample
    before [rest] and [total] the sum so far. *)
Fixpoint accumulate (prev : Location) (rest : list Location) (total : float)
  : list float :=
  match rest with
  | [] => []
  | l :: rest' =>
      let total' := (total + distance2D (X prev) (Y prev) (X l) (Y l))%float in
      total' :: accumulate l rest' total'
  end.

(** [cumulativeDistances]: the loop [for i := 1; i < len(...); i++] that
    fills the slice of the same name, written twice in the source, in
    [generateReferenceTrack] and in [mapLocationsToIndices]. *)
Definition cumulativeDistances (ls : list Location) : list float :=
  match ls with
  | [] => []
  | l :: rest => 0%float :: accumulate l rest 0%float
  end.

Definition zeroLocation : Location := mkLocation String.EmptyString 0 0 0 0 0 0.
Definition zeroPoint : TrackPoint := mkTrackPoint 0 0 0.

(** One coordinate of an interpolated point:
    [int(float64(a) + ratio*float64(b-a))]. *)
Definition lerp (a b : Z) (ratio : float) : Z :=
  int_of_float64 (float64_of_int a + ratio * float64_of_int (GoInt.sub b a))%float.

(** The bracket search [for j := 0; j < len(cumulativeDistances)-1; j++]:
    [cds] and [ls] are the cumulative distances and samples from index
    [j] on. *)
Fixpoint bracket (targetDist : float) (cds : list float) (ls : list Location)
  : option TrackPoint :=
  match cds, ls with
  | dist1 :: ((dist2 :: _) as cds'), l1 :: ((l2 :: _) as ls') =>
      if (dist1 <=? targetDist)%float && (targetDist <=? dist2)%float then
        let ratio := ((targetDist - dist1) / (dist2 - dist1))%float in
        Some (mkTrackPoint (lerp (X l1) (X l2) ratio)
                           (lerp (Y l1) (Y l2) ratio)
                           (lerp (Z_ l1) (Z_ l2) ratio))
      else bracket targetDist cds' ls'
  | _, _ => None
  end.

(** The body of the loop [for i := 0; i < 144; i++]. *)
Definition referencePoint (lap : list Location) (cds : list float)
           (distToStart trackLength : float) (startPoint : TrackPoint) (i : nat)
  : TrackPoint :=
  let targetDist := (float64_of_int (Z.of_nat i) / 143 * trackLength)%float in
  if (i =? 0)%nat || (i =? 143)%nat then
    mkTrackPoint (tpX startPoint) (tpY startPoint) (tpZ startPoint)
  else
    match bracket targetDist cds lap with
    | Some point => point
    | None =>
        let dist1 := last cds 0%float in
        if (dist1 <? targetDist)%float then
          let ratio := ((targetDist - dist1) / distToStart)%float in
          let lastPoint := last lap zeroLocation in
          mkTrackPoint (lerp (X lastPoint) (tpX startPoint) ratio)
                       (lerp (Y lastPoint) (tpY startPoint) ratio)
                       (lerp (Z_ lastPoint) (tpZ startPoint) ratio)
        else zeroPoint
    end.

(** [generateReferenceTrack]. *)
Definition generateReferenceTrack (locations : list Location) (startPoint : TrackPoint)
  : BuildError + ReferenceTrack :=
  if (length locations <? 144)%nat then inl InsufficientData
  else
    let lap := lapLocations locations startPoint in
    let cds := cumulativeDistances lap in
    let totalDist := last cds 0%float in
    let lastLoc := last lap zeroLocation in
    let distToStart :=
      distance2D (X lastLoc) (Y lastLoc) (tpX startPoint) (tpY startPoint) in
    let trackLength := (totalDist + distToStart)%float in
    inr (mkReferenceTrack startPoint
           (map (referencePoint lap cds distToStart trackLength startPoint)
                (seq 0 144))).

End Builder.

(** ** Path locator *)

Module Locator.

(** The loop [for i, refPoint := range track.Points] of
    [mapLocationToIndex]: [pts] are the points from index [i] on. *)
Fixpoint scanClosest (location : Location) (pts : list TrackPoint) (i : nat)
         (minDist : float) (closestIdx : nat) : nat :=
  match pts with
  | [] => closestIdx
  | refPoint :: rest =>
      let dist := distance2D (X location) (Y location) (tpX refPoint) (tpY refPoint) in
      if (dist <? minDist)%float then scanClosest location rest (S i) dist i
      else scanClosest location rest (S i) minDist closestIdx
  end.

(** [mapLocationToIndex]. *)
Definition mapLocationToIndex (location : Location) (track : ReferenceTrack) : nat :=
  if negb (length (Points track) =? 144)%nat then 0%nat
  else scanClosest location (Points track) 0 MaxFloat64 0.

Definition minPointsForLap : nat := 50.

(** The detection loop [for i := minPointsForLap; i < len(locations); i++]:
    [ls] are the samples from index [i] on, [lapStarts] the boundaries
    recorded so far. *)
Fixpoint detectLaps (firstPointX firstPointY : Z) (threshold : float)
         (ls : list Location) (i : nat) (lapStarts : list nat) : list nat :=
  match ls with
  | [] => lapStarts
  | l :: rest =>
      let distToFirst := distance2D (X l) (Y l) firstPointX firstPointY in
      let lapStarts' :=
        if (distToFirst <? threshold)%float then
          let lastLapStart := last lapStarts 0%nat in
          if Z.of_nat minPointsForLap <? Z.of_nat i - Z.of_nat lastLapStart
          then lapStarts ++ [i] else lapStarts
        else lapStarts in
      detectLaps firstPointX firstPointY threshold rest (S i) lapStarts'
  end.

(** The threshold of the lap detection: five average segment lengths. *)
Definition lapThreshold (locations : list Location) : float :=
  let totalDistance := last (Builder.cumulativeDistances locations) 0%float in
  let avgSegmentLength :=
    (totalDistance / float64_of_int (Z.of_nat (length locations) - 1))%float in
  (avgSegmentLength * 5)%float.

(** The lap boundaries found in [locations]. *)
Definition lapStarts (locations : list Location) : list nat :=
  let first := hd Builder.zeroLocation locations in
  detectLaps (X first) (Y first) (lapThreshold locations)
             (skipn minPointsForLap locations) minPointsForLap [0%nat].

(** The search [for j := len(lapStarts) - 1; j >= 0; j--] for the lap of
    sample [i]; [lapIndex] starts at 0. *)
Fixpoint searchLap (starts : list nat) (i j : nat) : nat :=
  if (nth j starts 0 <=? i)%nat then j
  else match j with
       | O => 0%nat
       | S j' => searchLap starts i j'
       end.

(** The normalisation of a distance within its lap to 0..143. *)
Definition normalize (lapStartDist lapEndDist pointDist : float) : Z :=
  if (lapEndDist =? lapStartDist)%float then 0
  else
    let normalized := ((pointDist - lapStartDist) / (lapEndDist - lapStartDist))%float in
    let index := int_of_float64 (Floor (normalized * 144)%float) in
    if 144 <=? index then 143 else index.

(** The body of the loop [for i := 0; i < len(locations); i++] that maps
    sample [i] to its index. *)
Definition indexOf (n : nat) (cds : list float) (starts : list nat) (i : nat) : Z :=
  let lapIndex := searchLap starts i (length starts - 1) in
  let lapStartIdx := nth lapIndex starts 0%nat in
  let lapEndIdx :=
    if (lapIndex + 1 <? length starts)%nat then (nth (lapIndex + 1) starts 0 - 1)%nat
    else (n - 1)%nat in
  normalize (nth lapStartIdx cds 0%float) (nth lapEndIdx cds 0%float) (nth i cds 0%float).

(** [mapLocationsToIndices]. *)
Definition mapLocationsToIndices (locations : list Location) : list Z :=
  match locations with
  | [] => []
  | _ =>
      map (indexOf (length locations) (Builder.cumulativeDistances locations)
                   (lapStarts locations))
          (seq 0 (length locations))
  end.

End Locator.

(** ** Pipeline controller and windowed fetcher (module.go)

    The controller's calls to the upstream API and to [time.Parse] are
    taken as an environment, [Upstream]; logging is left out.  A
    [time.Time] is its number of nanoseconds since the epoch. *)

Module Controller.

(** A value of type [interface{}], as a command carries it. *)
Inductive GoValue :=
| VIntSlice (nums : list Z)
| VSlice (elems : list GoValue)
| VInt (n : Z)
| VInt64 (n : Z)
| VFloat64 (f : float)
| VString (s : String.string)
| VBool (b : bool)
| VNil.

Record Session := mkSession {
  sSessionKey : Z;
  DateStart : String.string;
  DateEnd : String.string
}.

Definition Time := Z.
Definition Millisecond : Z := 1000000.
Definition Second : Z := 1000 * Millisecond.
Definition Minute : Z := 60 * Second.

(** The environment: [fetchSession], [fetchLocationData] and
    [time.Parse(time.RFC3339, _)]; [None] is a returned error. *)
Record Upstream := mkUpstream {
  fetchSession : option Session;
  fetchLocationData : Z -> Z -> Time -> Time -> option (list Location);
  parseRFC3339 : String.string -> option Time
}.

Record fetcherState := mkFetcherState {
  sessionKey : Z;
  lastFetchedTime : Time;
  driverNumber : Z
}.

Definition locationChannelBuffer : nat := 500.
Definition fetchWindowDuration : Z := Minute.
Definition bufferLowThreshold : float := 0x1.999999999999ap-3%float.

(** A worker added to [s.workers]: the ticker loop around [fetcher] for
    the channel of index [chanIndex], or the consumer. *)
Inductive Worker :=
| FetcherWorker (state : fetcherState) (chanIndex : nat)
| ConsumerWorker.

(** The fields of [vizF1viz] that [start] reads or writes: the atomic
    flag, the capacities of the channels made, and the worker set ([None]
    for the nil pointer). *)
Record vizF1viz := mkViz {
  started : bool;
  locationChans : list nat;
  workers : option (list Worker)
}.

Definition setStarted (flag : bool) (s : vizF1viz) : vizF1viz :=
  mkViz flag (locationChans s) (workers s).

(** [atomic.Bool.CompareAndSwap(old, new)]: the flag afterwards, and
    whether the swap took place. *)
Definition CompareAndSwap (flag old new : bool) : bool * bool :=
  if Bool.eqb flag old then (new, true) else (flag, false).

Inductive StartError :=
| AlreadyStarted
| ElementNotANumber (index : nat)
| NotAListOfIntegers
| NoDriverNumber
| FetchSessionFailed
| SessionParseError.

(** The status returned by a successful [start], for that many drivers. *)
Inductive StartStatus := Started (drivers : nat).

(** The loop [for i, v := range nums] over a [[]interface{}] payload. *)
Fixpoint parseElements (nums : list GoValue) (i : nat) : StartError + list Z :=
  match nums with
  | [] => inr []
  | v :: rest =>
      let num :=
        match v with
        | VInt n => Some n
        | VInt64 n => Some n
        | VFloat64 n => Some (int_of_float64 n)
        | _ => None
        end in
      match num with
      | None => inl (ElementNotANumber i)
      | Some n =>
          match parseElements rest (S i) with
          | inl e => inl e
          | inr ns => inr (n :: ns)
          end
      end
  end.

Definition parseDriverNumbers (cmdValue : GoValue) : StartError + list Z :=
  match cmdValue with
  | VIntSlice nums => inr nums
  | VSlice nums => parseElements nums 0
  | _ => inl NotAListOfIntegers
  end.

(** The fetcher workers, one per driver number, from channel [i] on. *)
Fixpoint fetcherWorkers (sessionKey : Z) (startTime : Time) (driverNumbers : list Z)
         (i : nat) : list Worker :=
  match driverNumbers with
  | [] => []
  | driverNum :: rest =>
      FetcherWorker (mkFetcherState sessionKey startTime driverNum) i
      :: fetcherWorkers sessionKey startTime rest (S i)
  end.

(** [start] (module.go, the variant taking the driver numbers). *)
Definition start (up : Upstream) (s : vizF1viz) (cmdValue : GoValue)
  : vizF1viz * (StartError + StartStatus) :=
  let (flag, swapped) := CompareAndSwap (started s) false true in
  let s := setStarted flag s in
  if negb swapped then (s, inl AlreadyStarted)
  else
    match parseDriverNumbers cmdValue with
    | inl e => (s, inl e)
    | inr driverNumbers =>
        if (length driverNumbers =? 0)%nat then (s, inl NoDriverNumber)
        else
          match fetchSession up with
          | None =>
              (setStarted (fst (CompareAndSwap (started s) true false)) s,
               inl FetchSessionFailed)
          | Some session =>
              match parseRFC3339 up (DateStart session) with
              | None =>
                  (setStarted (fst (CompareAndSwap (started s) true false)) s,
                   inl SessionParseError)
              | Some startTime =>
                  (mkViz (started s)
                         (map (fun _ => locationChannelBuffer) driverNumbers)
                         (Some (fetcherWorkers (sSessionKey session) startTime
                                               driverNumbers 0
                                ++ [ConsumerWorker])),
                   inr (Started (length driverNumbers)))
              end
          end
    end.

(** [start] of the earlier variant of module.go, for the single driver 44
    and one channel. *)
Definition startLegacy (up : Upstream) (s : vizF1viz)
  : vizF1viz * (StartError + StartStatus) :=
  let (flag, swapped) := CompareAndSwap (started s) false true in
  let s := setStarted flag s in
  if swapped then (s, inl AlreadyStarted)
  else
    match fetchSession up with
    | None =>
        (setStarted (fst (CompareAndSwap (started s) true false)) s,
         inl FetchSessionFailed)
    | Some session =>
        match parseRFC3339 up (DateStart session) with
        | None =>
            (setStarted (fst (CompareAndSwap (started s) true false)) s,
             inl SessionParseError)
        | Some startTime =>
            (mkViz (started s) [locationChannelBuffer]
                   (Some [FetcherWorker
                            (mkFetcherState (sSessionKey session) startTime 44) 0;
                          ConsumerWorker]),
             inr (Started 1))
        end
    end.

(** What one call of [fetcher] does: the state it leaves, the samples it
    pushed into the channel, in order, and whether it closed the channel. *)
Record Outcome := mkOutcome {
  newState : fetcherState;
  sent : list Location;
  closes : bool
}.

(** [fetcher], one tick.  [bufLen] and [bufCap] are [len(driverChan)] and
    [cap(driverChan)] at the tick; [cancelAfter] is the number of sends
    that went through before [ctx.Done()] won the [select], [None] when
    it never did. *)
Definition fetcher (up : Upstream) (cancelAfter : option nat)
           (state : fetcherState) (bufLen bufCap : nat) : Outcome :=
  let bufferLevel :=
    (float64_of_int (Z.of_nat bufLen) / float64_of_int (Z.of_nat bufCap))%float in
  if (bufferLevel <? bufferLowThreshold)%float then
    let endTime := lastFetchedTime state + fetchWindowDuration in
    match fetchLocationData up (sessionKey state) (driverNumber state)
                            (lastFetchedTime state) endTime with
    | None => mkOutcome state [] false
    | Some locations =>
        if (length locations =? 0)%nat then mkOutcome state [] true
        else
          let cancelled :=
            match cancelAfter with
            | Some k => if (k <? length locations)%nat then Some k else None
            | None => None
            end in
          match cancelled with
          | Some k => mkOutcome state (firstn k locations) false
          | None =>
              let lastFetchedTime' :=
                match parseRFC3339 up (Date (last locations Builder.zeroLocation)) with
                | Some lastLocTime => lastLocTime + Millisecond
                | None => endTime
                end in
              mkOutcome (mkFetcherState (sessionKey state) lastFetchedTime'
                                        (driverNumber state))
                        locations false
          end
    end
  else mkOutcome state [] false.

End Controller.

(** * Facts on binary64

    The operations of the primitive floats are specified by those of
    [SpecFloat]; the facts below are read off these specifications. *)

Module Binary64.

(** A float that is not NaN and not below zero: a zero, a positive finite
    number or plus infinity. *)
Definition nonneg (x : spec_float) : bool :=
  match x with
  | S754_zero _ => true
  | S754_infinity s | S754_finite s _ _ => negb s
  | S754_nan => false
  end.

(** A float that is a number: not NaN. *)
Definition number (x : spec_float) : bool :=
  match x with
  | S754_nan => false
  | _ => true
  end.

Lemma iter_pos_invariant {A} (P : A -> Prop) (f : A -> A) :
  (forall x, P x -> P (f x)) -> forall n x, P x -> P (iter_pos f n x).
Proof.
  intros Hf. induction n as [n IH | n IH |]; intros x Hx; simpl; auto.
Qed.

Lemma shr_1_nonneg mrs : 0 <= shr_m mrs -> 0 <= shr_m (shr_1 mrs).
Proof.
  destruct mrs as [m r s]; simpl. intros Hm.
  destruct m as [|[p|p|]|p]; simpl; lia.
Qed.

Lemma shr_nonneg mrs e n : 0 <= shr_m mrs -> 0 <= shr_m (fst (shr mrs e n)).
Proof.
  intros Hm. destruct n as [|p|p]; simpl; try exact Hm.
  apply (iter_pos_invariant (fun x => 0 <= shr_m x)); [apply shr_1_nonneg | exact Hm].
Qed.

Lemma shr_record_of_loc_m m l : shr_m (shr_record_of_loc m l) = m.
Proof. now destruct l as [|[]]. Qed.

Lemma shr_fexp_nonneg m e l :
  0 <= m -> 0 <= shr_m (fst (shr_fexp prec emax m e l)).
Proof.
  intros Hm. unfold shr_fexp. apply shr_nonneg. now rewrite shr_record_of_loc_m.
Qed.

Lemma round_nearest_even_nonneg m l : 0 <= m -> 0 <= round_nearest_even m l.
Proof.
  intros Hm. destruct l as [|[]]; simpl; try lia. destruct (Z.even m); lia.
Qed.

(** Rounding a magnitude that is not negative, with the plus sign, never
    gives NaN nor a negative float. *)
Lemma binary_round_aux_nonneg m e l :
  0 <= m -> nonneg (binary_round_aux prec emax false m e l) = true.
Proof.
  intros Hm. unfold binary_round_aux.
  pose proof (shr_fexp_nonneg m e l Hm) as H1.
  destruct (shr_fexp prec emax m e l) as [mrs1 e1]. simpl in H1.
  pose proof (shr_fexp_nonneg _ e1 loc_Exact
                (round_nearest_even_nonneg _ (loc_of_shr_record mrs1) H1)) as H2.
  destruct (shr_fexp prec emax _ e1 loc_Exact) as [mrs2 e2]. simpl in H2.
  destruct (shr_m mrs2) as [|q|q]; [reflexivity | | lia].
  now destruct (e2 <=? emax - prec).
Qed.

Lemma binary_round_nonneg m e :
  nonneg (binary_round prec emax false m e) = true.
Proof.
  unfold binary_round. destruct (shl_align _ _ _) as [mz ez].
  now apply binary_round_aux_nonneg.
Qed.

Lemma SFmul_self_nonneg x :
  number x = true -> nonneg (SFmul prec emax x x) = true.
Proof.
  destruct x as [s|s| |s m e]; simpl; intros H; try discriminate.
  - now destruct s.
  - now destruct s.
  - replace (xorb s s) with false by now destruct s.
    now apply binary_round_aux_nonneg.
Qed.

Lemma SFadd_nonneg x y :
  nonneg x = true -> nonneg y = true -> nonneg (SFadd prec emax x y) = true.
Proof.
  destruct x as [sx|sx| |sx mx ex], y as [sy|sy| |sy my ey]; simpl;
    intros Hx Hy; try discriminate; try assumption.
  - now destruct sx, sy.
  - destruct sx, sy; try discriminate; reflexivity.
  - destruct sx, sy; try discriminate. simpl.
    apply binary_round_nonneg.
Qed.

Lemma SFsqrt_nonneg x :
  nonneg x = true -> nonneg (SFsqrt prec emax x) = true.
Proof.
  destruct x as [s|s| |s m e]; simpl; intros H; try discriminate.
  - reflexivity.
  - now destruct s.
  - destruct s; [discriminate |].
    unfold SFsqrt_core_binary.
    set (m' := match _ - _ with Z0 => _ | Zpos _ => _ | Zneg _ => _ end).
    pose proof (Z.sqrtrem_spec m') as Hs.
    destruct (Z.sqrtrem m') as [q r].
    apply binary_round_aux_nonneg.
    assert (Hm' : 0 <= m').
    { subst m'. destruct (_ - _); try lia. apply Z.shiftl_nonneg. lia. }
    specialize (Hs Hm'). lia.
Qed.

Lemma SFopp_number x : number x = true -> number (SFopp x) = true.
Proof. now destruct x. Qed.

Lemma nonneg_number x : nonneg x = true -> number x = true.
Proof. now destruct x. Qed.

Lemma of_magnitude_nonneg z : nonneg (Prim2SF (of_magnitude z)) = true.
Proof.
  unfold of_magnitude. rewrite of_uint63_spec.
  pose proof (Uint63.to_Z_bounded (Uint63.of_Z z)) as Hb.
  destruct (Uint63.to_Z (Uint63.of_Z z)) as [|q|q]; simpl; [reflexivity | | lia].
  apply binary_round_nonneg.
Qed.

Lemma float64_of_int_number n : number (Prim2SF (float64_of_int n)) = true.
Proof.
  unfold float64_of_int.
  destruct (_ =? _); [vm_compute; reflexivity |].
  destruct (_ <? _).
  - rewrite opp_spec. apply SFopp_number, nonneg_number, of_magnitude_nonneg.
  - apply nonneg_number, of_magnitude_nonneg.
Qed.

(** A planar distance is never NaN and never negative. *)
Lemma distance2D_nonneg x1 y1 x2 y2 :
  nonneg (Prim2SF (distance2D x1 y1 x2 y2)) = true.
Proof.
  unfold distance2D. rewrite sqrt_spec, add_spec, !mul_spec.
  apply SFsqrt_nonneg, SFadd_nonneg; apply SFmul_self_nonneg, float64_of_int_number.
Qed.

Lemma add_nonneg (a b : float) :
  nonneg (Prim2SF a) = true -> nonneg (Prim2SF b) = true ->
  nonneg (Prim2SF (a + b)) = true.
Proof. intros Ha Hb. rewrite add_spec. now apply SFadd_nonneg. Qed.

(** The position of the lap start scales to index zero, whatever the
    length of the lap. *)
Lemma scale_zero (x : float) :
  nonneg (Prim2SF x) = true -> (x =? 0)%float = false ->
  ((0 - 0) / (x - 0) * 144)%float = 0%float.
Proof.
  intros Hx Hz. apply Prim2SF_inj.
  rewrite mul_spec, div_spec, !sub_spec.
  rewrite eqb_spec in Hz.
  change (Prim2SF 0) with (S754_zero false) in *.
  change (Prim2SF 144) with (S754_finite false 5066549580791808 (-45)).
  destruct (Prim2SF x) as [s|s| |s m e]; simpl in *; try discriminate;
    destruct s; try discriminate; reflexivity.
Qed.

(** *** Magnitudes

    The magnitude of a positive integer [m] scaled by [2^e] is
    [Z.log2 m + 1 + e]: the number of binary digits of [m], plus [e]. *)

Lemma digits2_pos_log2 p : Z.pos (digits2_pos p) = Z.log2 (Z.pos p) + 1.
Proof.
  induction p as [p IH | p IH |]; simpl; try reflexivity;
    rewrite Pos2Z.inj_succ; destruct p; simpl in *; lia.
Qed.

Lemma Zdigits2_log2 m : 0 < m -> Zdigits2 m = Z.log2 m + 1.
Proof. destruct m as [|p|p]; try lia. intros _. apply digits2_pos_log2. Qed.

Lemma shr_1_m mrs : 0 <= shr_m mrs -> shr_m (shr_1 mrs) = shr_m mrs / 2.
Proof.
  destruct mrs as [m r s]; simpl. intros Hm.
  destruct m as [|[p|p|]|p]; simpl; try lia; try reflexivity.
  - apply Z.div_unique with 1; lia.
  - apply Z.div_unique with 0; lia.
Qed.

Lemma iter_shr_1_m n : forall mrs,
  0 <= shr_m mrs ->
  shr_m (iter_pos shr_1 n mrs) = shr_m mrs / 2 ^ Z.pos n.
Proof.
  assert (Hnn : forall k x, 0 <= shr_m x -> 0 <= shr_m (iter_pos shr_1 k x)).
  { intros k x. apply (iter_pos_invariant (fun x => 0 <= shr_m x)), shr_1_nonneg. }
  induction n as [n IH | n IH |]; intros mrs Hm; simpl iter_pos.
  - rewrite IH, IH, shr_1_m by auto using shr_1_nonneg.
    replace (Z.pos n~1) with (1 + Z.pos n + Z.pos n) by lia.
    rewrite !Z.pow_add_r, Z.pow_1_r by lia.
    rewrite !Z.div_div by lia. f_equal. lia.
  - rewrite IH, IH by auto.
    replace (Z.pos n~0) with (Z.pos n + Z.pos n) by lia.
    rewrite Z.pow_add_r by lia.
    rewrite Z.div_div by lia. reflexivity.
  - rewrite shr_1_m by exact Hm. reflexivity.
Qed.

(** Shifting right by [n] divides the mantissa by [2^n] and adds [n] to
    the exponent. *)
Lemma shr_m_e mrs e n :
  0 <= shr_m mrs -> 0 <= n ->
  shr_m (fst (shr mrs e n)) = shr_m mrs / 2 ^ n /\ snd (shr mrs e n) = e + n.
Proof.
  intros Hm Hn. destruct n as [|p|p]; simpl; try lia.
  - rewrite Z.div_1_r. lia.
  - split; [apply iter_shr_1_m; exact Hm | reflexivity].
Qed.

Lemma log2_div_pow2 m n :
  0 < m -> 0 <= n <= Z.log2 m -> Z.log2 (m / 2 ^ n) = Z.log2 m - n.
Proof.
  intros Hm Hn. rewrite <- Z.shiftr_div_pow2 by lia.
  rewrite Z.log2_shiftr by lia. lia.
Qed.

Lemma div_pow2_pos m n : 0 < m -> 0 <= n <= Z.log2 m -> 0 < m / 2 ^ n.
Proof.
  intros Hm Hn. apply Z.div_str_pos. split; [lia |].
  apply Z.le_trans with (2 ^ Z.log2 m).
  - apply Z.pow_le_mono_r; lia.
  - apply Z.log2_spec; lia.
Qed.

Lemma round_nearest_even_bounds m l :
  m <= round_nearest_even m l <= m + 1.
Proof. destruct l as [|[]]; simpl; try lia. destruct (Z.even m); lia. Qed.

Lemma log2_52_bounds a : 0 < a -> Z.log2 a = 52 -> 2 ^ 52 <= a < 2 ^ 53.
Proof. intros Ha H. pose proof (Z.log2_spec a Ha) as Hs. rewrite H in Hs. exact Hs. Qed.

Lemma log2_rounded a b :
  2 ^ 52 <= a < 2 ^ 53 -> a <= b <= a + 1 ->
  0 < b /\ (Z.log2 b = 52 \/ Z.log2 b = 53) /\ Z.log2 (b / 2 ^ (Z.log2 b - 52)) = 52.
Proof.
  intros Ha Hb.
  assert (Hpos : 0 < b) by lia.
  destruct (Z.eq_dec b (2 ^ 53)) as [-> | Hne].
  - split; [lia |]. split; [right; reflexivity | reflexivity].
  - assert (H52 : Z.log2 b = 52) by (apply Z.log2_unique; lia).
    split; [lia |]. split; [left; exact H52 |].
    rewrite H52. simpl. now rewrite Z.div_1_r.
Qed.

(** Rounding a positive mantissa of at least 53 digits whose magnitude is
    in the normal range gives a finite float of the same sign, with a
    53-digit mantissa, and of the same magnitude or the next. *)
Lemma binary_round_aux_finite s m e l :
  0 < m -> 52 <= Z.log2 m -> -1021 <= Z.log2 m + 1 + e <= 1023 ->
  exists m' e',
    binary_round_aux prec emax s m e l = S754_finite s m' e' /\
    Z.log2 (Z.pos m') = 52 /\
    (e' = Z.log2 m + e - 52 \/ e' = Z.log2 m + e - 51).
Proof.
  intros Hm Hd HM. unfold binary_round_aux, shr_fexp.
  rewrite Zdigits2_log2 by exact Hm.
  set (n1 := fexp prec emax (Z.log2 m + 1 + e) - e).
  assert (Hn1 : n1 = Z.log2 m - 52)
    by (subst n1; unfold fexp, SpecFloat.emin, prec, emax; lia).
  destruct (shr_m_e (shr_record_of_loc m l) e n1) as [Hm1 He1];
    [rewrite shr_record_of_loc_m; lia | lia |].
  destruct (shr (shr_record_of_loc m l) e n1) as [mrs1 e1]. simpl in Hm1, He1.
  rewrite shr_record_of_loc_m in Hm1.
  assert (Ha : 2 ^ 52 <= shr_m mrs1 < 2 ^ 53).
  { rewrite Hm1. apply log2_52_bounds; [apply div_pow2_pos; lia |].
    rewrite log2_div_pow2 by lia. lia. }
  set (m1 := round_nearest_even (shr_m mrs1) (loc_of_shr_record mrs1)).
  pose proof (round_nearest_even_bounds (shr_m mrs1) (loc_of_shr_record mrs1)) as Hb.
  fold m1 in Hb.
  destruct (log2_rounded _ m1 Ha Hb) as (Hpos & Hlog & Hres).
  rewrite Zdigits2_log2 by exact Hpos.
  set (n2 := fexp prec emax (Z.log2 m1 + 1 + e1) - e1).
  assert (Hn2 : n2 = Z.log2 m1 - 52)
    by (subst n2; unfold fexp, SpecFloat.emin, prec, emax; lia).
  destruct (shr_m_e (shr_record_of_loc m1 loc_Exact) e1 n2) as [Hm2 He2];
    [simpl; lia | lia |].
  destruct (shr (shr_record_of_loc m1 loc_Exact) e1 n2) as [mrs2 e2].
  simpl in Hm2, He2. rewrite Hn2 in Hm2.
  assert (Hpos2 : 0 < shr_m mrs2).
  { rewrite Hm2. apply div_pow2_pos; lia. }
  rewrite Hm2 in Hpos2. rewrite <- Hm2 in Hres.
  destruct (shr_m mrs2) as [|m'|m'] eqn:Hsm; try lia.
  assert (Hle : (e2 <=? emax - prec) = true)
    by (apply Z.leb_le; unfold emax, prec; lia).
  rewrite Hle. exists m', e2. split; [reflexivity |]. split; [exact Hres | lia].
Qed.

(** A finite float of sign [s] with a 53-digit mantissa (a normal
    number) whose magnitude lies between [lo] and [hi]. *)
Definition normal (s : bool) (lo hi : Z) (x : spec_float) : Prop :=
  exists m e, x = S754_finite s m e /\ Z.log2 (Z.pos m) = 52 /\ lo <= 53 + e <= hi.

Lemma normal_weaken s lo hi lo' hi' x :
  normal s lo hi x -> lo' <= lo -> hi <= hi' -> normal s lo' hi' x.
Proof. intros (m & e & -> & Hm & He) Hlo Hhi. exists m, e. repeat split; lia. Qed.

Lemma shl_align_spec m e e' :
  Z.pos (fst (shl_align m e e')) = Z.pos m * 2 ^ (e - Z.min e e') /\
  snd (shl_align m e e') = Z.min e e'.
Proof.
  unfold shl_align. destruct (e' - e) as [|d|d] eqn:Hd; cbn [fst snd].
  - rewrite Z.min_l by lia. rewrite Z.sub_diag, Z.pow_0_r. lia.
  - rewrite Z.min_l by lia. rewrite Z.sub_diag, Z.pow_0_r. lia.
  - rewrite Z.min_r by lia. replace (e - e') with (Z.pos d) by lia.
    change (Pos.iter xO m d) with (shift_pos d m).
    rewrite shift_pos_correct, Z.pow_pos_fold. lia.
Qed.

(** Rounding a positive integer scaled by [2^e], of magnitude in the
    normal range, gives a normal number of that magnitude or the next. *)
Lemma binary_round_finite s m e :
  -1021 <= Z.log2 (Z.pos m) + 1 + e <= 1023 ->
  normal s (Z.log2 (Z.pos m) + 1 + e) (Z.log2 (Z.pos m) + 2 + e)
         (binary_round prec emax s m e).
Proof.
  intros HM. unfold binary_round.
  rewrite digits2_pos_log2.
  set (e' := fexp prec emax (Z.log2 (Z.pos m) + 1 + e)).
  assert (He' : e' = Z.log2 (Z.pos m) + e - 52)
    by (subst e'; unfold fexp, SpecFloat.emin, prec, emax; lia).
  destruct (shl_align_spec m e e') as [Hmz Hez].
  destruct (shl_align m e e') as [mz ez]. cbn [fst snd] in Hmz, Hez.
  assert (Hlog : Z.log2 (Z.pos mz) + ez = Z.log2 (Z.pos m) + e).
  { rewrite Hmz, Z.log2_mul_pow2 by lia. lia. }
  destruct (binary_round_aux_finite s (Z.pos mz) ez loc_Exact)
    as (m' & e'' & Hr & Hm' & He''); try lia.
  exists m', e''. split; [exact Hr |]. split; [exact Hm' | lia].
Qed.

(** The float of a positive integer below [2^63]. *)
Lemma of_magnitude_normal z :
  0 < z < 2 ^ 63 -> normal false 1 64 (Prim2SF (of_magnitude z)).
Proof.
  intros Hz. unfold of_magnitude.
  rewrite of_uint63_spec, Uint63.of_Z_spec, Z.mod_small
    by (change Uint63.wB with (2 ^ 63); lia).
  destruct z as [|p|p]; try lia. simpl.
  assert (Hl : 0 <= Z.log2 (Z.pos p) < 63).
  { split; [apply Z.log2_nonneg | apply Z.log2_lt_pow2; lia]. }
  eapply normal_weaken; [apply binary_round_finite | |]; lia.
Qed.

Lemma SFopp_normal s lo hi x : normal s lo hi x -> normal (negb s) lo hi (SFopp x).
Proof. intros (m & e & -> & H). exists m, e. now split. Qed.

Lemma wrap64_range z : - 2 ^ 63 <= GoInt.wrap64 z < 2 ^ 63.
Proof.
  unfold GoInt.wrap64.
  pose proof (Z.mod_pos_bound (z + 2 ^ 63) (2 ^ 64) ltac:(lia)). lia.
Qed.

(** [float64(n)]: zero for [n = 0], else a normal number of magnitude 1
    to 64. *)
Lemma float64_of_int_class n :
  (GoInt.wrap64 n = 0 /\ float64_of_int n = 0%float) \/
  (GoInt.wrap64 n <> 0 /\ exists s, normal s 1 64 (Prim2SF (float64_of_int n))).
Proof.
  unfold float64_of_int. pose proof (wrap64_range n) as Hr.
  destruct (Z.eqb_spec (GoInt.wrap64 n) GoInt.min_int) as [E | Hne].
  - right. split; [rewrite E; discriminate |].
    exists true, 4503599627370496%positive, 11. now vm_compute.
  - unfold GoInt.min_int in Hne.
    destruct (Z.ltb_spec (GoInt.wrap64 n) 0) as [Hneg | Hpos].
    + right. split; [lia |]. exists true. rewrite FloatAxioms.opp_spec.
      apply (SFopp_normal false), of_magnitude_normal. lia.
    + destruct (Z.eq_dec (GoInt.wrap64 n) 0) as [E | Hnz].
      * left. split; [exact E |]. rewrite E. reflexivity.
      * right. split; [exact Hnz |]. exists false. apply of_magnitude_normal. lia.
Qed.

(** The square of a normal number of magnitude 1 to 64. *)
Lemma SFmul_self_normal s x :
  normal s 1 64 x -> normal false 1 129 (SFmul prec emax x x).
Proof.
  intros (m & e & -> & Hm & He). simpl.
  replace (xorb s s) with false by now destruct s.
  pose proof (Z.log2_mul_below (Z.pos m) (Z.pos m) ltac:(lia) ltac:(lia)) as Hlo.
  pose proof (Z.log2_mul_above (Z.pos m) (Z.pos m) ltac:(lia) ltac:(lia)) as Hhi.
  rewrite <- Pos2Z.inj_mul in Hlo, Hhi.
  destruct (binary_round_aux_finite false (Z.pos (m * m)) (e + e) loc_Exact)
    as (m' & e' & Hr & Hm' & He'); try lia.
  exists m', e'. split; [exact Hr |]. split; [exact Hm' | lia].
Qed.

(** The sum of two positive normal numbers. *)
Lemma SFadd_normal lo hi x y :
  -1021 <= lo -> hi <= 1021 ->
  normal false lo hi x -> normal false lo hi y ->
  normal false lo (hi + 2) (SFadd prec emax x y).
Proof.
  intros Hlo Hhi (mx & ex & -> & Hmx & Hex) (my & ey & -> & Hmy & Hey).
  unfold SFadd, cond_Zopp.
  set (ez := Z.min ex ey).
  destruct (shl_align_spec mx ex ez) as [Ha _].
  destruct (shl_align_spec my ey ez) as [Hb _].
  set (a := fst (shl_align mx ex ez)) in *.
  set (b := fst (shl_align my ey ez)) in *.
  rewrite Z.min_r in Ha, Hb by (subst ez; lia).
  change (Z.pos a + Z.pos b) with (Z.pos (a + b)). cbn [binary_normalize].
  assert (Hla : Z.log2 (Z.pos a) = 52 + (ex - ez))
    by (rewrite Ha, Z.log2_mul_pow2 by (subst ez; lia); lia).
  assert (Hlb : Z.log2 (Z.pos b) = 52 + (ey - ez))
    by (rewrite Hb, Z.log2_mul_pow2 by (subst ez; lia); lia).
  set (K := Z.max ex ey - ez).
  assert (HK : 0 <= K) by (subst K ez; lia).
  assert (Hge : 52 + K <= Z.log2 (Z.pos (a + b))).
  { rewrite Pos2Z.inj_add. subst K.
    destruct (Z.max_spec ex ey) as [[_ ->] | [_ ->]].
    - rewrite <- Hlb. apply Z.log2_le_mono. lia.
    - rewrite <- Hla. apply Z.log2_le_mono. lia. }
  assert (Hlt : Z.log2 (Z.pos (a + b)) < 54 + K).
  { apply Z.log2_lt_pow2; [lia |]. rewrite Pos2Z.inj_add.
    assert (Z.pos a < 2 ^ (53 + K)).
    { apply Z.lt_le_trans with (2 ^ (53 + (ex - ez))).
      - apply Z.log2_lt_pow2; lia.
      - apply Z.pow_le_mono_r; subst K ez; lia. }
    assert (Z.pos b < 2 ^ (53 + K)).
    { apply Z.lt_le_trans with (2 ^ (53 + (ey - ez))).
      - apply Z.log2_lt_pow2; lia.
      - apply Z.pow_le_mono_r; subst K ez; lia. }
    replace (54 + K) with (1 + (53 + K)) by lia.
    rewrite Z.pow_add_r, Z.pow_1_r by lia. lia. }
  eapply normal_weaken; [apply binary_round_finite | |]; subst K ez; lia.
Qed.

(** The square root of a positive normal number. *)
Lemma SFsqrt_normal x :
  normal false 1 131 x -> normal false 1 67 (SFsqrt prec emax x).
Proof.
  intros (m & e & -> & Hm & He). unfold SFsqrt, SFsqrt_core_binary.
  rewrite Zdigits2_log2, Hm by lia.
  rewrite !Z.div2_div.
  set (e' := Z.min (fexp prec emax ((52 + 1 + e + 1) / 2)) (e / 2)).
  assert (He' : e' = (54 + e) / 2 - 53)
    by (subst e'; unfold fexp, SpecFloat.emin, prec, emax;
        Z.div_mod_to_equations; lia).
  assert (Hs : e - 2 * e' = 52 \/ e - 2 * e' = 53)
    by (rewrite He'; Z.div_mod_to_equations; lia).
  assert (He'r : 1 <= 53 + e' <= 66) by (rewrite He'; Z.div_mod_to_equations; lia).
  clearbody e'. clear He'.
  set (m' := match e - 2 * e' with
             | 0 => Z.pos m
             | Z.pos _ => Z.shiftl (Z.pos m) (e - 2 * e')
             | Z.neg _ => 0
             end).
  assert (Hm' : 2 ^ 104 <= m' < 2 ^ 106).
  { pose proof (log2_52_bounds (Z.pos m) ltac:(lia) Hm) as Hb.
    subst m'. destruct Hs as [-> | ->]; cbv iota beta;
      rewrite Z.shiftl_mul_pow2 by lia; lia. }
  pose proof (Z.sqrtrem_spec m' ltac:(lia)) as Hq.
  destruct (Z.sqrtrem m') as [q r]. destruct Hq as [Hq Hr].
  assert (Hq52 : 2 ^ 52 <= q < 2 ^ 53).
  { split.
    - destruct (Z.le_gt_cases (2 ^ 52) q) as [H | H]; [exact H | exfalso].
      assert (q * q <= (2 ^ 52 - 1) * (2 ^ 52 - 1))
        by (apply Z.mul_le_mono_nonneg; lia).
      lia.
    - destruct (Z.lt_ge_cases q (2 ^ 53)) as [H | H]; [exact H | exfalso].
      assert (2 ^ 53 * 2 ^ 53 <= q * q) by (apply Z.mul_le_mono_nonneg; lia).
      lia. }
  assert (Hlq : Z.log2 q = 52) by (apply Z.log2_unique; lia).
  match goal with |- normal _ _ _ (binary_round_aux _ _ _ _ _ ?l) =>
    destruct (binary_round_aux_finite false q e' l)
      as (m'' & e'' & Hres & Hm'' & He'') end; try lia.
  exists m'', e''. split; [exact Hres |]. split; [exact Hm'' | lia].
Qed.

(** A planar distance is zero exactly when both coordinate differences
    are, and is a positive normal number otherwise. *)
Lemma distance2D_class x1 y1 x2 y2 :
  (GoInt.sub x2 x1 = 0 /\ GoInt.sub y2 y1 = 0 /\ distance2D x1 y1 x2 y2 = 0%float) \/
  ((GoInt.sub x2 x1 <> 0 \/ GoInt.sub y2 y1 <> 0) /\
   normal false 1 67 (Prim2SF (distance2D x1 y1 x2 y2))).
Proof.
  unfold distance2D, GoInt.sub.
  assert (Hw : forall z, GoInt.wrap64 (GoInt.wrap64 z) = GoInt.wrap64 z).
  { intros z. pose proof (wrap64_range z) as Hr. unfold GoInt.wrap64 at 1.
    rewrite Z.mod_small; lia. }
  destruct (float64_of_int_class (GoInt.wrap64 (x2 - x1)))
    as [[Hx0 Hx] | [Hx0 [sx Hx]]];
    destruct (float64_of_int_class (GoInt.wrap64 (y2 - y1)))
      as [[Hy0 Hy] | [Hy0 [sy Hy]]];
    rewrite Hw in Hx0, Hy0.
  - left. rewrite Hx, Hy. split; [exact Hx0 | split; [exact Hy0 | reflexivity]].
  - right. split; [right; exact Hy0 |].
    rewrite Hx. change (0 * 0)%float with 0%float.
    rewrite sqrt_spec, add_spec, mul_spec.
    change (Prim2SF 0) with (S754_zero false).
    apply SFsqrt_normal.
    destruct (SFmul_self_normal _ _ Hy) as (m & e & Hsq & H).
    unfold SF64add, SF64mul. rewrite Hsq.
    exists m, e. split; [reflexivity | split; lia].
  - right. split; [left; exact Hx0 |].
    rewrite Hy. change (0 * 0)%float with 0%float.
    rewrite sqrt_spec, add_spec, mul_spec.
    change (Prim2SF 0) with (S754_zero false).
    apply SFsqrt_normal.
    destruct (SFmul_self_normal _ _ Hx) as (m & e & Hsq & H).
    unfold SF64add, SF64mul. rewrite Hsq.
    exists m, e. split; [reflexivity | split; lia].
  - right. split; [left; exact Hx0 |].
    rewrite sqrt_spec, add_spec, !mul_spec.
    apply SFsqrt_normal.
    apply (SFadd_normal 1 129); try lia; eapply SFmul_self_normal; eassumption.
Qed.

(** *** The order of the floats that are not negative *)

Ltac compare_cases :=
  repeat match goal with
         | |- context [Pos.compare_cont Eq ?a ?b] =>
             progress change (Pos.compare_cont Eq a b) with (Pos.compare a b);
             destruct (Pos.compare_spec a b)
         | |- context [Z.compare ?a ?b] => destruct (Z.compare_spec a b)
         end;
  intros; try discriminate; try reflexivity; try lia.

Ltac nonneg_cases x :=
  let s := fresh "s" in
  let m := fresh "m" in
  let e := fresh "e" in
  destruct x as [s | s | | s m e]; try discriminate;
  try (destruct s; try discriminate).

Lemma SFleb_refl x : nonneg x = true -> SFleb x x = true.
Proof.
  intros Hx. nonneg_cases x; unfold SFleb, SFcompare; compare_cases.
Qed.

Lemma SFltb_leb x y : SFltb x y = true -> SFleb x y = true.
Proof. unfold SFltb, SFleb. now destruct (SFcompare x y) as [[]|]. Qed.

Lemma SFltb_false_leb x y :
  nonneg x = true -> nonneg y = true -> SFltb x y = false -> SFleb y x = true.
Proof.
  intros Hx Hy. nonneg_cases x; nonneg_cases y;
    unfold SFltb, SFleb, SFcompare; compare_cases.
Qed.

Lemma SFltb_leb_trans x y z :
  nonneg x = true -> nonneg y = true -> nonneg z = true ->
  SFltb x y = true -> SFleb y z = true -> SFltb x z = true.
Proof.
  intros Hx Hy Hz. nonneg_cases x; nonneg_cases y; nonneg_cases z;
    unfold SFltb, SFleb, SFcompare; compare_cases.
Qed.

Lemma SFleb_trans x y z :
  nonneg x = true -> nonneg y = true -> nonneg z = true ->
  SFleb x y = true -> SFleb y z = true -> SFleb x z = true.
Proof.
  intros Hx Hy Hz. nonneg_cases x; nonneg_cases y; nonneg_cases z;
    unfold SFleb, SFcompare; compare_cases.
Qed.

Lemma SFleb_zero x : nonneg x = true -> SFleb x (S754_zero false) = true ->
  exists s, x = S754_zero s.
Proof.
  intros Hx. nonneg_cases x; unfold SFleb, SFcompare; intros H;
    try discriminate; eexists; reflexivity.
Qed.

Lemma SFltb_zero x : nonneg x = true -> SFltb x (S754_zero false) = false.
Proof. intros Hx. nonneg_cases x; reflexivity. Qed.

Lemma normal_nonneg lo hi x : normal false lo hi x -> nonneg x = true.
Proof. now intros (m & e & -> & _). Qed.

(** A positive normal number of magnitude at most 67 is below
    [math.MaxFloat64]. *)
Lemma normal_below_max lo x :
  normal false lo 67 x -> SFltb x (Prim2SF MaxFloat64) = true.
Proof.
  intros (m & e & -> & Hm & He).
  change (Prim2SF MaxFloat64) with (S754_finite false 9007199254740991 971).
  unfold SFltb, SFcompare.
  assert (Hlt : (e ?= 971) = Lt) by (apply Z.compare_lt_iff; lia).
  now rewrite Hlt.
Qed.

(** *** Rounding to nearest even, on fractions

    The rounding of [SpecFloat] works on an integer part and a location
    of the rest.  Below, the number rounded is a fraction [N / D] scaled
    by a power of two; shifting right is doubling [D]. *)

(** The location of [r / D], for [0 <= r < D]. *)
Definition locOf (r D : Z) : location :=
  if r =? 0 then loc_Exact else loc_Inexact (2 * r ?= D).

(** [mrs] holds the integer part of [N / D] and the location of the rest. *)
Definition holds (mrs : shr_record) (N D : Z) : Prop :=
  shr_m mrs = N / D /\ loc_of_shr_record mrs = locOf (N mod D) D.

(** [N / D] rounded to the nearest integer, ties to even. *)
Definition rnd (N D : Z) : Z := round_nearest_even (N / D) (locOf (N mod D) D).

Lemma loc_of_shr_record_of_loc m l : loc_of_shr_record (shr_record_of_loc m l) = l.
Proof. now destruct l as [|[]]. Qed.

Lemma shr_1_eq m r s :
  0 <= m ->
  shr_1 (Build_shr_record m r s) = Build_shr_record (Z.div2 m) (Z.odd m) (r || s).
Proof. destruct m as [|[p|p|]|p]; simpl; intros H; try lia; reflexivity. Qed.

Lemma shr_1_holds mrs N D :
  0 < D -> 0 <= N -> holds mrs N D -> holds (shr_1 mrs) N (D * 2).
Proof.
  intros HD HN [Hm Hl].
  pose proof (Z.div_mod N D ltac:(lia)) as HN'.
  pose proof (Z.mod_pos_bound N D HD) as Hrho.
  pose proof (Z.div_pos N D HN HD) as Hq.
  destruct mrs as [m r s]. cbn [shr_m] in Hm. rewrite <- Hm in HN', Hq.
  set (rho := N mod D) in *. clearbody rho. clear Hm.
  rewrite shr_1_eq by exact Hq.
  pose proof (Z.div2_odd m) as Hodd.
  assert (Hb : 0 <= Z.b2z (Z.odd m) <= 1) by (destruct (Z.odd m); simpl; lia).
  assert (Hdiv : N / (D * 2) = Z.div2 m).
  { symmetry. apply Z.div_unique with (D * Z.b2z (Z.odd m) + rho); nia. }
  assert (Hmod : N mod (D * 2) = D * Z.b2z (Z.odd m) + rho).
  { symmetry. apply Z.mod_unique with (Z.div2 m); nia. }
  split; [cbn [shr_m]; now rewrite Hdiv |].
  rewrite Hmod. clear Hdiv Hmod HN' Hodd Hb.
  unfold locOf in *. cbn [loc_of_shr_record] in *.
  destruct (Z.odd m); cbn [Z.b2z]; rewrite ?Z.mul_1_r, ?Z.mul_0_r;
    destruct (Z.eqb_spec rho 0) as [E | E];
    destruct r, s; try discriminate; cbn [orb];
    try (injection Hl as Hl; symmetry in Hl);
    repeat match goal with
           | |- context [Z.eqb ?a ?b] => destruct (Z.eqb_spec a b)
           | |- context [Z.compare ?a ?b] => destruct (Z.compare_spec a b)
           end; try reflexivity; try lia.
Qed.

Lemma holds_nonneg mrs N D : 0 < D -> 0 <= N -> holds mrs N D -> 0 <= shr_m mrs.
Proof. intros HD HN [-> _]. now apply Z.div_pos. Qed.

Lemma iter_shr_1_holds N n : forall mrs D,
  0 < D -> 0 <= N -> holds mrs N D ->
  holds (iter_pos shr_1 n mrs) N (D * 2 ^ Z.pos n).
Proof.
  induction n as [n IH | n IH |]; intros mrs D HD HN H; simpl iter_pos.
  - replace (D * 2 ^ Z.pos n~1) with (D * 2 * 2 ^ Z.pos n * 2 ^ Z.pos n).
    + apply IH; try lia. apply IH; try lia. now apply shr_1_holds.
    + replace (Z.pos n~1) with (1 + Z.pos n + Z.pos n) by lia.
      rewrite !Z.pow_add_r, Z.pow_1_r by lia. lia.
  - replace (D * 2 ^ Z.pos n~0) with (D * 2 ^ Z.pos n * 2 ^ Z.pos n).
    + apply IH; try lia. now apply IH.
    + replace (Z.pos n~0) with (Z.pos n + Z.pos n) by lia.
      rewrite !Z.pow_add_r by lia. lia.
  - rewrite Z.pow_1_r. now apply shr_1_holds.
Qed.

Lemma shr_holds mrs e n N D :
  0 < D -> 0 <= N -> 0 <= n -> holds mrs N D ->
  holds (fst (shr mrs e n)) N (D * 2 ^ n) /\ snd (shr mrs e n) = e + n.
Proof.
  intros HD HN Hn H. destruct n as [|p|p]; cbn [shr fst snd]; try lia.
  - rewrite Z.pow_0_r, Z.mul_1_r. split; [exact H | lia].
  - split; [now apply iter_shr_1_holds | reflexivity].
Qed.

(** The float of a mantissa between [2^52] and [2^53] at exponent [E];
    the mantissa [2^53] is [2^52] at the next exponent. *)
Definition renormalize (s : bool) (m E : Z) : spec_float :=
  if m =? 2 ^ 53 then S754_finite s 4503599627370496 (E + 1)
  else S754_finite s (Z.to_pos m) E.

Lemma rnd_bounds N D : N / D <= rnd N D <= N / D + 1.
Proof. apply round_nearest_even_bounds. Qed.

(** What [binary_round_aux] computes: the fraction is brought to 53
    digits before the point, rounded to the nearest integer, ties to
    even, and renormalised. *)
Lemma binary_round_aux_rnd s N D e :
  0 < D -> 0 < N -> 52 <= Z.log2 (N / D) ->
  -1021 <= Z.log2 (N / D) + 1 + e <= 1023 ->
  binary_round_aux prec emax s (N / D) e (locOf (N mod D) D)
  = renormalize s (rnd N (D * 2 ^ (Z.log2 (N / D) - 52)))
              (e + (Z.log2 (N / D) - 52)).
Proof.
  intros HD HN Hd HM.
  assert (Hq : 0 < N / D).
  { destruct (Z.lt_ge_cases 0 (N / D)) as [H | H]; [exact H |].
    rewrite Z.log2_nonpos in Hd by exact H. lia. }
  unfold binary_round_aux, shr_fexp.
  rewrite Zdigits2_log2 by exact Hq.
  set (n1 := Z.log2 (N / D) - 52).
  replace (fexp prec emax (Z.log2 (N / D) + 1 + e) - e) with n1
    by (subst n1; unfold fexp, SpecFloat.emin, prec, emax; lia).
  destruct (shr_holds (shr_record_of_loc (N / D) (locOf (N mod D) D)) e n1 N D)
    as [[Hm1 Hl1] He1]; try lia.
  { split; [apply shr_record_of_loc_m | apply loc_of_shr_record_of_loc]. }
  destruct (shr (shr_record_of_loc (N / D) (locOf (N mod D) D)) e n1) as [mrs1 e1].
  cbn [fst snd] in Hm1, Hl1, He1.
  rewrite Hm1, Hl1. fold (rnd N (D * 2 ^ n1)).
  assert (Ha : 2 ^ 52 <= N / (D * 2 ^ n1) < 2 ^ 53).
  { rewrite <- Z.div_div by lia.
    apply log2_52_bounds; [apply div_pow2_pos; lia |].
    rewrite log2_div_pow2 by lia. lia. }
  pose proof (rnd_bounds N (D * 2 ^ n1)) as Hb.
  set (m1 := rnd N (D * 2 ^ n1)) in *. subst e1.
  unfold renormalize.
  destruct (Z.eqb_spec m1 (2 ^ 53)) as [E | Hne].
  - rewrite Zdigits2_log2 by lia. rewrite E.
    replace (fexp prec emax (Z.log2 (2 ^ 53) + 1 + (e + n1)) - (e + n1)) with 1
      by (change (Z.log2 (2 ^ 53)) with 53;
          unfold fexp, SpecFloat.emin, prec, emax; lia).
    change (2 ^ 53) with 9007199254740992.
    cbn [shr fst snd shr_record_of_loc shr_m iter_pos shr_1 orb].
    replace (e + n1 + 1 <=? emax - prec) with true; [reflexivity |].
    symmetry. apply Z.leb_le. unfold emax, prec. lia.
  - assert (H52 : Z.log2 m1 = 52) by (apply Z.log2_unique; lia).
    rewrite Zdigits2_log2, H52 by lia.
    replace (fexp prec emax (52 + 1 + (e + n1)) - (e + n1)) with 0
      by (unfold fexp, SpecFloat.emin, prec, emax; lia).
    cbn [shr fst snd shr_record_of_loc shr_m].
    destruct m1 as [|p|p]; try lia.
    replace (e + n1 <=? emax - prec) with true; [reflexivity |].
    symmetry. apply Z.leb_le. unfold emax, prec. lia.
Qed.

(** [rnd N D] is within one half of [N / D], and even when exactly one
    half away. *)
Lemma rnd_spec N D :
  0 < D ->
  (2 * rnd N D - 1) * D <= 2 * N <= (2 * rnd N D + 1) * D /\
  (2 * N = (2 * rnd N D + 1) * D -> Z.even (rnd N D) = true) /\
  (2 * N = (2 * rnd N D - 1) * D -> Z.even (rnd N D) = true).
Proof.
  intros HD. unfold rnd, locOf.
  pose proof (Z.div_mod N D ltac:(lia)) as HN.
  pose proof (Z.mod_pos_bound N D HD) as Hr.
  set (q := N / D) in *. set (r := N mod D) in *. clearbody q r.
  destruct (Z.eqb_spec r 0) as [E | E]; cbn [round_nearest_even].
  - repeat split; intros; nia.
  - destruct (Z.compare_spec (2 * r) D) as [H | H | H].
    + destruct (Z.even q) eqn:Hev.
      * repeat split; intros; try nia. exact Hev.
      * repeat split; intros; try nia.
        rewrite Z.even_add, Hev. reflexivity.
    + repeat split; intros; nia.
    + repeat split; intros; nia.
Qed.

(** Rounding to nearest even is monotone. *)
Lemma rnd_mono N1 D1 N2 D2 :
  0 < D1 -> 0 < D2 -> N1 * D2 <= N2 * D1 -> rnd N1 D1 <= rnd N2 D2.
Proof.
  intros H1 H2 Hle.
  destruct (rnd_spec N1 D1 H1) as ((Hlo1 & _) & _ & Hev1).
  destruct (rnd_spec N2 D2 H2) as ((_ & Hhi2) & Hev2 & _).
  set (m1 := rnd N1 D1) in *. set (m2 := rnd N2 D2) in *. clearbody m1 m2.
  destruct (Z.le_gt_cases m1 m2) as [H | H]; [exact H | exfalso].
  assert (HP : 0 < D1 * D2) by nia.
  assert (Ha : (2 * m1 - 1) * (D1 * D2) <= 2 * N1 * D2) by nia.
  assert (Hb : 2 * N2 * D1 <= (2 * m2 + 1) * (D1 * D2)) by nia.
  assert (Hc : (2 * m1 - 1) * (D1 * D2) <= (2 * m2 + 1) * (D1 * D2)) by lia.
  assert (Hm : m1 = m2 + 1) by nia.
  subst m1.
  assert (E1 : 2 * N1 = (2 * (m2 + 1) - 1) * D1) by nia.
  assert (E2 : 2 * N2 = (2 * m2 + 1) * D2) by nia.
  specialize (Hev1 E1). specialize (Hev2 E2).
  rewrite Z.even_add, Hev2 in Hev1. discriminate.
Qed.

(** The order of two positive finite floats is that of their exponents,
    then of their mantissas. *)
Lemma SFleb_finite m1 e1 m2 e2 :
  e1 < e2 \/ (e1 = e2 /\ Z.pos m1 <= Z.pos m2) ->
  SFleb (S754_finite false m1 e1) (S754_finite false m2 e2) = true.
Proof.
  intros H. unfold SFleb, SFcompare.
  change (Pos.compare_cont Eq m1 m2) with (Pos.compare m1 m2).
  destruct (Z.compare_spec e1 e2); try lia; try reflexivity.
  destruct (Pos.compare_spec m1 m2); try lia; reflexivity.
Qed.

Lemma SFleb_finite_inv m1 e1 m2 e2 :
  SFleb (S754_finite false m1 e1) (S754_finite false m2 e2) = true ->
  e1 < e2 \/ (e1 = e2 /\ Z.pos m1 <= Z.pos m2).
Proof.
  unfold SFleb, SFcompare.
  change (Pos.compare_cont Eq m1 m2) with (Pos.compare m1 m2).
  destruct (Z.compare_spec e1 e2); try lia; try discriminate.
  destruct (Pos.compare_spec m1 m2); try lia; discriminate.
Qed.

(** Renormalising is monotone in the mantissa. *)
Lemma renormalize_mono m1 m2 E :
  2 ^ 52 <= m1 -> m1 <= m2 -> m2 <= 2 ^ 53 ->
  SFleb (renormalize false m1 E) (renormalize false m2 E) = true.
Proof.
  intros H1 H12 H2. unfold renormalize.
  destruct (Z.eqb_spec m1 (2 ^ 53)), (Z.eqb_spec m2 (2 ^ 53)); try lia;
    apply SFleb_finite; rewrite ?Z2Pos.id by lia; lia.
Qed.

(** Renormalising at a lower exponent gives a lower float. *)
Lemma renormalize_lower m1 m2 E1 E2 :
  2 ^ 52 <= m1 <= 2 ^ 53 -> 2 ^ 52 <= m2 <= 2 ^ 53 -> E1 < E2 ->
  SFleb (renormalize false m1 E1) (renormalize false m2 E2) = true.
Proof.
  intros H1 H2 HE. unfold renormalize.
  destruct (Z.eqb_spec m1 (2 ^ 53)), (Z.eqb_spec m2 (2 ^ 53));
    apply SFleb_finite; rewrite ?Z2Pos.id by lia; lia.
Qed.

(** [fl N D e]: the positive number [N / D * 2^e] rounded to binary64. *)
Definition fl (N D e : Z) : spec_float :=
  binary_round_aux prec emax false (N / D) e (locOf (N mod D) D).

(** The fractions that [fl] rounds to a normal number. *)
Definition roundable (N D e : Z) : Prop :=
  0 < D /\ 0 < N /\ 52 <= Z.log2 (N / D) /\
  -1021 <= Z.log2 (N / D) + 1 + e <= 1023.

Lemma div_bounds_mul N D lo hi :
  0 < D -> lo <= N / D < hi -> lo * D <= N < hi * D.
Proof.
  intros HD H.
  pose proof (Z.div_mod N D ltac:(lia)). pose proof (Z.mod_pos_bound N D HD). nia.
Qed.

(** [fl] is monotone: a lower number rounds to a lower float.  The two
    numbers are compared after scaling both by [2^(-e0)]. *)
Lemma fl_mono N1 D1 e1 N2 D2 e2 e0 :
  roundable N1 D1 e1 -> roundable N2 D2 e2 -> e0 <= e1 -> e0 <= e2 ->
  N1 * D2 * 2 ^ (e1 - e0) <= N2 * D1 * 2 ^ (e2 - e0) ->
  SFleb (fl N1 D1 e1) (fl N2 D2 e2) = true.
Proof.
  intros (HD1 & HN1 & Hd1 & HM1) (HD2 & HN2 & Hd2 & HM2) He1 He2 Hle.
  unfold fl. rewrite !binary_round_aux_rnd by assumption.
  set (n1 := Z.log2 (N1 / D1) - 52) in *. set (n2 := Z.log2 (N2 / D2) - 52) in *.
  assert (Hq1 : 0 < N1 / D1).
  { destruct (Z.lt_ge_cases 0 (N1 / D1)) as [H | H]; [exact H |].
    rewrite Z.log2_nonpos in Hd1 by exact H. lia. }
  assert (Hq2 : 0 < N2 / D2).
  { destruct (Z.lt_ge_cases 0 (N2 / D2)) as [H | H]; [exact H |].
    rewrite Z.log2_nonpos in Hd2 by exact H. lia. }
  assert (Ha1 : 2 ^ 52 <= N1 / (D1 * 2 ^ n1) < 2 ^ 53).
  { rewrite <- Z.div_div by lia.
    apply log2_52_bounds; [apply div_pow2_pos; lia |].
    rewrite log2_div_pow2 by lia. lia. }
  assert (Ha2 : 2 ^ 52 <= N2 / (D2 * 2 ^ n2) < 2 ^ 53).
  { rewrite <- Z.div_div by lia.
    apply log2_52_bounds; [apply div_pow2_pos; lia |].
    rewrite log2_div_pow2 by lia. lia. }
  pose proof (rnd_bounds N1 (D1 * 2 ^ n1)) as Hb1.
  pose proof (rnd_bounds N2 (D2 * 2 ^ n2)) as Hb2.
  assert (HP1 : 0 < 2 ^ n1) by (apply Z.pow_pos_nonneg; lia).
  assert (HP2 : 0 < 2 ^ n2) by (apply Z.pow_pos_nonneg; lia).
  assert (HDP1 : 0 < D1 * 2 ^ n1) by (apply Z.mul_pos_pos; assumption).
  assert (HDP2 : 0 < D2 * 2 ^ n2) by (apply Z.mul_pos_pos; assumption).
  apply div_bounds_mul in Ha1 as Hc1; [| exact HDP1].
  apply div_bounds_mul in Ha2 as Hc2; [| exact HDP2].
  assert (HG1 : 2 ^ n1 * 2 ^ (e1 - e0) = 2 ^ (e1 + n1 - e0))
    by (rewrite <- Z.pow_add_r by lia; f_equal; lia).
  assert (HG2 : 2 ^ n2 * 2 ^ (e2 - e0) = 2 ^ (e2 + n2 - e0))
    by (rewrite <- Z.pow_add_r by lia; f_equal; lia).
  assert (HQ1 : 0 < 2 ^ (e1 - e0)) by (apply Z.pow_pos_nonneg; lia).
  assert (HQ2 : 0 < 2 ^ (e2 - e0)) by (apply Z.pow_pos_nonneg; lia).
  set (P1 := 2 ^ n1) in *. set (P2 := 2 ^ n2) in *.
  set (Q1 := 2 ^ (e1 - e0)) in *. set (Q2 := 2 ^ (e2 - e0)) in *.
  destruct (Z.lt_trichotomy (e1 + n1) (e2 + n2)) as [Hlt | [Heq | Hgt]].
  - apply renormalize_lower; lia.
  - rewrite Heq. apply renormalize_mono; try lia.
    apply rnd_mono; [exact HDP1 | exact HDP2 |].
    rewrite Heq in HG1. rewrite <- HG2 in HG1.
    clearbody P1 P2 Q1 Q2. clear - Hle HG1 HP1 HP2 HQ1 HQ2 HD1 HD2 HN1 HN2.
    assert (HPP : 0 <= P1 * P2) by (apply Z.mul_nonneg_nonneg; lia).
    assert (HPQ : 0 < P2 * Q2) by (apply Z.mul_pos_pos; lia).
    assert (H : N1 * D2 * Q1 * (P1 * P2) <= N2 * D1 * Q2 * (P1 * P2))
      by (apply Z.mul_le_mono_nonneg_r; assumption).
    replace (N1 * D2 * Q1 * (P1 * P2)) with (N1 * (D2 * P2) * (P1 * Q1)) in H by ring.
    replace (N2 * D1 * Q2 * (P1 * P2)) with (N2 * (D1 * P1) * (P2 * Q2)) in H by ring.
    rewrite HG1 in H.
    apply Z.mul_le_mono_pos_r in H; assumption.
  - exfalso.
    assert (HG : 2 * 2 ^ (e2 + n2 - e0) <= 2 ^ (e1 + n1 - e0)).
    { replace (e1 + n1 - e0) with (e1 + n1 - e2 - n2 + (e2 + n2 - e0)) by lia.
      rewrite Z.pow_add_r by lia.
      assert (Hp : 2 ^ 1 <= 2 ^ (e1 + n1 - e2 - n2)) by (apply Z.pow_le_mono_r; lia).
      assert (Hg : 0 <= 2 ^ (e2 + n2 - e0)) by (apply Z.pow_nonneg; lia).
      rewrite Z.pow_1_r in Hp.
      apply Z.mul_le_mono_nonneg_r; assumption. }
    rewrite <- HG1, <- HG2 in HG.
    clearbody P1 P2 Q1 Q2.
    clear - Hle HG HP1 HP2 HQ1 HQ2 HD1 HD2 HN1 HN2 Hc1 Hc2.
    assert (HDQ1 : 0 < D2 * Q1) by (apply Z.mul_pos_pos; lia).
    assert (HDQ2 : 0 < D1 * Q2) by (apply Z.mul_pos_pos; lia).
    assert (HDD : 0 <= 2 ^ 52 * (D1 * D2))
      by (apply Z.mul_nonneg_nonneg; [lia | apply Z.mul_nonneg_nonneg; lia]).
    assert (Hx : 2 ^ 52 * (D1 * D2) * (P1 * Q1) <= N1 * D2 * Q1).
    { replace (2 ^ 52 * (D1 * D2) * (P1 * Q1))
        with (2 ^ 52 * (D1 * P1) * (D2 * Q1)) by ring.
      replace (N1 * D2 * Q1) with (N1 * (D2 * Q1)) by ring.
      apply Z.mul_le_mono_nonneg_r; lia. }
    assert (Hy : N2 * D1 * Q2 < 2 ^ 53 * (D1 * D2) * (P2 * Q2)).
    { replace (2 ^ 53 * (D1 * D2) * (P2 * Q2))
        with (2 ^ 53 * (D2 * P2) * (D1 * Q2)) by ring.
      replace (N2 * D1 * Q2) with (N2 * (D1 * Q2)) by ring.
      apply Z.mul_lt_mono_pos_r; lia. }
    assert (Hz : 2 ^ 53 * (D1 * D2) * (P2 * Q2) <= 2 ^ 52 * (D1 * D2) * (P1 * Q1)).
    { replace (2 ^ 53) with (2 ^ 52 * 2) by reflexivity.
      replace (2 ^ 52 * 2 * (D1 * D2) * (P2 * Q2))
        with (2 ^ 52 * (D1 * D2) * (2 * (P2 * Q2))) by ring.
      apply Z.mul_le_mono_nonneg_l; [exact HDD | exact HG]. }
    lia.
Qed.

Lemma roundable_pos N D e : roundable N D e -> 0 < N / D.
Proof.
  intros (_ & _ & Hd & _).
  destruct (Z.lt_ge_cases 0 (N / D)) as [H | H]; [exact H |].
  rewrite Z.log2_nonpos in Hd by exact H. lia.
Qed.

(** [fl] gives a normal number of the magnitude of its argument, or the
    next. *)
Lemma fl_normal N D e :
  roundable N D e ->
  normal false (Z.log2 (N / D) + 1 + e) (Z.log2 (N / D) + 2 + e) (fl N D e).
Proof.
  intros H. pose proof (roundable_pos N D e H) as Hq.
  destruct H as (HD & HN & Hd & HM).
  destruct (binary_round_aux_finite false (N / D) e (locOf (N mod D) D))
    as (m' & e' & Hr & Hm' & He'); try assumption.
  exists m', e'. split; [exact Hr | split; [exact Hm' | lia]].
Qed.

(** A normal number rounds to itself. *)
Lemma fl_exact m e :
  Z.log2 (Z.pos m) = 52 -> -1021 <= 53 + e <= 1023 ->
  fl (Z.pos m) 1 e = S754_finite false m e.
Proof.
  intros Hm He. unfold fl.
  rewrite binary_round_aux_rnd; rewrite ?Z.div_1_r, ?Hm; try lia.
  change (2 ^ (52 - 52)) with 1. rewrite Z.mul_1_r, Z.add_0_r.
  unfold rnd. rewrite Z.div_1_r, Z.mod_1_r. cbn [locOf Z.eqb round_nearest_even].
  unfold renormalize.
  pose proof (log2_52_bounds (Z.pos m) ltac:(lia) Hm) as Hb.
  destruct (Z.eqb_spec (Z.pos m) (2 ^ 53)); [lia | reflexivity].
Qed.

Lemma new_location_locOf nb k :
  0 < nb -> 0 <= k < nb -> new_location nb k = locOf k nb.
Proof.
  intros Hnb Hk. unfold new_location, new_location_even, new_location_odd, locOf.
  destruct (Z.even nb) eqn:Hev; [reflexivity |].
  destruct (Z.eqb_spec k 0); [reflexivity |]. f_equal.
  assert (Hodd : Z.odd nb = true) by (rewrite <- Z.negb_even, Hev; reflexivity).
  apply Z.odd_spec in Hodd. destruct Hodd as [h Hh].
  destruct (Z.compare_spec (2 * k + 1) nb), (Z.compare_spec (2 * k) nb);
    try reflexivity; lia.
Qed.

(** The quotient of two positive normal numbers is the rounding of the
    fraction of their mantissas. *)
Lemma SFdiv_fl ma ea mt et :
  Z.log2 (Z.pos ma) = 52 -> Z.log2 (Z.pos mt) = 52 -> -1021 <= ea - et ->
  SFdiv prec emax (S754_finite false ma ea) (S754_finite false mt et)
  = fl (Z.pos ma * 2 ^ 53) (Z.pos mt) (ea - et - 53).
Proof.
  intros Ha Ht He. unfold SFdiv, SFdiv_core_binary, fl.
  rewrite !Zdigits2_log2, Ha, Ht by lia.
  replace (Z.min (fexp prec emax (52 + 1 + ea - (52 + 1 + et))) (ea - et))
    with (ea - et - 53) by (unfold fexp, SpecFloat.emin, prec, emax; lia).
  replace (ea - et - (ea - et - 53)) with 53 by lia.
  cbv iota beta. rewrite Z.shiftl_mul_pow2 by lia.
  unfold Z.div, Z.modulo.
  pose proof (Z.mod_pos_bound (Z.pos ma * 2 ^ 53) (Z.pos mt) ltac:(lia)) as Hr.
  unfold Z.modulo in Hr.
  destruct (Z.div_eucl (Z.pos ma * 2 ^ 53) (Z.pos mt)) as [q r].
  cbn [xorb]. rewrite new_location_locOf by lia. reflexivity.
Qed.

Lemma SFdiv_roundable ma ea mt et :
  Z.log2 (Z.pos ma) = 52 -> Z.log2 (Z.pos mt) = 52 ->
  -1021 <= ea - et <= 1021 ->
  roundable (Z.pos ma * 2 ^ 53) (Z.pos mt) (ea - et - 53) /\
  52 <= Z.log2 (Z.pos ma * 2 ^ 53 / Z.pos mt) <= 53.
Proof.
  intros Ha Ht He.
  pose proof (log2_52_bounds (Z.pos ma) ltac:(lia) Ha) as Hba.
  pose proof (log2_52_bounds (Z.pos mt) ltac:(lia) Ht) as Hbt.
  assert (Hq : 2 ^ 52 <= Z.pos ma * 2 ^ 53 / Z.pos mt < 2 ^ 54).
  { split.
    - apply Z.div_le_lower_bound; lia.
    - apply Z.div_lt_upper_bound; lia. }
  assert (Hl : 52 <= Z.log2 (Z.pos ma * 2 ^ 53 / Z.pos mt) <= 53).
  { split.
    - apply Z.log2_le_pow2; lia.
    - assert (Z.log2 (Z.pos ma * 2 ^ 53 / Z.pos mt) < 54)
        by (apply Z.log2_lt_pow2; lia).
      lia. }
  split; [| exact Hl]. repeat split; lia.
Qed.

(** The product of two positive normal numbers is the rounding of the
    product of their mantissas. *)
Lemma SFmul_fl ma ea mb eb :
  SFmul prec emax (S754_finite false ma ea) (S754_finite false mb eb)
  = fl (Z.pos ma * Z.pos mb) 1 (ea + eb).
Proof.
  unfold SFmul, fl. rewrite Z.div_1_r, Z.mod_1_r. reflexivity.
Qed.

Lemma SFmul_roundable ma ea mb eb :
  Z.log2 (Z.pos ma) = 52 -> Z.log2 (Z.pos mb) = 52 ->
  -1021 <= 105 + ea + eb -> 106 + ea + eb <= 1023 ->
  roundable (Z.pos ma * Z.pos mb) 1 (ea + eb).
Proof.
  intros Ha Hb Hlo Hhi.
  pose proof (Z.log2_mul_below (Z.pos ma) (Z.pos mb) ltac:(lia) ltac:(lia)).
  pose proof (Z.log2_mul_above (Z.pos ma) (Z.pos mb) ltac:(lia) ltac:(lia)).
  unfold roundable. rewrite Z.div_1_r. repeat split; lia.
Qed.

(** The order of two positive normal numbers is the order of their
    values, here both scaled by [2^(-e0)]. *)
Lemma normal_value_le m1 e1 m2 e2 e0 :
  Z.log2 (Z.pos m1) = 52 -> Z.log2 (Z.pos m2) = 52 -> e0 <= e1 -> e0 <= e2 ->
  SFleb (S754_finite false m1 e1) (S754_finite false m2 e2) = true ->
  Z.pos m1 * 2 ^ (e1 - e0) <= Z.pos m2 * 2 ^ (e2 - e0).
Proof.
  intros H1 H2 He1 He2 Hle.
  pose proof (log2_52_bounds (Z.pos m1) ltac:(lia) H1) as Hb1.
  pose proof (log2_52_bounds (Z.pos m2) ltac:(lia) H2) as Hb2.
  assert (HQ : 0 < 2 ^ (e1 - e0)) by (apply Z.pow_pos_nonneg; lia).
  destruct (SFleb_finite_inv _ _ _ _ Hle) as [Hlt | [-> Hm]].
  - replace (e2 - e0) with (e2 - e1 + (e1 - e0)) by lia.
    rewrite Z.pow_add_r by lia.
    assert (Hp : 2 ^ 1 <= 2 ^ (e2 - e1)) by (apply Z.pow_le_mono_r; lia).
    rewrite Z.pow_1_r in Hp.
    apply Z.le_trans with (2 ^ 53 * 2 ^ (e1 - e0)).
    + apply Z.mul_le_mono_nonneg_r; lia.
    + rewrite Z.mul_assoc. apply Z.mul_le_mono_nonneg_r; [lia |].
      apply Z.le_trans with (2 ^ 52 * 2); [reflexivity |].
      apply Z.mul_le_mono_nonneg; lia.
  - apply Z.mul_le_mono_nonneg_r; lia.
Qed.

(** Division by a positive normal number is monotone. *)
Lemma SFdiv_mono ma ea mb eb mt et :
  Z.log2 (Z.pos ma) = 52 -> Z.log2 (Z.pos mb) = 52 -> Z.log2 (Z.pos mt) = 52 ->
  -1021 <= ea - et <= 1021 -> -1021 <= eb - et <= 1021 ->
  SFleb (S754_finite false ma ea) (S754_finite false mb eb) = true ->
  SFleb (SFdiv prec emax (S754_finite false ma ea) (S754_finite false mt et))
        (SFdiv prec emax (S754_finite false mb eb) (S754_finite false mt et)) = true.
Proof.
  intros Ha Hb Ht Hea Heb Hle.
  rewrite !SFdiv_fl by (assumption || lia).
  destruct (SFdiv_roundable ma ea mt et Ha Ht Hea) as [Hra _].
  destruct (SFdiv_roundable mb eb mt et Hb Ht Heb) as [Hrb _].
  set (e0 := Z.min ea eb).
  apply (fl_mono _ _ _ _ _ _ (e0 - et - 53) Hra Hrb); try (subst e0; lia).
  pose proof (normal_value_le ma ea mb eb e0 Ha Hb
                ltac:(subst e0; lia) ltac:(subst e0; lia) Hle) as Hv.
  replace (ea - et - 53 - (e0 - et - 53)) with (ea - e0) by lia.
  replace (eb - et - 53 - (e0 - et - 53)) with (eb - e0) by lia.
  replace (Z.pos ma * 2 ^ 53 * Z.pos mt * 2 ^ (ea - e0))
    with (Z.pos ma * 2 ^ (ea - e0) * (2 ^ 53 * Z.pos mt)) by ring.
  replace (Z.pos mb * 2 ^ 53 * Z.pos mt * 2 ^ (eb - e0))
    with (Z.pos mb * 2 ^ (eb - e0) * (2 ^ 53 * Z.pos mt)) by ring.
  apply Z.mul_le_mono_nonneg_r; lia.
Qed.

(** Multiplication by a positive normal number is monotone. *)
Lemma SFmul_mono ma ea mb eb mk ek :
  Z.log2 (Z.pos ma) = 52 -> Z.log2 (Z.pos mb) = 52 -> Z.log2 (Z.pos mk) = 52 ->
  -1021 <= 105 + ea + ek -> 106 + ea + ek <= 1023 ->
  -1021 <= 105 + eb + ek -> 106 + eb + ek <= 1023 ->
  SFleb (S754_finite false ma ea) (S754_finite false mb eb) = true ->
  SFleb (SFmul prec emax (S754_finite false ma ea) (S754_finite false mk ek))
        (SFmul prec emax (S754_finite false mb eb) (S754_finite false mk ek)) = true.
Proof.
  intros Ha Hb Hk Ha1 Ha2 Hb1 Hb2 Hle.
  rewrite !SFmul_fl.
  pose proof (SFmul_roundable ma ea mk ek Ha Hk Ha1 Ha2) as Hra.
  pose proof (SFmul_roundable mb eb mk ek Hb Hk Hb1 Hb2) as Hrb.
  set (e0 := Z.min ea eb).
  apply (fl_mono _ _ _ _ _ _ (e0 + ek) Hra Hrb); try (subst e0; lia).
  pose proof (normal_value_le ma ea mb eb e0 Ha Hb
                ltac:(subst e0; lia) ltac:(subst e0; lia) Hle) as Hv.
  replace (ea + ek - (e0 + ek)) with (ea - e0) by lia.
  replace (eb + ek - (e0 + ek)) with (eb - e0) by lia.
  rewrite !Z.mul_1_r.
  replace (Z.pos ma * Z.pos mk * 2 ^ (ea - e0))
    with (Z.pos ma * 2 ^ (ea - e0) * Z.pos mk) by ring.
  replace (Z.pos mb * Z.pos mk * 2 ^ (eb - e0))
    with (Z.pos mb * 2 ^ (eb - e0) * Z.pos mk) by ring.
  apply Z.mul_le_mono_nonneg_r; lia.
Qed.

(** [binary_round] of a positive integer is [fl] of the integer brought
    to at least 53 digits. *)
Lemma binary_round_fl m e :
  -1021 <= Z.log2 (Z.pos m) + 1 + e <= 1023 ->
  exists mz ez,
    binary_round prec emax false m e = fl (Z.pos mz) 1 ez /\
    roundable (Z.pos mz) 1 ez /\
    ez = Z.min e (Z.log2 (Z.pos m) + e - 52) /\
    Z.pos mz = Z.pos m * 2 ^ (e - ez).
Proof.
  intros HM. unfold binary_round.
  rewrite digits2_pos_log2.
  set (e' := fexp prec emax (Z.log2 (Z.pos m) + 1 + e)).
  assert (He' : e' = Z.log2 (Z.pos m) + e - 52)
    by (subst e'; unfold fexp, SpecFloat.emin, prec, emax; lia).
  destruct (shl_align_spec m e e') as [Hmz Hez].
  destruct (shl_align m e e') as [mz ez]. cbn [fst snd] in Hmz, Hez.
  exists mz, ez.
  assert (Hlog : Z.log2 (Z.pos mz) + ez = Z.log2 (Z.pos m) + e).
  { rewrite Hmz, Z.log2_mul_pow2 by lia. lia. }
  split; [| split; [| split]].
  - unfold fl. now rewrite Z.div_1_r, Z.mod_1_r.
  - unfold roundable. rewrite Z.div_1_r. repeat split; lia.
  - lia.
  - rewrite Hmz. do 2 f_equal. lia.
Qed.

(** Adding a positive normal number to a positive normal number does not
    decrease it. *)
Lemma SFadd_increases mc ec md ed :
  Z.log2 (Z.pos mc) = 52 -> Z.log2 (Z.pos md) = 52 ->
  -1021 <= 53 + ec <= 1021 -> -1021 <= 53 + ed <= 1021 ->
  SFleb (S754_finite false mc ec)
        (SFadd prec emax (S754_finite false mc ec) (S754_finite false md ed)) = true.
Proof.
  intros Hc Hd Hec Hed.
  unfold SFadd, cond_Zopp.
  set (ez := Z.min ec ed).
  destruct (shl_align_spec mc ec ez) as [Ha _].
  destruct (shl_align_spec md ed ez) as [Hb _].
  set (a := fst (shl_align mc ec ez)) in *.
  set (b := fst (shl_align md ed ez)) in *.
  rewrite Z.min_r in Ha, Hb by (subst ez; lia).
  change (Z.pos a + Z.pos b) with (Z.pos (a + b)). cbn [binary_normalize].
  assert (Hla : Z.log2 (Z.pos a) = 52 + (ec - ez))
    by (rewrite Ha, Z.log2_mul_pow2 by (subst ez; lia); lia).
  assert (Hlb : Z.log2 (Z.pos b) = 52 + (ed - ez))
    by (rewrite Hb, Z.log2_mul_pow2 by (subst ez; lia); lia).
  set (K := Z.max ec ed - ez).
  assert (HK : 0 <= K) by (subst K ez; lia).
  assert (Hge : 52 + K <= Z.log2 (Z.pos (a + b))).
  { rewrite Pos2Z.inj_add. subst K.
    destruct (Z.max_spec ec ed) as [[_ ->] | [_ ->]].
    - rewrite <- Hlb. apply Z.log2_le_mono. lia.
    - rewrite <- Hla. apply Z.log2_le_mono. lia. }
  assert (Hlt : Z.log2 (Z.pos (a + b)) < 54 + K).
  { apply Z.log2_lt_pow2; [lia |]. rewrite Pos2Z.inj_add.
    assert (Z.pos a < 2 ^ (53 + K)).
    { apply Z.lt_le_trans with (2 ^ (53 + (ec - ez))).
      - apply Z.log2_lt_pow2; lia.
      - apply Z.pow_le_mono_r; subst K ez; lia. }
    assert (Z.pos b < 2 ^ (53 + K)).
    { apply Z.lt_le_trans with (2 ^ (53 + (ed - ez))).
      - apply Z.log2_lt_pow2; lia.
      - apply Z.pow_le_mono_r; subst K ez; lia. }
    replace (54 + K) with (1 + (53 + K)) by lia.
    rewrite Z.pow_add_r, Z.pow_1_r by lia. lia. }
  destruct (binary_round_fl (a + b) ez) as (mz & ez' & -> & Hr & Hez' & Hmz);
    [subst K ez; lia |].
  rewrite <- (fl_exact mc ec Hc) by lia.
  apply (fl_mono _ _ _ _ _ _ ez'); try assumption; try (subst ez; lia).
  - unfold roundable. rewrite Z.div_1_r, Hc. repeat split; lia.
  - rewrite Z.sub_diag, Z.pow_0_r, !Z.mul_1_r, Hmz, Pos2Z.inj_add.
    assert (HP : 0 < 2 ^ (ez - ez')) by (apply Z.pow_pos_nonneg; lia).
    apply Z.le_trans with (Z.pos a * 2 ^ (ez - ez')).
    + rewrite Ha, <- Z.mul_assoc, <- Z.pow_add_r by (subst ez; lia).
      replace (ec - ez + (ez - ez')) with (ec - ez') by lia. lia.
    + apply Z.mul_le_mono_nonneg_r; lia.
Qed.

(** A large float absorbs a small one: when the exponents are 54 or more
    apart, the sum is the larger number. *)
Lemma SFadd_absorbs mc ec md ed :
  Z.log2 (Z.pos mc) = 52 -> Z.log2 (Z.pos md) = 52 ->
  54 <= ec - ed -> -1021 <= 53 + ed -> 53 + ec <= 1023 ->
  SFadd prec emax (S754_finite false mc ec) (S754_finite false md ed)
  = S754_finite false mc ec.
Proof.
  intros Hc Hd Hk Hed Hec.
  pose proof (log2_52_bounds (Z.pos mc) ltac:(lia) Hc) as Hbc.
  pose proof (log2_52_bounds (Z.pos md) ltac:(lia) Hd) as Hbd.
  unfold SFadd, cond_Zopp.
  rewrite Z.min_r by lia.
  destruct (shl_align_spec mc ec ed) as [Ha _].
  destruct (shl_align_spec md ed ed) as [Hb _].
  set (a := fst (shl_align mc ec ed)) in *.
  set (b := fst (shl_align md ed ed)) in *.
  rewrite Z.min_r in Ha by lia.
  rewrite Z.min_r, Z.sub_diag, Z.pow_0_r, Z.mul_1_r in Hb by lia.
  change (Z.pos a + Z.pos b) with (Z.pos (a + b)). cbn [binary_normalize].
  set (k := ec - ed) in *.
  assert (HPk : 2 ^ 54 <= 2 ^ k) by (apply Z.pow_le_mono_r; lia).
  assert (HN : Z.pos (a + b) = 2 ^ k * Z.pos mc + Z.pos md)
    by (rewrite Pos2Z.inj_add, Ha, Hb; ring).
  assert (Hlog : Z.log2 (Z.pos (a + b)) = 52 + k).
  { apply Z.log2_unique; [lia |]. rewrite HN.
    replace (Z.succ (52 + k)) with (53 + k) by lia.
    rewrite !Z.pow_add_r by lia. nia. }
  destruct (binary_round_fl (a + b) ed) as (mz & ez' & -> & Hr & Hez' & Hmz);
    [lia |].
  rewrite Hlog in Hez'. rewrite Z.min_l in Hez' by lia. subst ez'.
  rewrite Z.sub_diag, Z.pow_0_r, Z.mul_1_r in Hmz.
  unfold fl. destruct Hr as (HD & HNp & Hd52 & HM).
  rewrite binary_round_aux_rnd by assumption.
  rewrite Z.div_1_r, Hmz, Hlog, Z.mul_1_l.
  replace (52 + k - 52) with k by lia.
  assert (Hdiv : Z.pos (a + b) / 2 ^ k = Z.pos mc).
  { symmetry. apply Z.div_unique with (Z.pos md); lia. }
  assert (Hmod : Z.pos (a + b) mod 2 ^ k = Z.pos md).
  { symmetry. apply Z.mod_unique with (Z.pos mc); lia. }
  unfold rnd, locOf. rewrite Hdiv, Hmod.
  cbn [Z.eqb].
  replace (2 * Z.pos md ?= 2 ^ k) with Lt
    by (symmetry; apply Z.compare_lt_iff; lia).
  cbn [round_nearest_even]. unfold renormalize.
  destruct (Z.eqb_spec (Z.pos mc) (2 ^ 53)); [lia |].
  cbn [Z.to_pos]. f_equal. lia.
Qed.

(** *** Floor and conversion to [int] *)

(** The integer part of a float that is not negative. *)
Definition floorZ (x : spec_float) : Z :=
  match x with
  | S754_finite false m e => Z.pos m * 2 ^ (e + 1074) / 2 ^ 1074
  | _ => 0
  end.

Lemma of_magnitude_exact q :
  0 < q < 2 ^ 53 ->
  exists m e, Prim2SF (of_magnitude q) = S754_finite false m e /\
              e = Z.log2 q - 52 /\ Z.pos m = q * 2 ^ (- e).
Proof.
  intros Hq. unfold of_magnitude.
  rewrite of_uint63_spec, Uint63.of_Z_spec, Z.mod_small
    by (change Uint63.wB with (2 ^ 63); lia).
  destruct q as [|p|p]; try lia. cbn [binary_normalize].
  assert (Hl : 0 <= Z.log2 (Z.pos p) < 53).
  { split; [apply Z.log2_nonneg | apply Z.log2_lt_pow2; lia]. }
  destruct (binary_round_fl p 0) as (mz & ez & -> & Hr & Hez & Hmz); [lia |].
  rewrite Z.min_r in Hez by lia.
  exists mz, ez. split; [| split].
  - apply fl_exact.
    + rewrite Hmz, Z.log2_mul_pow2 by lia. lia.
    + lia.
  - lia.
  - rewrite Hmz. f_equal.
Qed.

Lemma int_of_magnitude q :
  0 <= q < 2 ^ 53 -> int_of_float64 (of_magnitude q) = q.
Proof.
  intros Hq. destruct (Z.eq_dec q 0) as [-> | Hne]; [reflexivity |].
  destruct (of_magnitude_exact q ltac:(lia)) as (m & e & Hp & He & Hm).
  assert (Hl : 0 <= Z.log2 q < 53).
  { split; [apply Z.log2_nonneg | apply Z.log2_lt_pow2; lia]. }
  unfold int_of_float64. rewrite Hp. unfold trunc.
  assert (Hv : (if 0 <=? e then Z.pos m * 2 ^ e else Z.pos m / 2 ^ (- e)) = q).
  { destruct (Z.leb_spec 0 e).
    - assert (e = 0) as -> by lia. rewrite Hm. simpl. lia.
    - rewrite Hm. apply Z.div_mul. apply Z.pow_nonzero; lia. }
  rewrite Hv.
  unfold GoInt.min_int, GoInt.max_int.
  destruct (Z.leb_spec (- 2 ^ 63) q), (Z.leb_spec q (2 ^ 63 - 1)); cbn [andb]; lia.
Qed.

(** [int(math.Floor(x))] for a positive normal [x] below [2^62]. *)
Lemma int_Floor (x : float) m e :
  Prim2SF x = S754_finite false m e -> Z.log2 (Z.pos m) = 52 ->
  -1074 <= e <= 9 ->
  int_of_float64 (Floor x) = floorZ (Prim2SF x).
Proof.
  intros Hx Hm He. rewrite Hx. unfold Floor, floorZ. rewrite Hx.
  pose proof (log2_52_bounds (Z.pos m) ltac:(lia) Hm) as Hb.
  destruct (Z.leb_spec 0 e) as [Hpos | Hneg].
  - unfold int_of_float64. rewrite Hx. unfold trunc.
    destruct (Z.leb_spec 0 e); [| lia].
    rewrite Z.pow_add_r, Z.mul_assoc, Z.div_mul by lia.
    assert (Hr : 0 < Z.pos m * 2 ^ e < 2 ^ 62).
    { assert (0 < 2 ^ e <= 2 ^ 9)
        by (split; [apply Z.pow_pos_nonneg | apply Z.pow_le_mono_r]; lia).
      change (2 ^ 62) with (2 ^ 53 * 2 ^ 9). nia. }
    unfold GoInt.min_int, GoInt.max_int.
    destruct (Z.leb_spec (- 2 ^ 63) (Z.pos m * 2 ^ e)),
             (Z.leb_spec (Z.pos m * 2 ^ e) (2 ^ 63 - 1)); cbn [andb]; lia.
  - assert (HP : 0 < 2 ^ (- e)) by (apply Z.pow_pos_nonneg; lia).
    assert (Hq : 0 <= Z.pos m / 2 ^ (- e) < 2 ^ 53).
    { split; [apply Z.div_pos; lia |].
      apply Z.div_lt_upper_bound; [lia |]. nia. }
    destruct (Z.ltb_spec (Z.pos m / 2 ^ (- e)) 0); [lia |].
    rewrite int_of_magnitude by exact Hq.
    replace (2 ^ 1074) with (2 ^ (- e) * 2 ^ (e + 1074))
      by (rewrite <- Z.pow_add_r by lia; f_equal; lia).
    rewrite Z.div_mul_cancel_r; [reflexivity | lia |].
    apply Z.pow_nonzero; lia.
Qed.

(** The integer part is monotone on the positive normal numbers. *)
Lemma floorZ_mono m1 e1 m2 e2 :
  Z.log2 (Z.pos m1) = 52 -> Z.log2 (Z.pos m2) = 52 ->
  -1074 <= e1 -> -1074 <= e2 ->
  SFleb (S754_finite false m1 e1) (S754_finite false m2 e2) = true ->
  floorZ (S754_finite false m1 e1) <= floorZ (S754_finite false m2 e2).
Proof.
  intros H1 H2 He1 He2 Hle. unfold floorZ.
  apply Z.div_le_mono; [lia |].
  pose proof (normal_value_le m1 e1 m2 e2 (-1074) H1 H2 He1 He2 Hle) as Hv.
  replace (e1 + 1074) with (e1 - -1074) by lia.
  replace (e2 + 1074) with (e2 - -1074) by lia. exact Hv.
Qed.

Lemma floorZ_nonneg x : 0 <= floorZ x.
Proof.
  destruct x as [s|s| |s m e]; cbn [floorZ]; try lia. destruct s; [lia |].
  apply Z.div_pos; [| lia].
  apply Z.mul_nonneg_nonneg; [lia |].
  destruct (Z.le_gt_cases 0 (e + 1074)).
  - apply Z.pow_nonneg; lia.
  - rewrite Z.pow_neg_r by lia. lia.
Qed.

(** *** Cumulative distances and positions within a lap *)

(** The length of a segment: zero or a normal number of magnitude at
    most 67. *)
Definition segment (x : spec_float) : Prop :=
  x = S754_zero false \/ normal false 1 67 x.

(** A cumulative distance: zero or a normal number of magnitude at most
    122. *)
Definition cumulative (x : spec_float) : Prop :=
  x = S754_zero false \/ normal false 1 122 x.

Lemma cumulative_nonneg x : cumulative x -> nonneg x = true.
Proof. intros [-> | H]; [reflexivity | eapply normal_nonneg, H]. Qed.

(** Adding a segment to a cumulative distance gives a cumulative distance
    that is not smaller: the sum neither overflows nor decreases. *)
Lemma SFadd_cumulative C D :
  cumulative C -> segment D ->
  cumulative (SFadd prec emax C D) /\ SFleb C (SFadd prec emax C D) = true.
Proof.
  intros [-> | HC] [-> | HD].
  - split; [left; reflexivity | reflexivity].
  - destruct HD as (m & e & -> & Hm & He). split; [| reflexivity].
    right. exists m, e. split; [reflexivity | split; [exact Hm | lia]].
  - destruct HC as (m & e & -> & Hm & He). split.
    + right. exists m, e. split; [reflexivity | split; [exact Hm | lia]].
    + apply SFleb_finite. lia.
  - pose proof HC as (mc & ec & -> & Hmc & Hec).
    pose proof HD as (md & ed & -> & Hmd & Hed).
    destruct (Z_le_gt_dec (53 + ec) 120) as [Hsmall | Hbig].
    + split.
      * right. apply (SFadd_normal 1 120); try lia.
        -- exists mc, ec. split; [reflexivity | split; [exact Hmc | lia]].
        -- exists md, ed. split; [reflexivity | split; [exact Hmd | lia]].
      * apply SFadd_increases; try assumption; lia.
    + rewrite SFadd_absorbs by (assumption || lia).
      split; [right; exact HC | apply SFleb_finite; lia].
Qed.

(** 144 as a float. *)
Definition SF144 : spec_float := S754_finite false 5066549580791808 (-45).

(** The position [p / t * 144] of a distance [p] in a lap of length [t]. *)
Definition scaled (p t : spec_float) : spec_float :=
  SFmul prec emax (SFdiv prec emax p t) SF144.

Lemma SFdiv_within mp ep mt et :
  Z.log2 (Z.pos mp) = 52 -> Z.log2 (Z.pos mt) = 52 ->
  -121 <= ep - et <= 0 ->
  normal false (-121) 2
         (SFdiv prec emax (S754_finite false mp ep) (S754_finite false mt et)).
Proof.
  intros Hp Ht He. rewrite SFdiv_fl by (assumption || lia).
  destruct (SFdiv_roundable mp ep mt et Hp Ht ltac:(lia)) as [Hr Hl].
  eapply normal_weaken; [apply fl_normal, Hr | |]; lia.
Qed.

(** The position of a distance within a lap that is at least as long is
    a normal number below [2^11]. *)
Lemma scaled_normal mp ep mt et :
  Z.log2 (Z.pos mp) = 52 -> Z.log2 (Z.pos mt) = 52 ->
  -121 <= ep - et <= 0 ->
  exists m e,
    scaled (S754_finite false mp ep) (S754_finite false mt et)
    = S754_finite false m e /\ Z.log2 (Z.pos m) = 52 /\ -1074 <= e <= 9.
Proof.
  intros Hp Ht He. unfold scaled, SF144.
  destruct (SFdiv_within mp ep mt et Hp Ht He) as (mq & eq & -> & Hmq & Heq).
  rewrite SFmul_fl.
  assert (Hk : Z.log2 5066549580791808 = 52) by reflexivity.
  pose proof (SFmul_roundable mq eq 5066549580791808 (-45) Hmq Hk
                ltac:(lia) ltac:(lia)) as Hr.
  pose proof (Z.log2_mul_below (Z.pos mq) 5066549580791808 ltac:(lia) ltac:(lia)).
  pose proof (Z.log2_mul_above (Z.pos mq) 5066549580791808 ltac:(lia) ltac:(lia)).
  destruct (fl_normal _ _ _ Hr) as (m & e & Hfl & Hm & Hme).
  rewrite Z.div_1_r in Hme.
  exists m, e. split; [exact Hfl | split; [exact Hm | lia]].
Qed.

(** The position within a lap is monotone in the distance. *)
Lemma scaled_mono m1 e1 m2 e2 mt et :
  Z.log2 (Z.pos m1) = 52 -> Z.log2 (Z.pos m2) = 52 -> Z.log2 (Z.pos mt) = 52 ->
  -121 <= e1 - et <= 0 -> -121 <= e2 - et <= 0 ->
  SFleb (S754_finite false m1 e1) (S754_finite false m2 e2) = true ->
  SFleb (scaled (S754_finite false m1 e1) (S754_finite false mt et))
        (scaled (S754_finite false m2 e2) (S754_finite false mt et)) = true.
Proof.
  intros H1 H2 Ht He1 He2 Hle. unfold scaled, SF144.
  pose proof (SFdiv_mono m1 e1 m2 e2 mt et H1 H2 Ht ltac:(lia) ltac:(lia) Hle) as Hd.
  destruct (SFdiv_within m1 e1 mt et H1 Ht He1) as (q1 & f1 & Hq1 & Hm1 & Hf1).
  destruct (SFdiv_within m2 e2 mt et H2 Ht He2) as (q2 & f2 & Hq2 & Hm2 & Hf2).
  rewrite Hq1, Hq2 in *.
  apply SFmul_mono; try assumption; try reflexivity; lia.
Qed.

End Binary64.

(** * Differences of distances and rounding errors *)

Module Differences.
Import Binary64.

(** The difference of two cumulative distances, the larger first: zero
    or a normal number. *)
Definition difference (x : spec_float) : Prop :=
  x = S754_zero false \/ normal false (-51) 123 x.

(** The exact difference of two positive normal numbers, in units of
    [2^-104]. *)
Definition gap (mp : positive) (ep : Z) (ma : positive) (ea : Z) : Z :=
  Z.pos mp * 2 ^ (ep + 104) - Z.pos ma * 2 ^ (ea + 104).

Lemma SFleb_zero_l x : nonneg x = true -> SFleb (S754_zero false) x = true.
Proof. intros H. nonneg_cases x; reflexivity. Qed.

Lemma SFeqb_refl_finite s m e : SFeqb (S754_finite s m e) (S754_finite s m e) = true.
Proof.
  unfold SFeqb, SFcompare. rewrite Z.compare_refl.
  destruct s; now rewrite Pos.compare_cont_refl.
Qed.

(** The subtraction of a smaller positive normal number from a larger
    one: zero when they are equal, else the rounding of the exact
    difference. *)
Lemma SFsub_finite mp ep ma ea :
  Z.log2 (Z.pos mp) = 52 -> Z.log2 (Z.pos ma) = 52 ->
  1 <= 53 + ep <= 122 -> 1 <= 53 + ea <= 122 ->
  SFleb (S754_finite false ma ea) (S754_finite false mp ep) = true ->
  0 <= gap mp ep ma ea /\
  (gap mp ep ma ea = 0 ->
   SFsub prec emax (S754_finite false mp ep) (S754_finite false ma ea)
   = S754_zero false) /\
  (0 < gap mp ep ma ea ->
   exists mz ez,
     SFsub prec emax (S754_finite false mp ep) (S754_finite false ma ea)
     = fl (Z.pos mz) 1 ez /\
     roundable (Z.pos mz) 1 ez /\ -104 <= ez /\
     -51 <= Z.log2 (Z.pos mz) + 1 + ez /\ Z.log2 (Z.pos mz) + 2 + ez <= 53 + ep + 1 /\
     Z.pos mz * 2 ^ (ez + 104) = gap mp ep ma ea).
Proof.
  intros Hp Ha Hep Hea Hle.
  pose proof (log2_52_bounds (Z.pos mp) ltac:(lia) Hp) as Hbp.
  pose proof (log2_52_bounds (Z.pos ma) ltac:(lia) Ha) as Hba.
  unfold SFsub, cond_Zopp.
  set (ez := Z.min ep ea).
  destruct (shl_align_spec mp ep ez) as [Hx _].
  destruct (shl_align_spec ma ea ez) as [Hy _].
  set (x := fst (shl_align mp ep ez)) in *.
  set (y := fst (shl_align ma ea ez)) in *.
  rewrite Z.min_r in Hx, Hy by (subst ez; lia).
  pose proof (normal_value_le ma ea mp ep ez Ha Hp
                ltac:(subst ez; lia) ltac:(subst ez; lia) Hle) as Hv.
  rewrite <- Hx, <- Hy in Hv.
  assert (HP : 0 < 2 ^ (ez + 104)) by (apply Z.pow_pos_nonneg; subst ez; lia).
  assert (Hgap : gap mp ep ma ea = (Z.pos x - Z.pos y) * 2 ^ (ez + 104)).
  { unfold gap. rewrite Hx, Hy, Z.mul_sub_distr_r, <- !Z.mul_assoc, <- !Z.pow_add_r
      by (subst ez; lia).
    do 3 f_equal; lia. }
  rewrite Hgap. clear Hgap.
  assert (Hlx : Z.log2 (Z.pos x) = 52 + (ep - ez))
    by (rewrite Hx, Z.log2_mul_pow2 by (subst ez; lia); lia).
  set (D := Z.pos x - Z.pos y) in *.
  assert (HD : 0 <= D) by (subst D; lia).
  split; [apply Z.mul_nonneg_nonneg; lia | split].
  - intros H0. assert (D = 0) as -> by nia. reflexivity.
  - intros Hpos. assert (HDpos : 0 < D) by nia.
    destruct D as [|d|d] eqn:ED; try lia. cbn [binary_normalize].
    assert (Hld : 0 <= Z.log2 (Z.pos d) <= 52 + (ep - ez)).
    { split; [apply Z.log2_nonneg |]. rewrite <- Hlx. apply Z.log2_le_mono. lia. }
    destruct (binary_round_fl d ez) as (mz & ez' & -> & Hr & Hez' & Hmz);
      [subst ez; lia |].
    exists mz, ez'.
    assert (Hlog : Z.log2 (Z.pos mz) + ez' = Z.log2 (Z.pos d) + ez).
    { rewrite Hmz, Z.log2_mul_pow2 by lia. lia. }
    split; [reflexivity | split; [exact Hr |]].
    split; [subst ez; lia |]. split; [subst ez; lia |]. split; [lia |].
    rewrite Hmz, <- Z.mul_assoc, <- Z.pow_add_r by (subst ez; lia).
    do 2 f_equal. lia.
Qed.

Lemma SFsub_zero_r x :
  x = S754_zero false \/ (exists m e, x = S754_finite false m e) ->
  SFsub prec emax x (S754_zero false) = x.
Proof. intros [-> | (m & e & ->)]; reflexivity. Qed.


Lemma SFsub_cumulative A P :
  cumulative A -> cumulative P -> SFleb A P = true ->
  difference (SFsub prec emax P A).
Proof.
  intros [-> | (ma & ea & -> & Hma & Hea)] [-> | (mp & ep & -> & Hmp & Hep)] Hle;
    try discriminate.
  - left; reflexivity.
  - right. exists mp, ep. split; [reflexivity | split; [exact Hmp | lia]].
  - destruct (SFsub_finite mp ep ma ea Hmp Hma Hep Hea Hle) as (H0 & Hz & Hpos).
    destruct (Z.eq_dec (gap mp ep ma ea) 0) as [E | E]; [left; now apply Hz |].
    destruct (Hpos ltac:(lia)) as (mz & ez & -> & Hr & _ & Hlo & Hhi & _).
    right. eapply normal_weaken; [apply fl_normal, Hr | |]; rewrite Z.div_1_r; lia.
Qed.

Lemma difference_nonneg x : difference x -> nonneg x = true.
Proof. intros [-> | H]; [reflexivity | eapply normal_nonneg, H]. Qed.

(** Subtracting the same distance keeps the order. *)
Lemma SFsub_mono A P B :
  cumulative A -> cumulative P -> cumulative B ->
  SFleb A P = true -> SFleb P B = true ->
  SFleb (SFsub prec emax P A) (SFsub prec emax B A) = true.
Proof.
  intros HA HP HB HAP HPB.
  assert (HAB : SFleb A B = true)
    by (eapply SFleb_trans; try eassumption; now apply cumulative_nonneg).
  pose proof (SFsub_cumulative A B HA HB HAB) as HdB.
  destruct HA as [-> | (ma & ea & -> & Hma & Hea)].
  - rewrite !SFsub_zero_r; [exact HPB | |].
    + destruct HB as [-> | (m & e & -> & _)]; [now left | right; now exists m, e].
    + destruct HP as [-> | (m & e & -> & _)]; [now left | right; now exists m, e].
  - destruct HP as [-> | (mp & ep & -> & Hmp & Hep)]; [discriminate |].
    destruct HB as [-> | (mb & eb & -> & Hmb & Heb)]; [discriminate |].
    destruct (SFsub_finite mp ep ma ea Hmp Hma Hep Hea HAP) as (HP0 & HPz & HPpos).
    destruct (SFsub_finite mb eb ma ea Hmb Hma Heb Hea HAB) as (HB0 & HBz & HBpos).
    pose proof (normal_value_le mp ep mb eb (-104) Hmp Hmb
                  ltac:(lia) ltac:(lia) HPB) as Hv.
    replace (ep - -104) with (ep + 104) in Hv by lia.
    replace (eb - -104) with (eb + 104) in Hv by lia.
    assert (Hgaps : gap mp ep ma ea <= gap mb eb ma ea) by (unfold gap; lia).
    destruct (Z.eq_dec (gap mp ep ma ea) 0) as [E | E].
    + rewrite (HPz E). apply SFleb_zero_l, difference_nonneg, HdB.
    + destruct (HPpos ltac:(lia)) as (m1 & e1 & -> & Hr1 & He1 & _ & _ & Hg1).
      destruct (HBpos ltac:(lia)) as (m2 & e2 & -> & Hr2 & He2 & _ & _ & Hg2).
      apply (fl_mono _ _ _ _ _ _ (-104) Hr1 Hr2 He1 He2).
      rewrite !Z.mul_1_r.
      replace (e1 - -104) with (e1 + 104) by lia.
      replace (e2 - -104) with (e2 + 104) by lia.
      rewrite Hg1, Hg2. exact Hgaps.
Qed.

(** A distance subtracted from itself is zero. *)
Lemma SFsub_diag A : cumulative A -> SFsub prec emax A A = S754_zero false.
Proof.
  intros [-> | (ma & ea & -> & Hma & Hea)]; [reflexivity |].
  destruct (SFsub_finite ma ea ma ea Hma Hma Hea Hea) as (_ & Hz & _).
  - apply SFleb_finite. lia.
  - apply Hz. unfold gap. lia.
Qed.

(** The difference of two distinct distances is not zero. *)
Lemma SFsub_pos A B :
  cumulative A -> cumulative B -> SFleb A B = true -> SFeqb B A = false ->
  normal false (-51) 123 (SFsub prec emax B A).
Proof.
  intros HA HB Hle Hne.
  destruct HA as [-> | (ma & ea & -> & Hma & Hea)];
    destruct HB as [-> | (mb & eb & -> & Hmb & Heb)]; try discriminate.
  - exists mb, eb. split; [reflexivity | split; [exact Hmb | lia]].
  - destruct (SFsub_finite mb eb ma ea Hmb Hma Heb Hea Hle) as (H0 & _ & Hpos).
    pose proof (log2_52_bounds (Z.pos mb) ltac:(lia) Hmb) as Hbb.
    pose proof (log2_52_bounds (Z.pos ma) ltac:(lia) Hma) as Hba.
    assert (Hgap : 0 < gap mb eb ma ea).
    { unfold gap.
      destruct (SFleb_finite_inv _ _ _ _ Hle) as [Hlt | [<- Hm]].
      - assert (HP : 0 < 2 ^ (ea + 104)) by (apply Z.pow_pos_nonneg; lia).
        replace (eb + 104) with (eb - ea + (ea + 104)) by lia.
        rewrite Z.pow_add_r by lia.
        assert (Hp : 2 ^ 1 <= 2 ^ (eb - ea)) by (apply Z.pow_le_mono_r; lia).
        rewrite Z.pow_1_r in Hp.
        assert (Z.pos ma < Z.pos mb * 2 ^ (eb - ea)) by nia.
        rewrite Z.mul_assoc. nia.
      - assert (HP : 0 < 2 ^ (ea + 104)) by (apply Z.pow_pos_nonneg; lia).
        assert (Z.pos ma <> Z.pos mb).
        { intros E. injection E as ->. rewrite SFeqb_refl_finite in Hne. discriminate Hne. }
        nia. }
    destruct (Hpos Hgap) as (mz & ez & -> & Hr & _ & Hlo & Hhi & _).
    eapply normal_weaken; [apply fl_normal, Hr | |]; rewrite Z.div_1_r; lia.
Qed.

(** Two distances that compare equal have a zero difference. *)
Lemma SFsub_eq A B :
  cumulative A -> cumulative B -> SFeqb B A = true ->
  SFsub prec emax B A = S754_zero false.
Proof.
  intros HA HB Heq.
  destruct HA as [-> | (ma & ea & -> & Hma & Hea)];
    destruct HB as [-> | (mb & eb & -> & Hmb & Heb)]; try discriminate.
  - reflexivity.
  - assert (E : eb = ea /\ mb = ma).
    { unfold SFeqb, SFcompare in Heq.
      destruct (Z.compare_spec eb ea); try discriminate.
      split; [assumption |].
      change (Pos.compare_cont Eq mb ma) with (Pos.compare mb ma) in Heq.
      destruct (Pos.compare_spec mb ma); try discriminate. assumption. }
    destruct E as [-> ->]. apply SFsub_diag. right.
    exists ma, ea. split; [reflexivity | split; [exact Hma | lia]].
Qed.


(** *** Rounding errors *)

(** The value of a float in units of [2^-1074], of which every finite
    binary64 number is a multiple. *)
Definition units (x : spec_float) : Z :=
  match x with
  | S754_finite s m e => (if s then Z.neg m else Z.pos m) * 2 ^ (e + 1074)
  | _ => 0
  end.

Lemma units_renormalize R E :
  2 ^ 52 <= R <= 2 ^ 53 ->
  units (renormalize false R E) = R * 2 ^ (E + 1074) \/ E + 1074 < 0.
Proof.
  intros HR. destruct (Z.lt_ge_cases (E + 1074) 0) as [Hneg | Hpos]; [now right | left].
  unfold renormalize. destruct (Z.eqb_spec R (2 ^ 53)) as [-> | Hne]; cbn [units].
  - replace (E + 1 + 1074) with (1 + (E + 1074)) by lia.
    rewrite Z.pow_add_r by lia. change (2 ^ 53) with (4503599627370496 * 2 ^ 1). ring.
  - rewrite Z2Pos.id by lia. reflexivity.
Qed.

(** Rounding to nearest moves a number by at most [2^-52] of itself. *)
Lemma fl_error N D e :
  roundable N D e -> -1074 <= e ->
  2 ^ 52 * Z.abs (units (fl N D e) * D - N * 2 ^ (e + 1074)) <= N * 2 ^ (e + 1074).
Proof.
  intros Hr He. pose proof (roundable_pos N D e Hr) as Hq.
  destruct Hr as (HD & HN & Hd & HM).
  unfold fl. rewrite binary_round_aux_rnd by assumption.
  set (k := Z.log2 (N / D) - 52) in *.
  assert (HP : 0 < 2 ^ k) by (apply Z.pow_pos_nonneg; lia).
  assert (HDK : 0 < D * 2 ^ k) by (apply Z.mul_pos_pos; assumption).
  assert (Ha : 2 ^ 52 <= N / (D * 2 ^ k) < 2 ^ 53).
  { rewrite <- Z.div_div by lia.
    apply log2_52_bounds; [apply div_pow2_pos; lia |].
    rewrite log2_div_pow2 by lia. lia. }
  pose proof (rnd_bounds N (D * 2 ^ k)) as Hb.
  destruct (rnd_spec N (D * 2 ^ k) HDK) as (Hs & _).
  set (R := rnd N (D * 2 ^ k)) in *.
  destruct (units_renormalize R (e + k) ltac:(lia)) as [-> | Hbad]; [| lia].
  replace (e + k + 1074) with (k + (e + 1074)) by lia.
  rewrite Z.pow_add_r by lia.
  set (Q := 2 ^ (e + 1074)). assert (HQ : 0 < Q) by (apply Z.pow_pos_nonneg; lia).
  set (DK := D * 2 ^ k) in *.
  replace (R * (2 ^ k * Q) * D - N * Q) with ((R * DK - N) * Q) by (subst DK; ring).
  rewrite Z.abs_mul, (Z.abs_eq Q) by lia.
  rewrite Z.mul_assoc. apply Z.mul_le_mono_nonneg_r; [lia |].
  clearbody R DK Q. clear - Hs Hb Ha HDK HN.
  assert (H1 : 2 ^ 52 * DK <= 2 * N) by nia.
  assert (H2 : 2 * Z.abs (R * DK - N) <= DK) by lia.
  nia.
Qed.


Lemma mul_le_compat a b c d : 0 <= a -> 0 <= c -> a <= b -> c <= d -> a * c <= b * d.
Proof. intros. apply Z.mul_le_mono_nonneg; assumption. Qed.

Lemma abs_bound t d b : 0 <= t -> t * Z.abs d <= b -> - b <= t * d <= b.
Proof. intros Ht H. destruct (Z.abs_spec d) as [[? E] | [? E]]; rewrite E in H; nia. Qed.

(** Two fractions less than one apart have integer parts at most one apart. *)
Lemma floor_close W U N D :
  0 < U -> 0 < D -> Z.abs (W * D - N * U) < U * D -> Z.abs (W / U - N / D) <= 1.
Proof.
  intros HU HD H.
  pose proof (Z.div_mod W U ltac:(lia)) as Hw. pose proof (Z.mod_pos_bound W U HU) as Hwr.
  pose proof (Z.div_mod N D ltac:(lia)) as Hn. pose proof (Z.mod_pos_bound N D HD) as Hnr.
  set (a := W / U) in *. set (b := N / D) in *.
  set (r := W mod U) in *. set (s := N mod D) in *. clearbody a b r s.
  assert (E : W * D - N * U = (a - b) * (U * D) + (r * D - s * U)) by (subst W N; ring).
  assert (Hrd : 0 <= r * D < U * D) by nia.
  assert (Hsu : 0 <= s * U < U * D) by nia.
  set (UD := U * D) in *. set (rd := r * D) in *. set (su := s * U) in *.
  clearbody UD rd su. rewrite E in H. clear E Hw Hn.
  destruct (Z.le_gt_cases (a - b) 1) as [H1 | H1];
    destruct (Z.le_gt_cases (-1) (a - b)) as [H2 | H2]; try lia; exfalso; nia.
Qed.

(** The floor of [W / U] is at most one away from the floor of
    [144 * Gp / Gb] when [W / U] comes from the latter by four roundings
    of relative error at most [1 / t]: of [Gp] to [X], of [Gb] to [Y], of
    [X / Y] to [Q / U] and of [144 * Q] to [W]. *)
Lemma four_roundings t U Gp Gb X Y Q W :
  1000 <= t -> 0 < U -> 0 < Gp <= Gb ->
  t * Z.abs (X - Gp) <= Gp -> t * Z.abs (Y - Gb) <= Gb ->
  t * Z.abs (Q * Y - X * U) <= X * U ->
  t * Z.abs (W - 144 * Q) <= 144 * Q ->
  Z.abs (W / U - 144 * Gp / Gb) <= 1.
Proof.
  intros Ht HU HG HX HY HQ HW.
  apply abs_bound in HX; [| lia]. apply abs_bound in HY; [| lia].
  apply abs_bound in HQ; [| lia]. apply abs_bound in HW; [| lia].
  assert (HX0 : 0 < X) by nia.
  assert (HY0 : 0 < Y) by nia.
  assert (HXU : 0 < X * U) by (apply Z.mul_pos_pos; lia).
  assert (HQY : 0 < Q * Y) by nia.
  assert (HQ0 : 0 < Q) by (apply (proj1 (Z.mul_pos_cancel_r Q Y HY0)); exact HQY).
  assert (HW0 : 0 < W) by nia.
  assert (HUGp : 0 < U * Gp) by (apply Z.mul_pos_pos; lia).
  assert (HUG : U * Gp <= U * Gb) by (apply Z.mul_le_mono_nonneg_l; lia).
  assert (HWG : 0 < W * Gb) by (apply Z.mul_pos_pos; lia).
  assert (u1 : t * W <= 144 * (t + 1) * Q) by lia.
  assert (u2 : t * (Q * Y) <= (t + 1) * (X * U)) by lia.
  assert (u3 : t * X <= (t + 1) * Gp) by lia.
  assert (u4 : (t - 1) * Gb <= t * Y) by lia.
  assert (l1 : 144 * (t - 1) * Q <= t * W) by lia.
  assert (l2 : (t - 1) * (X * U) <= t * (Q * Y)) by lia.
  assert (l3 : (t - 1) * Gp <= t * X) by lia.
  assert (l4 : t * Y <= (t + 1) * Gb) by lia.
  assert (u3' : t * (X * U) <= (t + 1) * (U * Gp)).
  { replace (t * (X * U)) with (t * X * U) by ring.
    replace ((t + 1) * (U * Gp)) with ((t + 1) * Gp * U) by ring.
    apply Z.mul_le_mono_nonneg_r; lia. }
  assert (l3' : (t - 1) * (U * Gp) <= t * (X * U)).
  { replace (t * (X * U)) with (t * X * U) by ring.
    replace ((t - 1) * (U * Gp)) with ((t - 1) * Gp * U) by ring.
    apply Z.mul_le_mono_nonneg_r; lia. }
  assert (U1 : (t - 1) * (W * Gb) <= 144 * (t + 1) * (Q * Y)).
  { assert (H : (t * W) * ((t - 1) * Gb) <= (144 * (t + 1) * Q) * (t * Y)).
    { apply mul_le_compat; try assumption; apply Z.mul_nonneg_nonneg; lia. }
    apply (Z.mul_le_mono_pos_l _ _ t); [lia |].
    replace (t * ((t - 1) * (W * Gb))) with (t * W * ((t - 1) * Gb)) by ring.
    replace (t * (144 * (t + 1) * (Q * Y))) with (144 * (t + 1) * Q * (t * Y)) by ring.
    exact H. }
  assert (L1 : 144 * (t - 1) * (Q * Y) <= (t + 1) * (W * Gb)).
  { assert (H : (144 * (t - 1) * Q) * (t * Y) <= (t * W) * ((t + 1) * Gb)).
    { apply mul_le_compat; try assumption; apply Z.mul_nonneg_nonneg; lia. }
    apply (Z.mul_le_mono_pos_l _ _ t); [lia |].
    replace (t * ((t + 1) * (W * Gb))) with (t * W * ((t + 1) * Gb)) by ring.
    replace (t * (144 * (t - 1) * (Q * Y))) with (144 * (t - 1) * Q * (t * Y)) by ring.
    exact H. }
  apply floor_close; try lia.
  replace (144 * Gp * U) with (144 * (U * Gp)) by ring.
  set (QY := Q * Y) in *. set (XU := X * U) in *.
  set (WG := W * Gb) in *. set (UGp := U * Gp) in *. set (UGb := U * Gb) in *.
  clearbody QY XU WG UGp UGb.
  clear - Ht HUGp HUG HWG u2 l2 u3' l3' U1 L1.
  assert (U2 : t * ((t - 1) * WG) <= 144 * (t + 1) * ((t + 1) * XU)).
  { apply Z.le_trans with (t * (144 * (t + 1) * QY)).
    - apply Z.mul_le_mono_nonneg_l; lia.
    - replace (t * (144 * (t + 1) * QY)) with (144 * (t + 1) * (t * QY)) by ring.
      apply Z.mul_le_mono_nonneg_l; lia. }
  assert (U3 : t * (t * ((t - 1) * WG)) <= 144 * (t + 1) * ((t + 1) * ((t + 1) * UGp))).
  { apply Z.le_trans with (t * (144 * (t + 1) * ((t + 1) * XU))).
    - apply Z.mul_le_mono_nonneg_l; lia.
    - replace (t * (144 * (t + 1) * ((t + 1) * XU)))
        with (144 * (t + 1) * ((t + 1) * (t * XU))) by ring.
      apply Z.mul_le_mono_nonneg_l; [lia |].
      apply Z.mul_le_mono_nonneg_l; lia. }
  assert (L2 : 144 * (t - 1) * ((t - 1) * XU) <= t * ((t + 1) * WG)).
  { apply Z.le_trans with (t * (144 * (t - 1) * QY)).
    - replace (t * (144 * (t - 1) * QY)) with (144 * (t - 1) * (t * QY)) by ring.
      apply Z.mul_le_mono_nonneg_l; lia.
    - apply Z.mul_le_mono_nonneg_l; lia. }
  assert (L3 : 144 * (t - 1) * ((t - 1) * ((t - 1) * UGp)) <= t * (t * ((t + 1) * WG))).
  { apply Z.le_trans with (t * (144 * (t - 1) * ((t - 1) * XU))).
    - replace (t * (144 * (t - 1) * ((t - 1) * XU)))
        with (144 * (t - 1) * ((t - 1) * (t * XU))) by ring.
      apply Z.mul_le_mono_nonneg_l; [lia |].
      apply Z.mul_le_mono_nonneg_l; lia.
    - apply Z.mul_le_mono_nonneg_l; lia. }
  clear u2 l2 u3' l3' U1 L1 U2 L2.
  assert (Htt : 1000 * t <= t * t) by (apply Z.mul_le_mono_nonneg_r; lia).
  set (tt := t * t) in *.
  assert (HK : 999 * tt <= tt * (t - 1))
    by (rewrite (Z.mul_comm 999); apply Z.mul_le_mono_nonneg_l; lia).
  assert (HK' : 999 * tt <= tt * (t + 1))
    by (rewrite (Z.mul_comm 999); apply Z.mul_le_mono_nonneg_l; lia).
  set (K := tt * (t - 1)) in *. set (K' := tt * (t + 1)) in *.
  assert (EU : t * (t * ((t - 1) * WG)) = K * WG) by (subst K tt; ring).
  assert (EL : t * (t * ((t + 1) * WG)) = K' * WG) by (subst K' tt; ring).
  assert (EK : 144 * (t + 1) * ((t + 1) * ((t + 1) * UGp))
               = 144 * K * UGp + 144 * (4 * tt + 3 * t + 1) * UGp)
    by (subst K tt; ring).
  assert (EK' : 144 * (t - 1) * ((t - 1) * ((t - 1) * UGp))
                = 144 * K' * UGp - 144 * (4 * tt - 3 * t + 1) * UGp)
    by (subst K' tt; ring).
  rewrite EU, EK in U3. rewrite EL, EK' in L3. clear EU EL EK EK'.
  set (c := 144 * (4 * tt + 3 * t + 1)) in *.
  set (c' := 144 * (4 * tt - 3 * t + 1)) in *.
  assert (Hc : 0 <= c < K) by (subst c; lia).
  assert (Hc' : 0 <= c' < K') by (subst c'; lia).
  clearbody c c' K K' tt.
  assert (Hcu : c * UGp < K * UGb).
  { apply Z.le_lt_trans with (c * UGb).
    - apply Z.mul_le_mono_nonneg_l; lia.
    - apply Z.mul_lt_mono_pos_r; lia. }
  assert (Hcu' : c' * UGp < K' * UGb).
  { apply Z.le_lt_trans with (c' * UGb).
    - apply Z.mul_le_mono_nonneg_l; lia.
    - apply Z.mul_lt_mono_pos_r; lia. }
  apply Z.abs_lt. split.
  - apply (Z.mul_lt_mono_pos_l K'); [lia |]. lia.
  - apply (Z.mul_lt_mono_pos_l K); [lia |]. lia.
Qed.

Lemma units_finite m e : units (S754_finite false m e) = Z.pos m * 2 ^ (e + 1074).
Proof. reflexivity. Qed.

Lemma units_pos m e : -1074 <= e -> 0 < units (S754_finite false m e).
Proof.
  intros He. rewrite units_finite.
  apply Z.mul_pos_pos; [lia | apply Z.pow_pos_nonneg; lia].
Qed.

(** The difference of two cumulative distances, the larger first, is
    their exact difference rounded. *)
Lemma SFsub_error A P :
  cumulative A -> cumulative P -> SFleb A P = true ->
  0 <= units P - units A /\
  (units P - units A = 0 -> SFsub prec emax P A = S754_zero false) /\
  (0 < units P - units A ->
   normal false (-51) 123 (SFsub prec emax P A) /\
   2 ^ 52 * Z.abs (units (SFsub prec emax P A) - (units P - units A))
   <= units P - units A).
Proof.
  intros [-> | (ma & ea & -> & Hma & Hea)] [-> | (mp & ep & -> & Hmp & Hep)] Hle;
    try discriminate.
  - cbn [units]. split; [lia | split; [intros _; reflexivity | intros H; lia]].
  - pose proof (units_pos mp ep ltac:(lia)) as Hpos.
    change (units (S754_zero false)) with 0. rewrite Z.sub_0_r.
    split; [lia |]. split; [lia |]. intros _.
    change (SFsub prec emax (S754_finite false mp ep) (S754_zero false))
      with (S754_finite false mp ep).
    split.
    + exists mp, ep. split; [reflexivity | split; [exact Hmp | lia]].
    + rewrite Z.sub_diag. change (Z.abs 0) with 0. rewrite Z.mul_0_r. lia.
  - destruct (SFsub_finite mp ep ma ea Hmp Hma Hep Hea Hle) as (H0 & Hz & Hpos).
    assert (HG : units (S754_finite false mp ep) - units (S754_finite false ma ea)
                 = gap mp ep ma ea * 2 ^ 970).
    { rewrite !units_finite. unfold gap.
      replace (ep + 1074) with (ep + 104 + 970) by lia.
      replace (ea + 1074) with (ea + 104 + 970) by lia.
      rewrite (Z.pow_add_r 2 (ep + 104) 970), (Z.pow_add_r 2 (ea + 104) 970) by lia.
      ring. }
    rewrite HG.
    assert (HP : 0 < 2 ^ 970) by (apply Z.pow_pos_nonneg; lia).
    set (T := 2 ^ 970) in *.
    assert (HT : T = 2 ^ 970) by reflexivity. clearbody T.
    split; [apply Z.mul_nonneg_nonneg; lia |]. split.
    + intros E. apply Hz. apply Z.mul_eq_0_l in E; lia.
    + intros HGpos.
      assert (Hgap : 0 < gap mp ep ma ea).
      { destruct (Z.lt_ge_cases 0 (gap mp ep ma ea)) as [H | H]; [exact H |].
        assert (gap mp ep ma ea = 0) as E by lia. rewrite E in HGpos. lia. }
      destruct (Hpos Hgap) as (mz & ez & Hx & Hr & Hez & Hlo & Hhi & Hg).
      rewrite Hx. split.
      * eapply normal_weaken; [apply fl_normal, Hr | |]; rewrite Z.div_1_r; lia.
      * pose proof (fl_error (Z.pos mz) 1 ez Hr ltac:(lia)) as He.
        rewrite Z.mul_1_r in He.
        assert (E : Z.pos mz * 2 ^ (ez + 1074) = gap mp ep ma ea * T).
        { rewrite <- Hg, HT.
          replace (ez + 1074) with (ez + 104 + 970) by lia.
          rewrite (Z.pow_add_r 2 (ez + 104) 970) by lia. ring. }
        rewrite E in He. exact He.
Qed.

(** The quotient of two positive normal numbers is their exact quotient
    rounded. *)
Lemma SFdiv_error mx ex my ey :
  Z.log2 (Z.pos mx) = 52 -> Z.log2 (Z.pos my) = 52 ->
  -1021 <= ex - ey <= 1021 -> -1074 <= ex -> -1074 <= ey ->
  let q := SFdiv prec emax (S754_finite false mx ex) (S754_finite false my ey) in
  2 ^ 52 * Z.abs (units q * units (S754_finite false my ey)
                  - units (S754_finite false mx ex) * 2 ^ 1074)
  <= units (S754_finite false mx ex) * 2 ^ 1074.
Proof.
  intros Hx Hy He Hex Hey q. subst q.
  rewrite SFdiv_fl by (assumption || lia).
  destruct (SFdiv_roundable mx ex my ey Hx Hy He) as [Hr _].
  pose proof (fl_error _ _ _ Hr ltac:(lia)) as H.
  set (V := units (fl (Z.pos mx * 2 ^ 53) (Z.pos my) (ex - ey - 53))) in *.
  rewrite !units_finite.
  assert (HP : 0 < 2 ^ (ey + 1074)) by (apply Z.pow_pos_nonneg; lia).
  assert (E : Z.pos mx * 2 ^ 53 * 2 ^ (ex - ey - 53 + 1074) * 2 ^ (ey + 1074)
              = Z.pos mx * 2 ^ (ex + 1074) * 2 ^ 1074).
  { rewrite <- !Z.mul_assoc, <- !Z.pow_add_r by lia. do 2 f_equal. lia. }
  set (T := 2 ^ (ey + 1074)) in *.
  set (N := Z.pos mx * 2 ^ 53 * 2 ^ (ex - ey - 53 + 1074)) in *.
  rewrite <- E.
  replace (V * (Z.pos my * T) - N * T) with ((V * Z.pos my - N) * T) by ring.
  rewrite Z.abs_mul, (Z.abs_eq T), Z.mul_assoc by lia.
  apply Z.mul_le_mono_nonneg_r; [lia | exact H].
Qed.

(** The product of a positive normal number by 144 is the exact product
    rounded. *)
Lemma SFmul_error mq eq :
  Z.log2 (Z.pos mq) = 52 -> -1029 <= eq -> eq <= 962 ->
  let w := SFmul prec emax (S754_finite false mq eq) SF144 in
  2 ^ 52 * Z.abs (units w - 144 * units (S754_finite false mq eq))
  <= 144 * units (S754_finite false mq eq).
Proof.
  intros Hq Hlo Hhi w. subst w. unfold SF144. rewrite SFmul_fl.
  assert (Hk : Z.log2 5066549580791808 = 52) by reflexivity.
  pose proof (SFmul_roundable mq eq 5066549580791808 (-45) Hq Hk
                ltac:(lia) ltac:(lia)) as Hr.
  pose proof (fl_error _ _ _ Hr ltac:(lia)) as H.
  rewrite Z.mul_1_r in H. rewrite units_finite.
  assert (E : Z.pos mq * 5066549580791808 * 2 ^ (eq + -45 + 1074)
              = 144 * (Z.pos mq * 2 ^ (eq + 1074))).
  { replace (eq + 1074) with (45 + (eq + -45 + 1074)) by lia.
    rewrite (Z.pow_add_r 2 45) by lia.
    change 5066549580791808 with (144 * 2 ^ 45). ring. }
  rewrite E in H. exact H.
Qed.

(** The quotient of a difference by a larger difference. *)
Lemma SFdiv_differences mx ex my ey :
  Z.log2 (Z.pos mx) = 52 -> Z.log2 (Z.pos my) = 52 ->
  -51 <= 53 + ex -> 53 + ey <= 123 -> ex <= ey ->
  normal false (-174) 2
         (SFdiv prec emax (S754_finite false mx ex) (S754_finite false my ey)).
Proof.
  intros Hx Hy Hlo Hhi Hle. rewrite SFdiv_fl by (assumption || lia).
  destruct (SFdiv_roundable mx ex my ey Hx Hy ltac:(lia)) as [Hr Hl].
  eapply normal_weaken; [apply fl_normal, Hr | |]; lia.
Qed.

(** The position of a difference within a larger difference is a normal
    number below [2^11]. *)
Lemma scaled_differences mx ex my ey :
  Z.log2 (Z.pos mx) = 52 -> Z.log2 (Z.pos my) = 52 ->
  -51 <= 53 + ex -> 53 + ey <= 123 -> ex <= ey ->
  exists m e,
    scaled (S754_finite false mx ex) (S754_finite false my ey)
    = S754_finite false m e /\ Z.log2 (Z.pos m) = 52 /\ -1074 <= e <= 9.
Proof.
  intros Hx Hy Hlo Hhi Hle. unfold scaled, SF144.
  destruct (SFdiv_differences mx ex my ey Hx Hy Hlo Hhi Hle)
    as (mq & eq & -> & Hmq & Heq).
  rewrite SFmul_fl.
  assert (Hk : Z.log2 5066549580791808 = 52) by reflexivity.
  pose proof (SFmul_roundable mq eq 5066549580791808 (-45) Hmq Hk
                ltac:(lia) ltac:(lia)) as Hr.
  pose proof (Z.log2_mul_below (Z.pos mq) 5066549580791808 ltac:(lia) ltac:(lia)).
  pose proof (Z.log2_mul_above (Z.pos mq) 5066549580791808 ltac:(lia) ltac:(lia)).
  destruct (fl_normal _ _ _ Hr) as (m & e & Hfl & Hm & Hme).
  rewrite Z.div_1_r in Hme.
  exists m, e. split; [exact Hfl | split; [exact Hm | lia]].
Qed.

(** The position is monotone in the difference covered. *)
Lemma scaled_differences_mono m1 e1 m2 e2 my ey :
  Z.log2 (Z.pos m1) = 52 -> Z.log2 (Z.pos m2) = 52 -> Z.log2 (Z.pos my) = 52 ->
  -51 <= 53 + e1 -> -51 <= 53 + e2 -> 53 + ey <= 123 -> e1 <= ey -> e2 <= ey ->
  SFleb (S754_finite false m1 e1) (S754_finite false m2 e2) = true ->
  SFleb (scaled (S754_finite false m1 e1) (S754_finite false my ey))
        (scaled (S754_finite false m2 e2) (S754_finite false my ey)) = true.
Proof.
  intros H1 H2 Hy Hl1 Hl2 Hhi He1 He2 Hle. unfold scaled, SF144.
  pose proof (SFdiv_mono m1 e1 m2 e2 my ey H1 H2 Hy ltac:(lia) ltac:(lia) Hle) as Hd.
  destruct (SFdiv_differences m1 e1 my ey H1 Hy Hl1 Hhi He1) as (q1 & f1 & Hq1 & Hm1 & Hf1).
  destruct (SFdiv_differences m2 e2 my ey H2 Hy Hl2 Hhi He2) as (q2 & f2 & Hq2 & Hm2 & Hf2).
  rewrite Hq1, Hq2 in *.
  apply SFmul_mono; try assumption; try reflexivity; lia.
Qed.

(** The order of the cumulative distances is that of their values. *)
Lemma units_mono P B :
  cumulative P -> cumulative B -> SFleb P B = true -> units P <= units B.
Proof.
  intros [-> | (mp & ep & -> & Hmp & Hep)] [-> | (mb & eb & -> & Hmb & Heb)] HPB.
  - reflexivity.
  - pose proof (units_pos mb eb ltac:(lia)).
    change (units (S754_zero false)) with 0. lia.
  - discriminate.
  - rewrite !units_finite.
    pose proof (normal_value_le mp ep mb eb (-1074) Hmp Hmb
                  ltac:(lia) ltac:(lia) HPB) as Hv.
    replace (ep - -1074) with (ep + 1074) in Hv by lia.
    replace (eb - -1074) with (eb + 1074) in Hv by lia. exact Hv.
Qed.

(** The integer part of the position of a difference [Gp] within a larger
    difference [Gb], computed in binary64 from the rounded differences, is
    at most one away from the integer part of [144 * Gp / Gb]. *)
Lemma scaled_error A B P :
  cumulative A -> cumulative P -> cumulative B ->
  SFleb A P = true -> SFleb P B = true ->
  0 < units P - units A ->
  exists m e,
    scaled (SFsub prec emax P A) (SFsub prec emax B A) = S754_finite false m e /\
    Z.log2 (Z.pos m) = 52 /\ -1074 <= e <= 9 /\
    Z.abs (floorZ (S754_finite false m e)
           - 144 * (units P - units A) / (units B - units A)) <= 1.
Proof.
  intros HA HP HB HAP HPB HGp.
  assert (HAB : SFleb A B = true)
    by (eapply SFleb_trans; try eassumption; now apply cumulative_nonneg).
  pose proof (SFsub_mono A P B HA HP HB HAP HPB) as Hmono.
  destruct (SFsub_error A P HA HP HAP) as (_ & _ & HxE).
  destruct (HxE HGp) as ((mx & ex & Hx & Hmx & Hex) & Herrx). clear HxE.
  destruct (SFsub_error A B HA HB HAB) as (HGb0 & HyZ & HyE).
  assert (HGb : 0 < units B - units A).
  { destruct (Z.lt_ge_cases 0 (units B - units A)) as [H | H]; [exact H |].
    rewrite HyZ in Hmono by lia. rewrite Hx in Hmono. discriminate. }
  destruct (HyE HGb) as ((my & ey & Hy & Hmy & Hey) & Herry). clear HyE HyZ.
  rewrite Hx, Hy in *.
  assert (Hexy : ex <= ey)
    by (destruct (SFleb_finite_inv _ _ _ _ Hmono) as [Hlt | [Heq _]]; lia).
  destruct (SFdiv_differences mx ex my ey Hmx Hmy ltac:(lia) ltac:(lia) Hexy)
    as (mq & eq & Hq & Hmq & Heq).
  pose proof (SFdiv_error mx ex my ey Hmx Hmy ltac:(lia) ltac:(lia) ltac:(lia)) as Herrq.
  pose proof (SFmul_error mq eq Hmq ltac:(lia) ltac:(lia)) as Herrw.
  cbv zeta in Herrq, Herrw. rewrite Hq in Herrq.
  destruct (scaled_differences mx ex my ey Hmx Hmy ltac:(lia) ltac:(lia) Hexy)
    as (m & e & Hs & Hm & He).
  exists m, e. split; [exact Hs | split; [exact Hm | split; [exact He |]]].
  unfold scaled in Hs. rewrite Hq in Hs. rewrite Hs in Herrw.
  pose proof (units_mono P B HP HB HPB) as Hle.
  unfold floorZ. fold (units (S754_finite false m e)).
  apply (four_roundings (2 ^ 52) (2 ^ 1074) _ _
           (units (S754_finite false mx ex)) (units (S754_finite false my ey))
           (units (S754_finite false mq eq))); try assumption.
  - change (2 ^ 52) with 4503599627370496. lia.
  - apply Z.pow_pos_nonneg; lia.
  - lia.
Qed.

End Differences.

(** * Exact distances *)

Module Exact.
Import Binary64 Differences.

(** The float of an integer from 0 to [2^53 - 1], which is exact. *)
Definition exactFloat (n : Z) : spec_float :=
  if n =? 0 then S754_zero false
  else S754_finite false (Z.to_pos (n * 2 ^ (52 - Z.log2 n))) (Z.log2 n - 52).

(** A number of 53 digits followed by zeros rounds to itself. *)
Lemma fl_exact_shift M k e :
  Z.log2 M = 52 -> 0 <= k -> -1021 <= 53 + k + e <= 1023 ->
  fl (M * 2 ^ k) 1 e = S754_finite false (Z.to_pos M) (e + k).
Proof.
  intros HM Hk He.
  assert (HMpos : 0 < M).
  { destruct (Z.lt_ge_cases 0 M) as [H | H]; [exact H |].
    rewrite Z.log2_nonpos in HM by exact H. lia. }
  pose proof (log2_52_bounds M HMpos HM) as Hb.
  assert (HP : 0 < 2 ^ k) by (apply Z.pow_pos_nonneg; lia).
  assert (HN : 0 < M * 2 ^ k) by (apply Z.mul_pos_pos; lia).
  assert (Hlog : Z.log2 (M * 2 ^ k) = 52 + k)
    by (rewrite Z.log2_mul_pow2 by lia; lia).
  unfold fl. rewrite binary_round_aux_rnd; rewrite ?Z.div_1_r, ?Hlog; try lia.
  replace (52 + k - 52) with k by lia. rewrite Z.mul_1_l.
  unfold rnd. rewrite Z.div_mul, Z.mod_mul by lia.
  cbn [locOf Z.eqb round_nearest_even]. unfold renormalize.
  destruct (Z.eqb_spec M (2 ^ 53)); [lia | reflexivity].
Qed.

Lemma exactFloat_spec n :
  0 < n < 2 ^ 53 ->
  exists m e, exactFloat n = S754_finite false m e /\
              Z.log2 (Z.pos m) = 52 /\ e = Z.log2 n - 52 /\ Z.pos m = n * 2 ^ (- e) /\
              - 52 <= e <= 0.
Proof.
  intros Hn. unfold exactFloat.
  destruct (Z.eqb_spec n 0); [lia |].
  assert (Hl : 0 <= Z.log2 n < 53).
  { split; [apply Z.log2_nonneg | apply Z.log2_lt_pow2; lia]. }
  assert (HP : 0 < 2 ^ (52 - Z.log2 n)) by (apply Z.pow_pos_nonneg; lia).
  assert (HM : 0 < n * 2 ^ (52 - Z.log2 n)) by (apply Z.mul_pos_pos; lia).
  eexists _, _. split; [reflexivity |].
  rewrite Z2Pos.id by exact HM.
  split; [rewrite Z.log2_mul_pow2 by lia; lia |].
  split; [reflexivity |]. split; [do 2 f_equal; lia | lia].
Qed.

(** The conversion of a small magnitude is exact. *)
Lemma of_magnitude_exactFloat q :
  0 <= q < 2 ^ 53 -> Prim2SF (of_magnitude q) = exactFloat q.
Proof.
  intros Hq. destruct (Z.eq_dec q 0) as [-> | Hne]; [reflexivity |].
  destruct (of_magnitude_exact q ltac:(lia)) as (m & e & -> & He & Hm).
  unfold exactFloat. destruct (Z.eqb_spec q 0); [lia |].
  f_equal; [| exact He].
  apply Pos2Z.inj. rewrite Hm, Z2Pos.id.
  - do 2 f_equal. lia.
  - assert (Hl : 0 <= Z.log2 q < 53).
    { split; [apply Z.log2_nonneg | apply Z.log2_lt_pow2; lia]. }
    apply Z.mul_pos_pos; [lia | apply Z.pow_pos_nonneg; lia].
Qed.

(** The square of an exact float is exact, when it is below [2^53]. *)
Lemma SFmul_exactFloat s q m e :
  0 < q -> q * q < 2 ^ 53 ->
  Z.log2 (Z.pos m) = 52 -> e = Z.log2 q - 52 -> Z.pos m = q * 2 ^ (- e) ->
  SFmul prec emax (S754_finite s m e) (S754_finite s m e) = exactFloat (q * q).
Proof.
  intros Hq Hqq Hm He Hmq.
  assert (Hl : 0 <= Z.log2 q) by apply Z.log2_nonneg.
  assert (Hn : 0 < q * q) by (apply Z.mul_pos_pos; lia).
  assert (HL : 0 <= Z.log2 (q * q) < 53).
  { split; [apply Z.log2_nonneg | apply Z.log2_lt_pow2; lia]. }
  pose proof (Z.log2_mul_below q q Hq Hq) as Hlo.
  assert (Hlq : Z.log2 q < 27).
  { apply Z.log2_lt_pow2; [lia |].
    destruct (Z.lt_ge_cases q (2 ^ 27)) as [H | H]; [exact H | exfalso].
    assert (2 ^ 27 * 2 ^ 27 <= q * q) by (apply Z.mul_le_mono_nonneg; lia). lia. }
  cbn [SFmul]. replace (xorb s s) with false by now destruct s.
  rewrite Pos2Z.inj_mul.
  change (binary_round_aux prec emax false (Z.pos m * Z.pos m) (e + e) loc_Exact)
    with (binary_round_aux prec emax false (Z.pos m * Z.pos m) (e + e)
                           (locOf 0 1)).
  rewrite <- (Z.mod_1_r (Z.pos m * Z.pos m)).
  rewrite <- (Z.div_1_r (Z.pos m * Z.pos m)) at 1.
  fold (fl (Z.pos m * Z.pos m) 1 (e + e)).
  set (L := Z.log2 (q * q)) in *.
  set (k := - (e + e) - (52 - L)).
  assert (Hk : 0 <= k) by (subst k; lia).
  assert (E : Z.pos m * Z.pos m = q * q * 2 ^ (52 - L) * 2 ^ k).
  { rewrite Hmq.
    replace (q * q * 2 ^ (52 - L) * 2 ^ k) with (q * q * (2 ^ (52 - L) * 2 ^ k)) by ring.
    rewrite <- (Z.pow_add_r 2 (52 - L) k) by lia.
    replace (52 - L + k) with (- e + - e) by (subst k; lia).
    rewrite (Z.pow_add_r 2 (- e) (- e)) by lia. ring. }
  rewrite E, fl_exact_shift; try lia.
  - unfold exactFloat. destruct (Z.eqb_spec (q * q) 0); [lia |].
    fold L. f_equal. subst k. lia.
  - rewrite Z.log2_mul_pow2 by lia. fold L. lia.
Qed.

(** The sum of two exact floats is exact, when it is below [2^53]. *)
Lemma SFadd_exactFloat a b :
  0 <= a -> 0 <= b -> a + b < 2 ^ 53 ->
  SFadd prec emax (exactFloat a) (exactFloat b) = exactFloat (a + b).
Proof.
  intros Ha Hb Hab.
  destruct (Z.eq_dec a 0) as [-> | Hane].
  { change (exactFloat 0) with (S754_zero false). rewrite Z.add_0_l.
    unfold exactFloat. destruct (b =? 0); reflexivity. }
  destruct (Z.eq_dec b 0) as [-> | Hbne].
  { change (exactFloat 0) with (S754_zero false). rewrite Z.add_0_r.
    unfold exactFloat. destruct (a =? 0); reflexivity. }
  destruct (exactFloat_spec a ltac:(lia)) as (ma & ea & -> & Hma & Hea & Hmav & Hear).
  destruct (exactFloat_spec b ltac:(lia)) as (mb & eb & -> & Hmb & Heb & Hmbv & Hebr).
  unfold SFadd, cond_Zopp.
  set (ez := Z.min ea eb).
  destruct (shl_align_spec ma ea ez) as [Hx _].
  destruct (shl_align_spec mb eb ez) as [Hy _].
  set (x := fst (shl_align ma ea ez)) in *.
  set (y := fst (shl_align mb eb ez)) in *.
  rewrite Z.min_r in Hx, Hy by (subst ez; lia).
  change (Z.pos x + Z.pos y) with (Z.pos (x + y)). cbn [binary_normalize].
  assert (Hez : - 52 <= ez <= 0) by (subst ez; lia).
  assert (HT : Z.pos (x + y) = (a + b) * 2 ^ (- ez)).
  { rewrite Pos2Z.inj_add, Hx, Hy, Hmav, Hmbv.
    rewrite <- !Z.mul_assoc, <- !Z.pow_add_r by lia.
    replace (- ea + (ea - ez)) with (- ez) by lia.
    replace (- eb + (eb - ez)) with (- ez) by lia. ring. }
  set (L := Z.log2 (a + b)).
  assert (HL : 0 <= L < 53).
  { subst L. split; [apply Z.log2_nonneg | apply Z.log2_lt_pow2; lia]. }
  assert (HlT : Z.log2 (Z.pos (x + y)) = L - ez)
    by (rewrite HT, Z.log2_mul_pow2 by lia; subst L; lia).
  destruct (binary_round_fl (x + y) ez) as (mz & ez' & -> & Hr & Hez' & Hmz); [lia |].
  rewrite HlT in Hez'.
  set (k := - ez' - (52 - L)).
  assert (Hk : 0 <= k) by (subst k; lia).
  assert (E : Z.pos mz = (a + b) * 2 ^ (52 - L) * 2 ^ k).
  { rewrite Hmz, HT.
    rewrite <- !Z.mul_assoc, <- !Z.pow_add_r by lia.
    do 2 f_equal. subst k. lia. }
  rewrite E, fl_exact_shift; try lia.
  - unfold exactFloat. destruct (Z.eqb_spec (a + b) 0); [lia |].
    fold L. f_equal. subst k. lia.
  - rewrite Z.log2_mul_pow2 by lia. fold L. lia.
Qed.


(** *** The square root of an exact float *)

Lemma SFltb_finite m1 e1 m2 e2 :
  e1 < e2 \/ (e1 = e2 /\ Z.pos m1 < Z.pos m2) ->
  SFltb (S754_finite false m1 e1) (S754_finite false m2 e2) = true.
Proof.
  intros H. unfold SFltb, SFcompare.
  change (Pos.compare_cont Eq m1 m2) with (Pos.compare m1 m2).
  destruct (Z.compare_spec e1 e2); try lia; try reflexivity.
  destruct (Pos.compare_spec m1 m2); try lia; reflexivity.
Qed.

Lemma SFltb_renormalize R1 E1 R2 E2 :
  2 ^ 52 <= R1 < 2 ^ 53 -> 2 ^ 52 <= R2 <= 2 ^ 53 ->
  E1 < E2 \/ (E1 = E2 /\ R1 < R2) ->
  SFltb (renormalize false R1 E1) (renormalize false R2 E2) = true.
Proof.
  intros H1 H2 H. unfold renormalize.
  destruct (Z.eqb_spec R1 (2 ^ 53)); [lia |].
  destruct (Z.eqb_spec R2 (2 ^ 53));
    apply SFltb_finite; rewrite ?Z2Pos.id by lia; lia.
Qed.

(** The location of a remainder, as a number of quarters. *)
Definition quarters (l : location) : Z :=
  match l with
  | loc_Exact => 0
  | loc_Inexact Lt => 1
  | loc_Inexact Eq => 2
  | loc_Inexact Gt => 3
  end.

(** Rounding a number of 53 digits whose remainder is at [l]. *)
Lemma binary_round_aux_53 q E l :
  Z.log2 q = 52 -> -1021 <= 53 + E <= 1023 ->
  binary_round_aux prec emax false q E l
  = renormalize false (round_nearest_even q l) E.
Proof.
  intros Hq HE.
  assert (Hqpos : 0 < q).
  { destruct (Z.lt_ge_cases 0 q) as [H | H]; [exact H |].
    rewrite Z.log2_nonpos in Hq by exact H. lia. }
  assert (Hc : 0 <= quarters l < 4) by (destruct l as [|[]]; simpl; lia).
  assert (Hdiv : (4 * q + quarters l) / 4 = q)
    by (symmetry; apply Z.div_unique with (quarters l); lia).
  assert (Hmod : (4 * q + quarters l) mod 4 = quarters l)
    by (symmetry; apply Z.mod_unique with q; lia).
  assert (Hloc : locOf (quarters l) 4 = l) by (destruct l as [|[]]; reflexivity).
  pose proof (binary_round_aux_rnd false (4 * q + quarters l) 4 E) as H.
  rewrite Hdiv, Hmod, Hloc, Hq in H.
  rewrite H by lia.
  change (4 * 2 ^ (52 - 52)) with 4. rewrite Z.add_0_r.
  unfold rnd. now rewrite Hdiv, Hmod, Hloc.
Qed.

(** The square root of the float of [S], for [S] below [2^52]: the root
    [q] of [S * 4^k], with [k] such that [q] has 53 digits, rounded up
    when the remainder [r] exceeds [q]. *)
Lemma SFsqrt_exactFloat S :
  0 < S < 2 ^ 52 ->
  let E := Z.log2 S / 2 - 52 in
  exists q r,
    S * 2 ^ (- 2 * E) = q * q + r /\ 0 <= r <= 2 * q /\ 2 ^ 52 <= q < 2 ^ 53 /\
    SFsqrt prec emax (exactFloat S)
    = renormalize false (if r <=? q then q else q + 1) E.
Proof.
  intros HS E.
  destruct (exactFloat_spec S ltac:(lia)) as (m & e & -> & Hm & He & Hmv & Her).
  assert (HL : 0 <= Z.log2 S < 52).
  { split; [apply Z.log2_nonneg | apply Z.log2_lt_pow2; lia]. }
  unfold SFsqrt, SFsqrt_core_binary.
  rewrite Zdigits2_log2, Hm by lia.
  rewrite !Z.div2_div.
  assert (He' : Z.min (fexp prec emax ((52 + 1 + e + 1) / 2)) (e / 2) = E).
  { subst E. unfold fexp, SpecFloat.emin, prec, emax. rewrite He.
    Z.div_mod_to_equations. lia. }
  rewrite He'.
  assert (HE : - 52 <= E <= - 27) by (subst E; Z.div_mod_to_equations; lia).
  assert (Hs : e - 2 * E = 52 \/ e - 2 * E = 53)
    by (subst E; rewrite He; Z.div_mod_to_equations; lia).
  set (m' := match e - 2 * E with
             | 0 => Z.pos m
             | Z.pos _ => Z.shiftl (Z.pos m) (e - 2 * E)
             | Z.neg _ => 0
             end).
  assert (Hm'v : m' = S * 2 ^ (- 2 * E)).
  { assert (Hsh : m' = Z.pos m * 2 ^ (e - 2 * E)).
    { subst m'. destruct Hs as [-> | ->]; cbv iota beta;
        rewrite Z.shiftl_mul_pow2 by lia; reflexivity. }
    rewrite Hsh, Hmv, <- Z.mul_assoc, <- Z.pow_add_r by lia.
    do 2 f_equal. lia. }
  assert (Hm' : 2 ^ 104 <= m' < 2 ^ 106).
  { pose proof (log2_52_bounds (Z.pos m) ltac:(lia) Hm) as Hb.
    subst m'. destruct Hs as [-> | ->]; cbv iota beta;
      rewrite Z.shiftl_mul_pow2 by lia; lia. }
  clearbody m'.
  pose proof (Z.sqrtrem_spec m' ltac:(lia)) as Hq.
  destruct (Z.sqrtrem m') as [q r]. destruct Hq as [Hq Hr].
  assert (Hq52 : 2 ^ 52 <= q < 2 ^ 53).
  { split.
    - destruct (Z.le_gt_cases (2 ^ 52) q) as [H | H]; [exact H | exfalso].
      assert (q * q <= (2 ^ 52 - 1) * (2 ^ 52 - 1))
        by (apply Z.mul_le_mono_nonneg; lia).
      lia.
    - destruct (Z.lt_ge_cases q (2 ^ 53)) as [H | H]; [exact H | exfalso].
      assert (2 ^ 53 * 2 ^ 53 <= q * q) by (apply Z.mul_le_mono_nonneg; lia).
      lia. }
  assert (Hlq : Z.log2 q = 52) by (apply Z.log2_unique; lia).
  exists q, r. split; [rewrite <- Hm'v; exact Hq |].
  split; [exact Hr | split; [exact Hq52 |]].
  rewrite binary_round_aux_53 by lia. f_equal.
  destruct (Z.eqb_spec r 0) as [-> | Hr0].
  - destruct (Z.leb_spec 0 q); [reflexivity | lia].
  - destruct (Z.leb_spec r q); reflexivity.
Qed.


Lemma square_le a b : 0 <= a <= b -> a * a <= b * b.
Proof. intros H. apply Z.mul_le_mono_nonneg; lia. Qed.

(** The square root is strictly increasing on the floats of the integers
    below [2^52]: two of them never round to the same float. *)
Lemma SFsqrt_exactFloat_lt S1 S2 :
  0 < S1 -> S1 < S2 -> S2 < 2 ^ 52 ->
  SFltb (SFsqrt prec emax (exactFloat S1)) (SFsqrt prec emax (exactFloat S2)) = true.
Proof.
  intros H1 H12 H2.
  destruct (SFsqrt_exactFloat S1 ltac:(lia)) as (q1 & r1 & Hm1 & Hr1 & Hq1 & ->).
  destruct (SFsqrt_exactFloat S2 ltac:(lia)) as (q2 & r2 & Hm2 & Hr2 & Hq2 & ->).
  assert (HL1 : 0 <= Z.log2 S1 < 52).
  { split; [apply Z.log2_nonneg | apply Z.log2_lt_pow2; lia]. }
  assert (HL2 : 0 <= Z.log2 S2 < 52).
  { split; [apply Z.log2_nonneg | apply Z.log2_lt_pow2; lia]. }
  assert (HL : Z.log2 S1 <= Z.log2 S2) by (apply Z.log2_le_mono; lia).
  set (E1 := Z.log2 S1 / 2 - 52) in *. set (E2 := Z.log2 S2 / 2 - 52) in *.
  assert (HE1 : - 52 <= E1 <= - 27) by (subst E1; Z.div_mod_to_equations; lia).
  assert (HE2 : - 52 <= E2 <= - 27) by (subst E2; Z.div_mod_to_equations; lia).
  assert (HE : E1 <= E2) by (subst E1 E2; Z.div_mod_to_equations; lia).
  clearbody E1 E2.
  assert (HP1 : 2 ^ 54 <= 2 ^ (- 2 * E1)) by (apply Z.pow_le_mono_r; lia).
  set (R1 := if r1 <=? q1 then q1 else q1 + 1).
  set (R2 := if r2 <=? q2 then q2 else q2 + 1).
  assert (HR2 : 2 ^ 52 <= R2 <= 2 ^ 53) by (subst R2; destruct (r2 <=? q2); lia).
  assert (HR1 : 2 ^ 52 <= R1 < 2 ^ 53).
  { subst R1. destruct (Z.leb_spec r1 q1) as [Hle | Hgt]; [lia |].
    split; [lia |].
    destruct (Z.lt_ge_cases (q1 + 1) (2 ^ 53)) as [H | H]; [exact H | exfalso].
    assert (Hq : q1 = 2 ^ 53 - 1) by lia.
    assert (HJ : 2 ^ (- 2 * E1) * 2 ^ (106 + 2 * E1) = 2 ^ 106)
      by (rewrite <- Z.pow_add_r by lia; f_equal; lia).
    set (P := 2 ^ (- 2 * E1)) in *. set (J := 2 ^ (106 + 2 * E1)) in *.
    assert (HJpos : 0 < J) by (subst J; apply Z.pow_pos_nonneg; lia).
    clearbody P J.
    assert (Hlo : 2 ^ 106 - 2 ^ 53 < S1 * P).
    { rewrite Hm1, Hq. change ((2 ^ 53 - 1) * (2 ^ 53 - 1)) with (2 ^ 106 - 2 * 2 ^ 53 + 1).
      lia. }
    assert (Hhi : S1 * P < 2 ^ 106).
    { rewrite Hm1, Hq. change ((2 ^ 53 - 1) * (2 ^ 53 - 1)) with (2 ^ 106 - 2 * 2 ^ 53 + 1).
      lia. }
    assert (HSJ : S1 < J).
    { destruct (Z.lt_ge_cases S1 J) as [Hlt | Hge]; [exact Hlt | exfalso].
      assert (J * P <= S1 * P) by (apply Z.mul_le_mono_nonneg_r; lia). lia. }
    assert (S1 * P <= (J - 1) * P) by (apply Z.mul_le_mono_nonneg_r; lia).
    lia. }
  apply SFltb_renormalize; try assumption.
  destruct (Z.eq_dec E1 E2) as [<- | Hne]; [right; split; [reflexivity |] | left; lia].
  set (P := 2 ^ (- 2 * E1)) in *. clearbody P.
  assert (Hgap : q1 * q1 + r1 + 2 ^ 54 <= q2 * q2 + r2).
  { rewrite <- Hm1, <- Hm2.
    assert ((S1 + 1) * P <= S2 * P) by (apply Z.mul_le_mono_nonneg_r; lia). lia. }
  clear Hm1 Hm2.
  destruct (Z.lt_ge_cases R1 R2) as [Hlt | Hge]; [exact Hlt | exfalso].
  subst R1 R2.
  destruct (Z.leb_spec r1 q1) as [Ha | Ha]; destruct (Z.leb_spec r2 q2) as [Hb | Hb].
  - pose proof (square_le q2 q1 ltac:(lia)). lia.
  - pose proof (square_le q2 (q1 - 1) ltac:(lia)) as Hsq.
    replace ((q1 - 1) * (q1 - 1)) with (q1 * q1 - 2 * q1 + 1) in Hsq by ring. lia.
  - pose proof (square_le q2 (q1 + 1) ltac:(lia)) as Hsq.
    replace ((q1 + 1) * (q1 + 1)) with (q1 * q1 + 2 * q1 + 1) in Hsq by ring. lia.
  - pose proof (square_le q2 q1 ltac:(lia)). lia.
Qed.


Lemma exactFloat_nonneg n : nonneg (exactFloat n) = true.
Proof. unfold exactFloat. now destruct (n =? 0). Qed.

Lemma SFltb_asym x y :
  nonneg x = true -> nonneg y = true -> SFltb x y = true -> SFleb y x = false.
Proof.
  intros Hx Hy. nonneg_cases x; nonneg_cases y;
    unfold SFltb, SFleb, SFcompare; compare_cases.
Qed.

Lemma SFltb_irrefl x : nonneg x = true -> SFltb x x = false.
Proof.
  intros Hx. nonneg_cases x; unfold SFltb, SFcompare; compare_cases.
Qed.

(** The computed square roots of the integers below [2^52] are ordered
    as the integers are. *)
Lemma SFsqrt_exactFloat_order S1 S2 :
  0 <= S1 < 2 ^ 52 -> 0 <= S2 < 2 ^ 52 ->
  SFltb (SFsqrt prec emax (exactFloat S1)) (SFsqrt prec emax (exactFloat S2))
  = (S1 <? S2) /\
  SFleb (SFsqrt prec emax (exactFloat S1)) (SFsqrt prec emax (exactFloat S2))
  = (S1 <=? S2).
Proof.
  intros H1 H2.
  assert (Hn : forall S, nonneg (SFsqrt prec emax (exactFloat S)) = true)
    by (intros S; apply SFsqrt_nonneg, exactFloat_nonneg).
  assert (Hlt : forall A B, 0 <= A -> A < B -> B < 2 ^ 52 ->
            SFltb (SFsqrt prec emax (exactFloat A)) (SFsqrt prec emax (exactFloat B))
            = true).
  { intros A B HA HAB HB. destruct (Z.eq_dec A 0) as [-> | HA0].
    - destruct (SFsqrt_exactFloat B ltac:(lia)) as (q & r & _ & _ & _ & ->).
      change (SFsqrt prec emax (exactFloat 0)) with (S754_zero false).
      unfold renormalize. now destruct (_ =? _).
    - apply SFsqrt_exactFloat_lt; lia. }
  destruct (Z.lt_trichotomy S1 S2) as [H | [<- | H]].
  - pose proof (Hlt S1 S2 ltac:(lia) H ltac:(lia)) as Hl.
    rewrite Hl, (SFltb_leb _ _ Hl).
    destruct (Z.ltb_spec S1 S2), (Z.leb_spec S1 S2); try lia; try (now split).
  - rewrite SFltb_irrefl, SFleb_refl by apply Hn.
    rewrite Z.ltb_irrefl, Z.leb_refl. now split.
  - pose proof (Hlt S2 S1 ltac:(lia) H ltac:(lia)) as Hl.
    pose proof (SFltb_asym _ _ (Hn S2) (Hn S1) Hl) as Hle.
    rewrite Hle.
    destruct (SFltb (SFsqrt prec emax (exactFloat S1))
                    (SFsqrt prec emax (exactFloat S2))) eqn:Hc.
    { apply SFltb_leb in Hc. rewrite Hc in Hle. discriminate. }
    destruct (Z.ltb_spec S1 S2), (Z.leb_spec S1 S2); try lia; try (now split).
Qed.

(** The conversion of a small integer is exact. *)
Lemma float64_of_int_exact d :
  Z.abs d < 2 ^ 53 ->
  (d = 0 /\ Prim2SF (float64_of_int d) = S754_zero false) \/
  (d <> 0 /\
   exists s m e,
     Prim2SF (float64_of_int d) = S754_finite s m e /\
     Z.log2 (Z.pos m) = 52 /\ e = Z.log2 (Z.abs d) - 52 /\
     Z.pos m = Z.abs d * 2 ^ (- e)).
Proof.
  intros Hd. unfold float64_of_int.
  assert (Hw : GoInt.wrap64 d = d).
  { unfold GoInt.wrap64. rewrite Z.mod_small; lia. }
  rewrite Hw.
  destruct (Z.eqb_spec d GoInt.min_int) as [E | _];
    [unfold GoInt.min_int in E; lia |].
  destruct (Z.eq_dec d 0) as [-> | Hne]; [left; split; reflexivity |].
  right. split; [exact Hne |].
  destruct (exactFloat_spec (Z.abs d) ltac:(lia)) as (m & e & Hx & Hm & He & Hmv & _).
  destruct (Z.ltb_spec d 0) as [Hneg | Hpos].
  - exists true, m, e. rewrite FloatAxioms.opp_spec, of_magnitude_exactFloat by lia.
    replace (- d) with (Z.abs d) by lia. rewrite Hx. now repeat split.
  - exists false, m, e. rewrite of_magnitude_exactFloat by lia.
    replace d with (Z.abs d) at 1 by lia. rewrite Hx. now repeat split.
Qed.

(** The square of the conversion of a small integer is exact. *)
Lemma square_exact d :
  d * d < 2 ^ 53 ->
  Prim2SF (float64_of_int d * float64_of_int d) = exactFloat (d * d).
Proof.
  intros Hdd.
  assert (Hd : Z.abs d < 2 ^ 53).
  { destruct (Z.lt_ge_cases (Z.abs d) (2 ^ 53)) as [H | H]; [exact H | exfalso].
    assert (2 ^ 53 * 2 ^ 53 <= Z.abs d * Z.abs d)
      by (apply Z.mul_le_mono_nonneg; lia).
    rewrite <- Z.abs_mul in *. lia. }
  rewrite mul_spec. unfold SF64mul.
  destruct (float64_of_int_exact d Hd) as [[-> ->] | (Hne & s & m & e & -> & Hm & He & Hmv)];
    [reflexivity |].
  replace (d * d) with (Z.abs d * Z.abs d) by (rewrite <- Z.abs_mul; lia).
  apply SFmul_exactFloat; try assumption; lia.
Qed.

(** The planar distance of two points less than [2^26.5] apart is the
    rounded square root of the exact sum of squares. *)
Lemma distance2D_exact x1 y1 x2 y2 :
  (x2 - x1) * (x2 - x1) + (y2 - y1) * (y2 - y1) < 2 ^ 53 ->
  Prim2SF (distance2D x1 y1 x2 y2)
  = SFsqrt prec emax
           (exactFloat ((x2 - x1) * (x2 - x1) + (y2 - y1) * (y2 - y1))).
Proof.
  intros HS.
  pose proof (Z.square_nonneg (x2 - x1)) as Hx.
  pose proof (Z.square_nonneg (y2 - y1)) as Hy.
  assert (Hsmall : forall d, d * d < 2 ^ 53 -> GoInt.wrap64 d = d).
  { intros d Hd. unfold GoInt.wrap64. rewrite Z.mod_small; [lia |].
    destruct (Z.lt_ge_cases (Z.abs d) (2 ^ 27)) as [H | H]; [lia | exfalso].
    assert (2 ^ 27 * 2 ^ 27 <= Z.abs d * Z.abs d)
      by (apply Z.mul_le_mono_nonneg; lia).
    rewrite <- Z.abs_mul in *. lia. }
  unfold distance2D, GoInt.sub.
  rewrite !Hsmall by lia.
  rewrite sqrt_spec, add_spec. unfold SF64sqrt, SF64add.
  rewrite !square_exact by lia.
  rewrite SFadd_exactFloat by lia. reflexivity.
Qed.

End Exact.

(** * Properties *)

(** ** Reference path builder *)

Module BuilderProofs.
Import Builder.

Lemma length_referencePoints {A} (f : nat -> A) :
  length (map f (seq 0 144)) = 144%nat.
Proof. now rewrite length_map, length_seq. Qed.

Lemma referencePoint_first lap cds d t sp :
  referencePoint lap cds d t sp 0 = sp.
Proof. unfold referencePoint; simpl; now destruct sp. Qed.

Lemma referencePoint_last lap cds d t sp :
  referencePoint lap cds d t sp 143 = sp.
Proof. unfold referencePoint; simpl; now destruct sp. Qed.









(** 150 samples standing on the start point. *)
Definition parked : list Location :=
  repeat (mkLocation String.EmptyString 44 0 0 0 0 0) 150.

Definition origin : TrackPoint := mkTrackPoint 0 0 0.



(** C1: [generateReferenceTrack] succeeds on every input of at least 144
    samples, for every start point, and the track it returns has exactly
    144 points whose first and last are the start point; on every input of
    fewer than 144 samples it fails with the insufficient-data error. *)
Theorem generateReferenceTrack_closed_loop
        (locations : list Location) (startPoint : TrackPoint) :
  ((144 <= length locations)%nat ->
   exists track,
     generateReferenceTrack locations startPoint = inr track /\
     length (Points track) = 144%nat /\
     nth_error (Points track) 0 = Some startPoint /\
     nth_error (Points track) 143 = Some startPoint) /\
  ((length locations < 144)%nat ->
   generateReferenceTrack locations startPoint = inl InsufficientData).
Proof.
  unfold generateReferenceTrack.
  destruct (Nat.ltb_spec (length locations) 144) as [Hlt | Hge]; split; intros H;
    try lia; [reflexivity |].
  eexists; split; [reflexivity |]. cbn [Points].
  split; [apply length_referencePoints |].
  rewrite !nth_error_map.
  change (nth_error (seq 0 144) 0) with (Some 0%nat).
  replace (nth_error (seq 0 144) 143) with (Some 143%nat) by (symmetry; reflexivity).
  cbn [option_map].
  now rewrite referencePoint_first, referencePoint_last.
Qed.

Lemma generateReferenceTrack_closed_loop_witness :
  (exists track,
     generateReferenceTrack parked origin = inr track /\
     length (Points track) = 144%nat /\
     nth_error (Points track) 0 = Some origin /\
     nth_error (Points track) 143 = Some origin) /\
  generateReferenceTrack (firstn 3 parked) origin = inl InsufficientData.
Proof.
  split.
  - apply (proj1 (generateReferenceTrack_closed_loop parked origin)).
    unfold parked; rewrite repeat_length; lia.
  - apply (proj2 (generateReferenceTrack_closed_loop (firstn 3 parked) origin)).
    simpl; lia.
Defined.




End BuilderProofs.

(** ** Path locator *)

Module LocatorProofs.
Import Builder Locator Binary64 Differences Exact.

(** [cumulativeDistance locations k]: the arc length from the first sample
    to sample [k], as the code accumulates it. *)
Definition cumulativeDistance (locations : list Location) (k : nat) : float :=
  nth k (cumulativeDistances locations) 0%float.

Lemma length_accumulate rest : forall prev total,
  length (accumulate prev rest total) = length rest.
Proof. induction rest as [|l rest IH]; intros; simpl; [reflexivity | now rewrite IH]. Qed.

Lemma length_cumulativeDistances ls :
  length (cumulativeDistances ls) = length ls.
Proof. destruct ls; simpl; [reflexivity | now rewrite length_accumulate]. Qed.

Lemma accumulate_nonneg rest : forall prev total k,
  nonneg (Prim2SF total) = true ->
  nonneg (Prim2SF (nth k (accumulate prev rest total) 0%float)) = true.
Proof.
  induction rest as [|l rest IH]; intros prev total k Ht; simpl.
  - now destruct k.
  - destruct k as [|k].
    + apply add_nonneg; [exact Ht | apply distance2D_nonneg].
    + apply IH. apply add_nonneg; [exact Ht | apply distance2D_nonneg].
Qed.

(** No cumulative distance is NaN or negative. *)
Lemma cumulativeDistance_nonneg locations k :
  nonneg (Prim2SF (cumulativeDistance locations k)) = true.
Proof.
  unfold cumulativeDistance. destruct locations as [|l rest]; simpl.
  - now destruct k.
  - destruct k as [|k]; [reflexivity |]. now apply accumulate_nonneg.
Qed.

Lemma cumulativeDistance_first l rest :
  cumulativeDistance (l :: rest) 0 = 0%float.
Proof. reflexivity. Qed.

(** The boundaries recorded so far: the first is sample 0, they increase
    strictly, and all lie below [bound]. *)
Record boundaries (starts : list nat) (bound : nat) : Prop := {
  bd_first : nth 0 starts 0%nat = 0%nat;
  bd_nonempty : (0 < length starts)%nat;
  bd_increasing : forall a b, (a < b < length starts)%nat ->
                              (nth a starts 0 < nth b starts 0)%nat;
  bd_below : forall a, (a < length starts)%nat -> (nth a starts 0 < bound)%nat
}.

Lemma boundaries_weaken starts i j :
  boundaries starts i -> (i <= j)%nat -> boundaries starts j.
Proof.
  intros [H1 H2 H3 H4] Hij. split; auto.
  intros a Ha. specialize (H4 a Ha). lia.
Qed.

Lemma boundaries_snoc starts i :
  boundaries starts i -> boundaries (starts ++ [i]) (S i).
Proof.
  intros [H1 H2 H3 H4]. split.
  - rewrite app_nth1 by exact H2. exact H1.
  - rewrite length_app; simpl; lia.
  - intros a b Hab. rewrite length_app in Hab; simpl in Hab.
    rewrite (app_nth1 starts [i] 0%nat (n := a)) by lia.
    destruct (Nat.eq_dec b (length starts)) as [-> | Hb].
    + rewrite app_nth2, Nat.sub_diag by lia. simpl. apply H4; lia.
    + rewrite app_nth1 by lia. apply H3; lia.
  - intros a Ha. rewrite length_app in Ha; simpl in Ha.
    destruct (Nat.eq_dec a (length starts)) as [-> | Hb].
    + rewrite app_nth2, Nat.sub_diag by lia. simpl. lia.
    + rewrite app_nth1 by lia. specialize (H4 a). lia.
Qed.

Lemma detectLaps_boundaries fx fy th ls : forall i starts,
  boundaries starts i ->
  boundaries (detectLaps fx fy th ls i starts) (i + length ls).
Proof.
  induction ls as [|l rest IH]; intros i starts Hb; simpl.
  - now rewrite Nat.add_0_r.
  - replace (i + S (length rest))%nat with (S i + length rest)%nat by lia.
    apply IH.
    destruct (_ <? th)%float; [| eapply boundaries_weaken; eauto].
    destruct (_ <? _); [now apply boundaries_snoc | eapply boundaries_weaken; eauto].
Qed.

Lemma lapStarts_boundaries locations :
  boundaries (lapStarts locations)
             (minPointsForLap + length (skipn minPointsForLap locations)).
Proof.
  unfold lapStarts. apply detectLaps_boundaries.
  split; simpl; intros; try lia.
  assert (a = 0%nat) as -> by lia. unfold minPointsForLap; lia.
Qed.

(** The backward search returns the last boundary at or before [i] among
    those of index at most [j]. *)
Lemma searchLap_spec starts i : forall j,
  (nth 0 starts 0 <= i)%nat ->
  let k := searchLap starts i j in
  (k <= j)%nat /\ (nth k starts 0 <= i)%nat /\
  forall k', (k < k' <= j)%nat -> (i < nth k' starts 0)%nat.
Proof.
  induction j as [|j IH]; intros H0; simpl.
  - destruct (Nat.leb_spec (nth 0 starts 0%nat) i); repeat split; try lia.
  - destruct (Nat.leb_spec (nth (S j) starts 0%nat) i) as [Hle | Hgt].
    + repeat split; try lia.
    + destruct (IH H0) as (Hk & Hn & Hlater). repeat split; try lia.
      intros k' Hk'. destruct (Nat.eq_dec k' (S j)) as [-> | Hne]; [exact Hgt |].
      apply Hlater; lia.
Qed.

(** The planar distance from a sample to a point of the track, as
    [mapLocationToIndex] computes it. *)
Definition dist (location : Location) (p : TrackPoint) : float :=
  distance2D (X location) (Y location) (tpX p) (tpY p).

Lemma dist_nonneg location p : nonneg (Prim2SF (dist location p)) = true.
Proof. apply distance2D_nonneg. Qed.

Lemma dist_below_max location p : (dist location p <? MaxFloat64)%float = true.
Proof.
  unfold dist.
  destruct (distance2D_class (X location) (Y location) (tpX p) (tpY p))
    as [(_ & _ & ->) | (_ & Hn)]; [reflexivity |].
  rewrite ltb_spec. eapply normal_below_max, Hn.
Qed.

Lemma dist_leb_refl location p : (dist location p <=? dist location p)%float = true.
Proof. rewrite leb_spec. apply SFleb_refl, dist_nonneg. Qed.

Lemma dist_ltb_leb_trans location p q r :
  (dist location p <? dist location q)%float = true ->
  (dist location q <=? dist location r)%float = true ->
  (dist location p <? dist location r)%float = true.
Proof.
  rewrite !ltb_spec, leb_spec. apply SFltb_leb_trans; apply dist_nonneg.
Qed.

Lemma dist_ltb_leb location p q :
  (dist location p <? dist location q)%float = true ->
  (dist location p <=? dist location q)%float = true.
Proof. rewrite ltb_spec, leb_spec. apply SFltb_leb. Qed.

Lemma dist_ltb_false location p q :
  (dist location p <? dist location q)%float = false ->
  (dist location q <=? dist location p)%float = true.
Proof. rewrite ltb_spec, leb_spec. apply SFltb_false_leb; apply dist_nonneg. Qed.

(** [q], at index [r] of [pts], is the nearest point to [location] and
    the first of the nearest, distances being the binary64 numbers that
    [distance2D] computes: the coordinate differences in [int], their
    squares, the sum and the square root each rounded to nearest. *)
Definition computedNearestFirst (location : Location) (pts : list TrackPoint)
           (r : nat) (q : TrackPoint) : Prop :=
  nth_error pts r = Some q /\
  (forall j p, nth_error pts j = Some p ->
               (dist location q <=? dist location p)%float = true) /\
  (forall j p, (j < r)%nat -> nth_error pts j = Some p ->
               (dist location q <? dist location p)%float = true).

(** The scan keeps the nearest point seen so far, and the first of them. *)
Lemma scanClosest_spec location pts : forall done idx q,
  computedNearestFirst location done idx q ->
  exists q',
    computedNearestFirst location (done ++ pts)
                 (scanClosest location pts (length done) (dist location q) idx) q'.
Proof.
  induction pts as [|p rest IH]; intros done idx q (Hq & Hmin & Hfirst); simpl.
  - exists q. rewrite app_nil_r. now repeat split.
  - assert (Hidx : (idx < length done)%nat)
      by (apply nth_error_Some; rewrite Hq; discriminate).
    replace (done ++ p :: rest) with ((done ++ [p]) ++ rest)
      by (rewrite <- app_assoc; reflexivity).
    replace (S (length done)) with (length (done ++ [p]))
      by (rewrite length_app; simpl; lia).
    fold (dist location p).
    assert (Hsplit : forall j p', nth_error (done ++ [p]) j = Some p' ->
                       ((j < length done)%nat /\ nth_error done j = Some p') \/
                       (j = length done /\ p' = p)).
    { intros j p' Hj. destruct (Nat.lt_ge_cases j (length done)) as [Hlt | Hge].
      - left. split; [exact Hlt |]. now rewrite nth_error_app1 in Hj.
      - right. rewrite nth_error_app2 in Hj by exact Hge.
        destruct (j - length done)%nat as [|k] eqn:Hk; simpl in Hj.
        + split; [lia | congruence].
        + now destruct k. }
    destruct (dist location p <? dist location q)%float eqn:Hlt.
    + replace (length (done ++ [p])) with (S (length done)) at 2
        by (rewrite length_app; simpl; lia).
      apply IH. split; [| split].
      * rewrite nth_error_app2, Nat.sub_diag by lia. reflexivity.
      * intros j p' Hj. destruct (Hsplit j p' Hj) as [[_ Hd] | [_ ->]].
        -- apply dist_ltb_leb. eapply dist_ltb_leb_trans; [exact Hlt |].
           eapply Hmin; exact Hd.
        -- apply dist_leb_refl.
      * intros j p' Hjlt Hj. destruct (Hsplit j p' Hj) as [[_ Hd] | [E _]]; [| lia].
        eapply dist_ltb_leb_trans; [exact Hlt |]. eapply Hmin; exact Hd.
    + apply IH. split; [| split].
      * rewrite nth_error_app1 by exact Hidx. exact Hq.
      * intros j p' Hj. destruct (Hsplit j p' Hj) as [[_ Hd] | [_ ->]].
        -- eapply Hmin; exact Hd.
        -- now apply dist_ltb_false.
      * intros j p' Hjlt Hj. destruct (Hsplit j p' Hj) as [[_ Hd] | [E _]]; [| lia].
        eapply Hfirst; eassumption.
Qed.

(** On a track that has a point, the scan of [mapLocationToIndex] returns
    the first of the nearest points. *)
Lemma scanClosest_nearest location p rest :
  exists q,
    computedNearestFirst location (p :: rest)
                 (scanClosest location (p :: rest) 0 MaxFloat64 0) q.
Proof.
  simpl. fold (dist location p). rewrite dist_below_max.
  apply (scanClosest_spec location rest [p] 0%nat p).
  split; [reflexivity | split].
  - intros [|[|j]] p' Hj; simpl in Hj; try discriminate.
    injection Hj as <-. apply dist_leb_refl.
  - intros j p' Hj; lia.
Qed.

Lemma wrap64_zero z : - 2 ^ 64 < z < 2 ^ 64 -> GoInt.wrap64 z = 0 -> z = 0.
Proof. unfold GoInt.wrap64. intros Hz H. Z.div_mod_to_equations. lia. Qed.

(** [p] has the planar coordinates of [location]. *)
Definition sameSpot (location : Location) (p : TrackPoint) : Prop :=
  tpX p = X location /\ tpY p = Y location.

Lemma dist_sameSpot location p :
  sameSpot location p -> dist location p = 0%float.
Proof.
  intros [Hx Hy]. unfold dist. rewrite Hx, Hy.
  destruct (distance2D_class (X location) (Y location) (X location) (Y location))
    as [(_ & _ & H) | ([H | H] & _)]; [exact H | |];
    unfold GoInt.sub in H; rewrite Z.sub_diag in H; now contradiction H.
Qed.

Lemma dist_zero_sameSpot location p s :
  GoInt.int64 (X location) -> GoInt.int64 (Y location) ->
  GoInt.int64 (tpX p) -> GoInt.int64 (tpY p) ->
  Prim2SF (dist location p) = S754_zero s -> sameSpot location p.
Proof.
  unfold GoInt.int64, GoInt.min_int, GoInt.max_int. intros HX HY Hx Hy Hz.
  unfold dist in Hz.
  destruct (distance2D_class (X location) (Y location) (tpX p) (tpY p))
    as [(H1 & H2 & _) | (_ & m & e & Hn & _)].
  - unfold GoInt.sub in H1, H2.
    apply wrap64_zero in H1; [| lia]. apply wrap64_zero in H2; [| lia].
    split; lia.
  - rewrite Hn in Hz. discriminate.
Qed.

(** The coordinates of the sample and of the track are values of [int]. *)
Definition wellTyped (location : Location) (track : ReferenceTrack) : Prop :=
  GoInt.int64 (X location) /\ GoInt.int64 (Y location) /\
  forall p, In p (Points track) -> GoInt.int64 (tpX p) /\ GoInt.int64 (tpY p).

(** The square of the planar distance from a sample to a point of the
    track, exact. *)
Definition planarDistanceSq (location : Location) (p : TrackPoint) : Z :=
  (tpX p - X location) ^ 2 + (tpY p - Y location) ^ 2.

(** The nearest-point search as the specification words it: [r] is the
    lowest index among those whose point is at the least planar distance
    from [location], the distance being the exact one. *)
Definition planarNearestFirst (location : Location) (pts : list TrackPoint)
           (r : nat) : Prop :=
  exists q,
    nth_error pts r = Some q /\
    (forall j p, nth_error pts j = Some p ->
                 planarDistanceSq location q <= planarDistanceSq location p) /\
    (forall j p, (j < r)%nat -> nth_error pts j = Some p ->
                 planarDistanceSq location q < planarDistanceSq location p).

(** A track of 144 points whose first two points are [2^26] away from the
    origin along X, the first of them one unit off the axis; the others
    are twice as far. *)
Definition tieTrack : ReferenceTrack :=
  mkReferenceTrack (mkTrackPoint 0 0 0)
    (mkTrackPoint 67108864 1 0 :: mkTrackPoint 67108864 0 0
     :: repeat (mkTrackPoint 134217728 0 0) 142).

Definition atOrigin : Location := mkLocation String.EmptyString 44 0 0 0 0 0.

(** C2 as stated fails: for the sample at the origin and [tieTrack], the
    point of index 1 is strictly nearer than the point of index 0 (squared
    distances [2^52] and [2^52 + 1]), yet [mapLocationToIndex] returns 0:
    both distances are [67108864] once rounded to binary64, and the scan
    keeps the first. *)
Lemma planarNearestFirst_tie_fails :
  length (Points tieTrack) = 144%nat /\
  mapLocationToIndex atOrigin tieTrack = 0%nat /\
  distance2D 0 0 67108864 1 = distance2D 0 0 67108864 0 /\
  ~ planarNearestFirst atOrigin (Points tieTrack)
                       (mapLocationToIndex atOrigin tieTrack).
Proof.
  assert (Hidx : mapLocationToIndex atOrigin tieTrack = 0%nat)
    by (vm_compute; reflexivity).
  split; [reflexivity | split; [exact Hidx | split; [vm_compute; reflexivity |]]].
  rewrite Hidx. intros (q & Hq & Hmin & _).
  injection Hq as <-.
  specialize (Hmin 1%nat (mkTrackPoint 67108864 0 0) eq_refl).
  vm_compute in Hmin. now apply Hmin.
Qed.

(** Every point of the track is nearer than [2^26] to the sample. *)
Definition withinReach (location : Location) (track : ReferenceTrack) : Prop :=
  forall p, In p (Points track) -> planarDistanceSq location p < 2 ^ 52.

Lemma planarDistanceSq_nonneg location p : 0 <= planarDistanceSq location p.
Proof.
  unfold planarDistanceSq. rewrite !Z.pow_2_r.
  pose proof (Z.square_nonneg (tpX p - X location)).
  pose proof (Z.square_nonneg (tpY p - Y location)). lia.
Qed.

(** The computed distances to two points nearer than [2^26] are ordered
    as the exact distances are. *)
Lemma dist_exact_order location p q :
  planarDistanceSq location p < 2 ^ 52 -> planarDistanceSq location q < 2 ^ 52 ->
  (dist location p <? dist location q)%float
  = (planarDistanceSq location p <? planarDistanceSq location q) /\
  (dist location p <=? dist location q)%float
  = (planarDistanceSq location p <=? planarDistanceSq location q).
Proof.
  intros Hp Hq.
  pose proof (planarDistanceSq_nonneg location p) as Hp0.
  pose proof (planarDistanceSq_nonneg location q) as Hq0.
  unfold planarDistanceSq in *. rewrite !Z.pow_2_r in *.
  unfold dist. rewrite ltb_spec, leb_spec, !distance2D_exact by lia.
  apply SFsqrt_exactFloat_order; lia.
Qed.

(** Among points nearer than [2^26], the first of the nearest points as
    computed is the first of the nearest points. *)
Lemma computedNearestFirst_planar location pts r q :
  (forall p, In p pts -> planarDistanceSq location p < 2 ^ 52) ->
  computedNearestFirst location pts r q -> planarNearestFirst location pts r.
Proof.
  intros Hreach (Hq & Hmin & Hfirst). exists q.
  pose proof (Hreach q (nth_error_In _ _ Hq)) as Hrq.
  split; [exact Hq | split].
  - intros j p Hj. pose proof (Hreach p (nth_error_In _ _ Hj)) as Hrp.
    specialize (Hmin j p Hj).
    rewrite (proj2 (dist_exact_order location q p Hrq Hrp)) in Hmin.
    now apply Z.leb_le.
  - intros j p Hjr Hj. pose proof (Hreach p (nth_error_In _ _ Hj)) as Hrp.
    specialize (Hfirst j p Hjr Hj).
    rewrite (proj1 (dist_exact_order location q p Hrq Hrp)) in Hfirst.
    now apply Z.ltb_lt.
Qed.

(** C2, amended: on a track of exactly 144 points [mapLocationToIndex]
    returns the lowest index among those whose point is at the least
    planar distance from the sample as [distance2D] computes it in
    binary64 (the differences, the squares, their sum and the square root
    each rounded): no point has a smaller computed distance than the one
    returned and every point before it has a strictly greater one.  Two
    points whose exact distances differ by less than the rounding tie,
    and the earlier is returned.  When every point of the track is nearer
    than [2^26] to the sample, the computed distances are ordered as the
    exact ones and the index returned is the lowest among those at the
    least exact planar distance.  When the sample stands exactly on a
    point of the track, the index returned is the lowest one whose point
    has the sample's X and Y (the coordinates being values of [int]).  On
    a track whose number of points is not 144 it returns 0. *)
Theorem mapLocationToIndex_nearest (location : Location) (track : ReferenceTrack) :
  (length (Points track) = 144%nat ->
   exists q, computedNearestFirst location (Points track)
                          (mapLocationToIndex location track) q) /\
  (length (Points track) = 144%nat -> withinReach location track ->
   planarNearestFirst location (Points track) (mapLocationToIndex location track)) /\
  (length (Points track) = 144%nat -> wellTyped location track ->
   forall k p, nth_error (Points track) k = Some p -> sameSpot location p ->
     (mapLocationToIndex location track <= k)%nat /\
     (exists q, nth_error (Points track) (mapLocationToIndex location track) = Some q /\
                sameSpot location q) /\
     forall j p', (j < mapLocationToIndex location track)%nat ->
                  nth_error (Points track) j = Some p' -> ~ sameSpot location p') /\
  (length (Points track) <> 144%nat -> mapLocationToIndex location track = 0%nat).
Proof.
  unfold mapLocationToIndex.
  assert (Hnear : length (Points track) = 144%nat ->
                  exists q, computedNearestFirst location (Points track)
                              (scanClosest location (Points track) 0 MaxFloat64 0) q).
  { intros Hlen. destruct (Points track) as [|p rest]; [discriminate |].
    apply scanClosest_nearest. }
  split; [| split; [| split]].
  - intros Hlen. rewrite Hlen. simpl. now apply Hnear.
  - intros Hlen Hreach. rewrite Hlen. simpl.
    destruct (Hnear Hlen) as (q & Hq).
    eapply computedNearestFirst_planar; [exact Hreach | exact Hq].
  - intros Hlen (HX & HY & Hpts) k p Hk Hsame. rewrite Hlen. simpl.
    destruct (Hnear Hlen) as (q & Hq & Hmin & Hfirst).
    set (r := scanClosest location (Points track) 0 MaxFloat64 0) in *.
    pose proof (dist_sameSpot location p Hsame) as Hp0.
    assert (Hzero : forall p', (dist location q <? dist location p')%float = true ->
                               ~ sameSpot location p').
    { intros p' Hlt Hs. rewrite (dist_sameSpot location p' Hs), ltb_spec in Hlt.
      change (Prim2SF 0) with (S754_zero false) in Hlt.
      rewrite SFltb_zero in Hlt by apply dist_nonneg. discriminate. }
    split; [| split].
    + destruct (Nat.le_gt_cases r k) as [Hle | Hgt]; [exact Hle |].
      exfalso. exact (Hzero p (Hfirst k p Hgt Hk) Hsame).
    + exists q. split; [exact Hq |].
      pose proof (Hmin k p Hk) as Hle. rewrite Hp0, leb_spec in Hle.
      change (Prim2SF 0) with (S754_zero false) in Hle.
      destruct (SFleb_zero _ (dist_nonneg location q) Hle) as [sq Hsq].
      destruct (Hpts q (nth_error_In _ _ Hq)) as [Hqx Hqy].
      eapply dist_zero_sameSpot; eassumption.
    + intros j p' Hj Hp'. apply Hzero. eapply Hfirst; eassumption.
  - intros Hlen. destruct (Nat.eqb_spec (length (Points track)) 144); [contradiction |].
    reflexivity.
Qed.

(** A track of 144 points along the X axis, one unit apart. *)
Definition axisTrack : ReferenceTrack :=
  mkReferenceTrack (mkTrackPoint 0 0 0)
                   (map (fun i => mkTrackPoint (Z.of_nat i) 0 0) (seq 0 144)).

Definition onAxis : Location := mkLocation String.EmptyString 44 0 0 5 0 7.

Lemma mapLocationToIndex_nearest_witness :
  (exists q, computedNearestFirst onAxis (Points axisTrack)
                          (mapLocationToIndex onAxis axisTrack) q) /\
  planarNearestFirst onAxis (Points axisTrack) (mapLocationToIndex onAxis axisTrack) /\
  (mapLocationToIndex onAxis axisTrack <= 5)%nat /\
  mapLocationToIndex onAxis (mkReferenceTrack (mkTrackPoint 0 0 0) []) = 0%nat.
Proof.
  pose proof (mapLocationToIndex_nearest onAxis axisTrack) as (H1 & H2 & H3 & _).
  pose proof (mapLocationToIndex_nearest
                onAxis (mkReferenceTrack (mkTrackPoint 0 0 0) [])) as (_ & _ & _ & H4).
  assert (Hlen : length (Points axisTrack) = 144%nat) by reflexivity.
  assert (Hpts : forall p, In p (Points axisTrack) ->
                           exists i, p = mkTrackPoint i 0 0 /\ 0 <= i < 144).
  { intros p Hp. unfold axisTrack in Hp. cbn [Points] in Hp.
    apply in_map_iff in Hp. destruct Hp as (i & <- & Hi). apply in_seq in Hi.
    exists (Z.of_nat i). split; [reflexivity | lia]. }
  assert (Hwt : wellTyped onAxis axisTrack).
  { split; [vm_compute; split; discriminate |].
    split; [vm_compute; split; discriminate |].
    intros p Hp. destruct (Hpts p Hp) as (i & -> & Hi). simpl.
    unfold GoInt.int64, GoInt.min_int, GoInt.max_int. split; lia. }
  assert (Hreach : withinReach onAxis axisTrack).
  { intros p Hp. destruct (Hpts p Hp) as (i & -> & Hi).
    unfold planarDistanceSq. cbn [tpX tpY X Y onAxis]. rewrite !Z.pow_2_r.
    assert ((i - 5) * (i - 5) <= 139 * 139).
    { destruct (Z.le_gt_cases 5 i).
      - apply Z.mul_le_mono_nonneg; lia.
      - replace ((i - 5) * (i - 5)) with ((5 - i) * (5 - i)) by ring.
        apply Z.mul_le_mono_nonneg; lia. }
    lia. }
  split; [exact (H1 Hlen) | split; [exact (H2 Hlen Hreach) | split]].
  - refine (proj1 (H3 Hlen Hwt 5%nat (mkTrackPoint 5 0 0) _ _)).
    + reflexivity.
    + split; reflexivity.
  - apply H4. simpl. discriminate.
Defined.

(** [s] is the most recent lap boundary at or before sample [i]. *)
Definition mostRecentBoundary (starts : list nat) (i s : nat) : Prop :=
  In s starts /\ (s <= i)%nat /\
  forall b, In b starts -> (b <= i)%nat -> (b <= s)%nat.

(** [e] is the last sample of the lap that starts at boundary [s]: the
    sample before the next boundary, or the last of the [n] samples when
    [s] is the last boundary. *)
Definition lapEndOf (starts : list nat) (n s e : nat) : Prop :=
  (exists b, In b starts /\ (s < b)%nat /\
             (forall b', In b' starts -> (s < b')%nat -> (b <= b')%nat) /\
             e = (b - 1)%nat)
  \/ ((forall b', In b' starts -> (b' <= s)%nat) /\ e = (n - 1)%nat).

(** The index of a sample within its lap as binary64 arithmetic gives
    it: 0 when the lap has no arc length, else the floor, at most 143, of
    the product by 144 of the quotient of the two differences, each of the
    four operations rounded to nearest. *)
Definition lapPositionBinary64 (lapStartDist lapEndDist pointDist : float) : Z :=
  if (lapEndDist =? lapStartDist)%float then 0
  else
    Z.min 143
      (int_of_float64
         (Floor ((pointDist - lapStartDist) / (lapEndDist - lapStartDist) * 144)%float)).

Lemma normalize_lapPositionBinary64 a b p : normalize a b p = lapPositionBinary64 a b p.
Proof.
  unfold normalize, lapPositionBinary64. destruct (b =? a)%float; [reflexivity |].
  destruct (Z.leb_spec 144 (int_of_float64 (Floor ((p - a) / (b - a) * 144)%float))); lia.
Qed.

Lemma indexOf_spec n cds starts bound i :
  boundaries starts bound ->
  exists s e,
    mostRecentBoundary starts i s /\ lapEndOf starts n s e /\
    indexOf n cds starts i
    = lapPositionBinary64 (nth s cds 0%float) (nth e cds 0%float) (nth i cds 0%float).
Proof.
  intros [H1 H2 H3 H4].
  assert (H0 : (nth 0 starts 0 <= i)%nat) by lia.
  destruct (searchLap_spec starts i (length starts - 1) H0) as (Hk & Hs & Hlater).
  unfold indexOf. set (k := searchLap starts i (length starts - 1)) in *.
  assert (Hmono : forall a b, (a <= b < length starts)%nat ->
                              (nth a starts 0 <= nth b starts 0)%nat).
  { intros a b Hab. destruct (Nat.eq_dec a b) as [-> | Hne]; [lia |].
    specialize (H3 a b). lia. }
  exists (nth k starts 0%nat).
  eexists. split; [| split; [| apply normalize_lapPositionBinary64]].
  - split; [apply nth_In; lia | split; [exact Hs |]].
    intros b Hb Hbi. destruct (In_nth _ _ 0%nat Hb) as (kb & Hkb & <-).
    destruct (Nat.le_gt_cases kb k) as [Hle | Hgt]; [apply Hmono; lia |].
    specialize (Hlater kb). lia.
  - destruct (Nat.ltb_spec (k + 1) (length starts)) as [Hlt | Hge].
    + left. exists (nth (k + 1) starts 0%nat).
      split; [apply nth_In; lia |]. split; [apply H3; lia |]. split; [| reflexivity].
      intros b' Hb' Hlt'. destruct (In_nth _ _ 0%nat Hb') as (kb & Hkb & <-).
      destruct (Nat.le_gt_cases kb k) as [Hle | Hgt].
      * specialize (Hmono kb k). lia.
      * apply Hmono; lia.
    + right. split; [| reflexivity].
      intros b' Hb'. destruct (In_nth _ _ 0%nat Hb') as (kb & Hkb & <-).
      apply Hmono; lia.
Qed.

Lemma nth_error_indices locations i :
  (i < length locations)%nat ->
  nth_error (mapLocationsToIndices locations) i
  = Some (indexOf (length locations) (cumulativeDistances locations)
                  (lapStarts locations) i).
Proof.
  intros Hi. unfold mapLocationsToIndices.
  destruct locations as [|l rest]; [simpl in Hi; lia |].
  rewrite nth_error_map, nth_error_seq.
  destruct (Nat.ltb_spec i (length (l :: rest))); [reflexivity | lia].
Qed.

(** Sixty samples that leave the start along a line, turn round after 25
    steps of one unit, are back on the start at sample 50 and leave again. *)
Definition outAndBack : list Location :=
  map (fun i =>
         let z := Z.of_nat i in
         mkLocation String.EmptyString 44 0 0
                    (if z <=? 25 then z else if z <=? 50 then 50 - z else z - 50) 0 0)
      (seq 0 60).


(** *** Cumulative distances *)

Lemma distance2D_segment x1 y1 x2 y2 : segment (Prim2SF (distance2D x1 y1 x2 y2)).
Proof.
  destruct (distance2D_class x1 y1 x2 y2) as [(_ & _ & ->) | (_ & H)].
  - left. reflexivity.
  - right. exact H.
Qed.

Lemma accumulate_cumulative rest : forall prev total k,
  cumulative (Prim2SF total) -> (k < length rest)%nat ->
  cumulative (Prim2SF (nth k (accumulate prev rest total) 0%float)) /\
  SFleb (Prim2SF total) (Prim2SF (nth k (accumulate prev rest total) 0%float)) = true.
Proof.
  induction rest as [|l rest IH]; intros prev total k Ht Hk; simpl in Hk; [lia |].
  cbn [accumulate].
  destruct (SFadd_cumulative _ _ Ht
              (distance2D_segment (X prev) (Y prev) (X l) (Y l))) as [Hc Hle].
  fold SF64add in Hc, Hle. rewrite <- add_spec in Hc, Hle.
  destruct k as [|k]; cbn [nth]; [split; assumption |].
  destruct (IH l _ k Hc ltac:(lia)) as [Hc' Hle'].
  split; [exact Hc' |].
  eapply SFleb_trans; try eassumption; apply cumulative_nonneg; assumption.
Qed.

Lemma accumulate_sorted rest : forall prev total i j,
  cumulative (Prim2SF total) -> (i <= j < length rest)%nat ->
  SFleb (Prim2SF (nth i (accumulate prev rest total) 0%float))
        (Prim2SF (nth j (accumulate prev rest total) 0%float)) = true.
Proof.
  induction rest as [|l rest IH]; intros prev total i j Ht Hij; simpl in Hij; [lia |].
  cbn [accumulate].
  destruct (SFadd_cumulative _ _ Ht
              (distance2D_segment (X prev) (Y prev) (X l) (Y l))) as [Hc _].
  fold SF64add in Hc. rewrite <- add_spec in Hc.
  destruct i as [|i], j as [|j]; cbn [nth]; try lia.
  - apply SFleb_refl, cumulative_nonneg, Hc.
  - apply (accumulate_cumulative rest l _ j Hc). lia.
  - apply IH; [exact Hc | lia].
Qed.

(** Every cumulative distance is zero or a normal number: the running sum
    never overflows. *)
Lemma cumulativeDistance_class locations k :
  cumulative (Prim2SF (cumulativeDistance locations k)).
Proof.
  unfold cumulativeDistance. destruct locations as [|l rest]; cbn [cumulativeDistances].
  - left. now destruct k.
  - destruct k as [|k]; cbn [nth]; [left; reflexivity |].
    destruct (Nat.lt_ge_cases k (length rest)) as [Hlt | Hge].
    + apply accumulate_cumulative; [left; reflexivity | exact Hlt].
    + rewrite nth_overflow by (rewrite length_accumulate; exact Hge).
      left; reflexivity.
Qed.

(** The cumulative distances never decrease. *)
Lemma cumulativeDistance_sorted locations i j :
  (i <= j < length locations)%nat ->
  SFleb (Prim2SF (cumulativeDistance locations i))
        (Prim2SF (cumulativeDistance locations j)) = true.
Proof.
  intros Hij. unfold cumulativeDistance.
  destruct locations as [|l rest]; simpl in Hij; [lia |].
  cbn [cumulativeDistances].
  destruct i as [|i], j as [|j]; cbn [nth]; try lia.
  - reflexivity.
  - apply (accumulate_cumulative rest l 0%float j); [left; reflexivity | lia].
  - apply accumulate_sorted; [left; reflexivity | lia].
Qed.

(** The value of a float in units of [2^-1074], of which every finite
    binary64 number is a multiple. *)
Definition exactValue (f : float) : Z :=
  match Prim2SF f with
  | S754_finite s m e => (if s then Z.neg m else Z.pos m) * 2 ^ (e + 1074)
  | _ => 0
  end.

(** The index of a sample within its lap as the specification gives it:
    0 when the lap has no arc length, else the floor of 144 times the
    fraction of the lap's arc length covered, at most 143, the arithmetic
    being exact. *)
Definition lapPositionExact (lapStartDist lapEndDist pointDist : float) : Z :=
  let a := exactValue lapStartDist in
  let b := exactValue lapEndDist in
  let p := exactValue pointDist in
  if b =? a then 0 else Z.min 143 (144 * (p - a) / (b - a)).

(** The indices as the specification words them: every sample belongs to
    the lap of the most recent boundary at or before it and has the exact
    position within that lap. *)
Definition indicesAsStated (locations : list Location) : Prop :=
  forall i, (i < length locations)%nat ->
  exists s e,
    mostRecentBoundary (lapStarts locations) i s /\
    lapEndOf (lapStarts locations) (length locations) s e /\
    nth_error (mapLocationsToIndices locations) i
    = Some (lapPositionExact (cumulativeDistance locations s)
                             (cumulativeDistance locations e)
                             (cumulativeDistance locations i)).

(** Four samples on the diagonal, one step apart. *)
Definition diagonal : list Location :=
  map (fun i => mkLocation String.EmptyString 44 0 0 (Z.of_nat i) (Z.of_nat i) 0)
      (seq 0 4).

(** C7 as stated fails: on [diagonal], a single lap that ends at sample 3,
    the exact formula places sample 1 at index 47 (the sum of the three
    rounded steps is a little more than three times the first), and
    [mapLocationsToIndices] returns 48: the rounded quotient is one third
    rounded, and its rounded product by 144 is 48. *)
Lemma indicesAsStated_diagonal_fails :
  lapPositionExact (cumulativeDistance diagonal 0) (cumulativeDistance diagonal 3)
                   (cumulativeDistance diagonal 1) = 47 /\
  nth_error (mapLocationsToIndices diagonal) 1 = Some 48 /\
  ~ indicesAsStated diagonal.
Proof.
  assert (Hexact : lapPositionExact (cumulativeDistance diagonal 0)
                                    (cumulativeDistance diagonal 3)
                                    (cumulativeDistance diagonal 1) = 47)
    by (vm_compute; reflexivity).
  assert (Hcode : nth_error (mapLocationsToIndices diagonal) 1 = Some 48)
    by (vm_compute; reflexivity).
  split; [exact Hexact | split; [exact Hcode |]].
  intros H. destruct (H 1%nat ltac:(vm_compute; lia)) as (s & e & Hs & He & Hidx).
  assert (Hstarts : lapStarts diagonal = [0%nat]) by (vm_compute; reflexivity).
  rewrite Hstarts in Hs, He.
  destruct Hs as ([<- | []] & _ & _).
  assert (e = 3%nat) as ->.
  { destruct He as [(b & [<- | []] & Hb & _) | (_ & ->)]; [lia | reflexivity]. }
  rewrite Hexact, Hcode in Hidx. discriminate.
Qed.

Lemma exactValue_units f : exactValue f = units (Prim2SF f).
Proof. reflexivity. Qed.

(** Two cumulative distances of the same value compare equal. *)
Lemma units_eq_SFeqb A B :
  cumulative A -> cumulative B -> units B = units A -> SFeqb B A = true.
Proof.
  intros [-> | (ma & ea & -> & Hma & Hea)] [-> | (mb & eb & -> & Hmb & Heb)] E.
  - reflexivity.
  - pose proof (units_pos mb eb ltac:(lia)) as H. rewrite E in H. discriminate H.
  - pose proof (units_pos ma ea ltac:(lia)) as H. rewrite <- E in H. discriminate H.
  - pose proof (log2_52_bounds (Z.pos ma) ltac:(lia) Hma) as Hba.
    pose proof (log2_52_bounds (Z.pos mb) ltac:(lia) Hmb) as Hbb.
    rewrite !units_finite in E.
    assert (Hee : eb = ea).
    { destruct (Z.lt_trichotomy eb ea) as [H | [H | H]]; [exfalso | exact H | exfalso].
      - replace (ea + 1074) with (ea - eb + (eb + 1074)) in E by lia.
        rewrite (Z.pow_add_r 2 (ea - eb) (eb + 1074)), Z.mul_assoc in E by lia.
        apply Z.mul_cancel_r in E; [| apply Z.pow_nonzero; lia].
        assert (Hp : 2 ^ 1 <= 2 ^ (ea - eb)) by (apply Z.pow_le_mono_r; lia).
        rewrite Z.pow_1_r in Hp. nia.
      - replace (eb + 1074) with (eb - ea + (ea + 1074)) in E by lia.
        rewrite (Z.pow_add_r 2 (eb - ea) (ea + 1074)), Z.mul_assoc in E by lia.
        apply Z.mul_cancel_r in E; [| apply Z.pow_nonzero; lia].
        assert (Hp : 2 ^ 1 <= 2 ^ (eb - ea)) by (apply Z.pow_le_mono_r; lia).
        rewrite Z.pow_1_r in Hp. nia. }
    subst eb. apply Z.mul_cancel_r in E; [| apply Z.pow_nonzero; lia].
    injection E as ->. apply SFeqb_refl_finite.
Qed.

Lemma SFeqb_units_eq A B :
  cumulative A -> cumulative B -> SFeqb B A = true -> units B = units A.
Proof.
  intros HA HB Heq.
  assert (Hle : SFleb A B = true).
  { unfold SFeqb in Heq. unfold SFleb.
    destruct A as [[]|[]| |[] ma ea], B as [[]|[]| |[] mb eb];
      try discriminate; try reflexivity;
      destruct HA as [HA | (? & ? & HA & _)]; try discriminate HA;
      destruct HB as [HB | (? & ? & HB & _)]; try discriminate HB.
    unfold SFcompare in *.
    destruct (Z.compare_spec eb ea), (Z.compare_spec ea eb); try lia; try discriminate.
    change (Pos.compare_cont Eq mb ma) with (Pos.compare mb ma) in Heq.
    change (Pos.compare_cont Eq ma mb) with (Pos.compare ma mb).
    destruct (Pos.compare_spec mb ma), (Pos.compare_spec ma mb);
      try lia; try discriminate; reflexivity. }
  destruct (SFsub_error A B HA HB Hle) as (H0 & _ & Hpos).
  destruct (Z.eq_dec (units B - units A) 0) as [E | E]; [lia |].
  destruct (Hpos ltac:(lia)) as ((m & e & Hn & _) & _).
  rewrite (SFsub_eq A B HA HB Heq) in Hn. discriminate.
Qed.

(** The index that binary64 arithmetic gives is in range and at most one
    away from the exact one. *)
Lemma lapPosition_error (a b p : float) :
  cumulative (Prim2SF a) -> cumulative (Prim2SF p) -> cumulative (Prim2SF b) ->
  SFleb (Prim2SF a) (Prim2SF p) = true -> SFleb (Prim2SF p) (Prim2SF b) = true ->
  0 <= lapPositionBinary64 a b p <= 143 /\
  Z.abs (lapPositionBinary64 a b p - lapPositionExact a b p) <= 1.
Proof.
  intros Ha Hp Hb Hap Hpb.
  assert (Hab : SFleb (Prim2SF a) (Prim2SF b) = true)
    by (eapply SFleb_trans; try eassumption; now apply cumulative_nonneg).
  unfold lapPositionBinary64, lapPositionExact. rewrite !exactValue_units.
  rewrite eqb_spec.
  destruct (SFeqb (Prim2SF b) (Prim2SF a)) eqn:Heq.
  - rewrite (SFeqb_units_eq _ _ Ha Hb Heq), Z.eqb_refl. simpl. lia.
  - destruct (Z.eqb_spec (units (Prim2SF b)) (units (Prim2SF a))) as [E | E].
    { rewrite (units_eq_SFeqb _ _ Ha Hb E) in Heq. discriminate. }
    destruct (SFsub_error _ _ Ha Hb Hab) as (HGb0 & _ & _).
    destruct (SFsub_error _ _ Ha Hp Hap) as (HGp0 & HGpz & _).
    pose proof (SFsub_pos _ _ Ha Hb Hab Heq) as (my & ey & Hy & Hmy & Hey).
    destruct (Z.eq_dec (units (Prim2SF p) - units (Prim2SF a)) 0) as [Ez | Ez].
    + assert (Hz : Prim2SF ((p - a) / (b - a) * 144) = S754_zero false).
      { rewrite mul_spec, div_spec, !sub_spec. unfold SF64mul, SF64div, SF64sub.
        rewrite (HGpz Ez), Hy. reflexivity. }
      assert (Hi : int_of_float64 (Floor ((p - a) / (b - a) * 144)) = 0).
      { unfold Floor. rewrite Hz. unfold int_of_float64. rewrite Hz. reflexivity. }
      rewrite Hi, Ez. rewrite Z.mul_0_r, Z.div_0_l by lia. simpl. lia.
    + destruct (scaled_error _ _ _ Ha Hp Hb Hap Hpb ltac:(lia))
        as (m & e & Hs & Hm & He & Herr).
      assert (Hx : Prim2SF ((p - a) / (b - a) * 144) = S754_finite false m e).
      { rewrite mul_spec, div_spec, !sub_spec. exact Hs. }
      rewrite (int_Floor _ m e Hx Hm He), Hx.
      pose proof (floorZ_nonneg (S754_finite false m e)). lia.
Qed.

(** Every lap boundary is the index of a sample. *)
Lemma lapStarts_below locations b :
  In b (lapStarts locations) -> (0 < length locations)%nat ->
  (b < length locations)%nat.
Proof.
  intros Hb Hn.
  destruct (Nat.le_gt_cases minPointsForLap (length locations)) as [Hge | Hlt].
  - pose proof (lapStarts_boundaries locations) as [_ _ _ H4].
    destruct (In_nth _ _ 0%nat Hb) as (k & Hk & <-).
    specialize (H4 k Hk). rewrite length_skipn in H4. lia.
  - unfold lapStarts in Hb. rewrite skipn_all2 in Hb by lia.
    destruct Hb as [<- | []]. exact Hn.
Qed.

(** A sample lies between the first and the last sample of its lap. *)
Lemma lap_contains starts n i s e :
  (forall b, In b starts -> (b < n)%nat) -> (i < n)%nat ->
  mostRecentBoundary starts i s -> lapEndOf starts n s e ->
  (s <= i <= e)%nat /\ (e < n)%nat.
Proof.
  intros Hbelow Hi (Hs & Hsi & Hmax) [(b & Hb & Hsb & _ & ->) | (_ & ->)].
  - specialize (Hbelow b Hb).
    destruct (Nat.le_gt_cases b i) as [Hle | Hgt]; [specialize (Hmax b Hb Hle); lia | lia].
  - lia.
Qed.

(** C7, amended: every sample is assigned to the most recent lap boundary
    at or before it, and its index is the position within that lap as
    binary64 arithmetic gives it: the floor, clamped to 143, of
    ((cumulativeDistance(sample) - cumulativeDistance(lapStart))
     / (cumulativeDistance(lapEnd) - cumulativeDistance(lapStart))) * 144,
    where the two differences, the quotient and then the product by 144
    are each rounded to nearest.  This index can differ from the exact
    floor of 144 times the fraction, clamped to 143, and is at most one
    away from it.  In a lap of zero arc length every sample has index 0. *)
Theorem mapLocationsToIndices_lap_position (locations : list Location) (i : nat) :
  (i < length locations)%nat ->
  exists s e,
    mostRecentBoundary (lapStarts locations) i s /\
    lapEndOf (lapStarts locations) (length locations) s e /\
    nth_error (mapLocationsToIndices locations) i
    = Some (lapPositionBinary64 (cumulativeDistance locations s)
                                (cumulativeDistance locations e)
                                (cumulativeDistance locations i)) /\
    Z.abs (lapPositionBinary64 (cumulativeDistance locations s)
                               (cumulativeDistance locations e)
                               (cumulativeDistance locations i)
           - lapPositionExact (cumulativeDistance locations s)
                              (cumulativeDistance locations e)
                              (cumulativeDistance locations i)) <= 1 /\
    (exactValue (cumulativeDistance locations e)
     = exactValue (cumulativeDistance locations s) ->
     nth_error (mapLocationsToIndices locations) i = Some 0).
Proof.
  intros Hi.
  destruct (indexOf_spec (length locations) (cumulativeDistances locations)
                         (lapStarts locations) _ i (lapStarts_boundaries locations))
    as (s & e & Hs & He & Hidx).
  exists s, e. split; [exact Hs | split; [exact He |]].
  fold (cumulativeDistance locations s) in Hidx.
  fold (cumulativeDistance locations e) in Hidx.
  fold (cumulativeDistance locations i) in Hidx.
  assert (Hnth : nth_error (mapLocationsToIndices locations) i
                 = Some (lapPositionBinary64 (cumulativeDistance locations s)
                                             (cumulativeDistance locations e)
                                             (cumulativeDistance locations i)))
    by (rewrite nth_error_indices by exact Hi; now rewrite Hidx).
  destruct (lap_contains (lapStarts locations) (length locations) i s e) as [Hsie Hen];
    try assumption.
  { intros b Hb. apply lapStarts_below; [exact Hb | lia]. }
  split; [exact Hnth | split].
  - apply lapPosition_error; try apply cumulativeDistance_class;
      apply cumulativeDistance_sorted; lia.
  - intros E. rewrite Hnth. f_equal. unfold lapPositionBinary64.
    rewrite eqb_spec, units_eq_SFeqb; try apply cumulativeDistance_class; [reflexivity |].
    rewrite <- !exactValue_units. exact E.
Qed.

Lemma mapLocationsToIndices_lap_position_witness :
  exists s e,
    mostRecentBoundary (lapStarts outAndBack) 55 s /\
    lapEndOf (lapStarts outAndBack) (length outAndBack) s e /\
    nth_error (mapLocationsToIndices outAndBack) 55
    = Some (lapPositionBinary64 (cumulativeDistance outAndBack s)
                                (cumulativeDistance outAndBack e)
                                (cumulativeDistance outAndBack 55)) /\
    Z.abs (lapPositionBinary64 (cumulativeDistance outAndBack s)
                               (cumulativeDistance outAndBack e)
                               (cumulativeDistance outAndBack 55)
           - lapPositionExact (cumulativeDistance outAndBack s)
                              (cumulativeDistance outAndBack e)
                              (cumulativeDistance outAndBack 55)) <= 1 /\
    (exactValue (cumulativeDistance outAndBack e)
     = exactValue (cumulativeDistance outAndBack s) ->
     nth_error (mapLocationsToIndices outAndBack) 55 = Some 0).
Proof.
  apply (mapLocationsToIndices_lap_position outAndBack 55).
  vm_compute; lia.
Defined.

(** *** A single lap *)

(** The index of a distance [p] within a lap of length [t] that starts at
    distance zero. *)
Definition position (p t : spec_float) : Z :=
  match t, p with
  | S754_finite _ _ _, S754_finite _ _ _ => Z.min 143 (floorZ (scaled p t))
  | _, _ => 0
  end.

Lemma normalize_position (T P : float) :
  cumulative (Prim2SF T) -> cumulative (Prim2SF P) ->
  SFleb (Prim2SF P) (Prim2SF T) = true ->
  Locator.normalize 0 T P = position (Prim2SF P) (Prim2SF T).
Proof.
  intros HT HP Hle. unfold Locator.normalize.
  destruct HT as [HT | (mt & et & HT & Hmt & Het)].
  - rewrite eqb_spec, HT. change (Prim2SF 0) with (S754_zero false).
    unfold position. now destruct (Prim2SF P).
  - assert (HTz : (T =? 0)%float = false).
    { rewrite eqb_spec, HT. reflexivity. }
    rewrite HTz.
    destruct HP as [HP | (mp & ep & HP & Hmp & Hep)].
    + assert (P = 0%float) as -> by (apply Prim2SF_inj; rewrite HP; reflexivity).
      rewrite scale_zero; [| rewrite HT; reflexivity | exact HTz].
      rewrite HT. reflexivity.
    + rewrite HP, HT in Hle.
      assert (Hep' : ep <= et)
        by (destruct (SFleb_finite_inv _ _ _ _ Hle) as [Hlt | [Heq _]]; lia).
      assert (Hx : Prim2SF ((P - 0) / (T - 0) * 144)
                   = scaled (Prim2SF P) (Prim2SF T)).
      { rewrite mul_spec, div_spec, !sub_spec. rewrite HP, HT. reflexivity. }
      destruct (scaled_normal mp ep mt et Hmp Hmt ltac:(lia))
        as (m & e & Hs & Hm & He).
      rewrite HP, HT in Hx. rewrite Hs in Hx.
      rewrite (int_Floor _ m e Hx Hm He), Hx, <- Hs.
      rewrite HP, HT. unfold position.
      destruct (Z.leb_spec 144 (floorZ (scaled (S754_finite false mp ep)
                                               (S754_finite false mt et)))); lia.
Qed.

Lemma position_range p t : 0 <= position p t <= 143.
Proof.
  unfold position. destruct t; try lia. destruct p; try lia.
  pose proof (floorZ_nonneg (scaled (S754_finite s0 m0 e0) (S754_finite s m e))). lia.
Qed.

(** The index within a lap is monotone in the distance covered. *)
Lemma position_mono p1 p2 t :
  cumulative p1 -> cumulative p2 -> cumulative t ->
  SFleb p1 p2 = true -> SFleb p2 t = true ->
  position p1 t <= position p2 t.
Proof.
  intros [-> | (m1 & e1 & -> & Hm1 & He1)] H2 Ht H12 H2t.
  - pose proof (position_range p2 t). unfold position at 1. destruct t; lia.
  - destruct H2 as [-> | (m2 & e2 & -> & Hm2 & He2)]; [discriminate |].
    destruct Ht as [-> | (mt & et & -> & Hmt & Het)]; [discriminate |].
    unfold position.
    destruct (SFleb_finite_inv _ _ _ _ H12) as [H12' | [H12' _]];
      destruct (SFleb_finite_inv _ _ _ _ H2t) as [H2t' | [H2t' _]];
      (apply Z.min_le_compat_l;
       pose proof (scaled_mono m1 e1 m2 e2 mt et Hm1 Hm2 Hmt
                     ltac:(lia) ltac:(lia) H12) as Hs;
       destruct (scaled_normal m1 e1 mt et Hm1 Hmt ltac:(lia))
         as (a1 & f1 & Hs1 & Ha1 & Hf1);
       destruct (scaled_normal m2 e2 mt et Hm2 Hmt ltac:(lia))
         as (a2 & f2 & Hs2 & Ha2 & Hf2);
       rewrite Hs1, Hs2 in *; apply floorZ_mono; assumption || lia).
Qed.

(** The steps from [prev] through [rest] all are the step [(dx, dy)]. *)
Fixpoint constantSteps (dx dy : Z) (prev : Location) (rest : list Location) : bool :=
  match rest with
  | [] => true
  | l :: rest' =>
      (X l - X prev =? dx) && (Y l - Y prev =? dy) && constantSteps dx dy l rest'
  end.

(** The samples are evenly spaced along a straight line: each is the one
    before moved by the same step. *)
Definition evenlySpaced (locations : list Location) : bool :=
  match locations with
  | l0 :: ((l1 :: _) as rest) => constantSteps (X l1 - X l0) (Y l1 - Y l0) l0 rest
  | _ => true
  end.

(** No lap boundary is detected after the first sample. *)
Definition singleLap (locations : list Location) : Prop :=
  lapStarts locations = [0%nat].

Lemma length_indices locations :
  length (mapLocationsToIndices locations) = length locations.
Proof.
  unfold mapLocationsToIndices. destruct locations as [|l rest]; [reflexivity |].
  now rewrite length_map, length_seq.
Qed.

(** In a single lap the index of sample [i] is the position of its
    cumulative distance within the total distance. *)
Lemma single_lap_index locations i :
  singleLap locations -> (i < length locations)%nat ->
  nth_error (mapLocationsToIndices locations) i
  = Some (position (Prim2SF (cumulativeDistance locations i))
                   (Prim2SF (cumulativeDistance locations (length locations - 1)))).
Proof.
  intros Hsingle Hi. rewrite nth_error_indices by exact Hi. f_equal.
  unfold indexOf. rewrite Hsingle. cbn [length Nat.sub searchLap nth].
  assert (Hlap : (if (0 <=? i)%nat then 0%nat else 0%nat) = 0%nat)
    by now destruct (0 <=? i)%nat.
  rewrite Hlap. cbn [nth Nat.add Nat.ltb Nat.leb].
  fold (cumulativeDistance locations 0).
  fold (cumulativeDistance locations (length locations - 1)).
  fold (cumulativeDistance locations i).
  destruct locations as [|l rest]; [simpl in Hi; lia |].
  rewrite cumulativeDistance_first.
  apply normalize_position; try apply cumulativeDistance_class.
  apply cumulativeDistance_sorted. lia.
Qed.

(** C8: on evenly spaced samples along a straight line that form a single
    lap (no boundary is detected after the first sample), the indices
    [mapLocationsToIndices] returns never decrease, start at 0 and lie
    between 0 and 143.  The proof rests on the single lap alone. *)
Theorem mapLocationsToIndices_single_lap_monotone (locations : list Location) :
  evenlySpaced locations = true -> singleLap locations ->
  (forall i j a b, (i <= j)%nat ->
     nth_error (mapLocationsToIndices locations) i = Some a ->
     nth_error (mapLocationsToIndices locations) j = Some b -> a <= b) /\
  (forall l rest, locations = l :: rest ->
     nth_error (mapLocationsToIndices locations) 0 = Some 0) /\
  (forall i a, nth_error (mapLocationsToIndices locations) i = Some a ->
     0 <= a <= 143).
Proof.
  intros _ Hsingle.
  assert (Hin : forall i a, nth_error (mapLocationsToIndices locations) i = Some a ->
                            (i < length locations)%nat).
  { intros i a Hi. rewrite <- length_indices. apply nth_error_Some.
    rewrite Hi. discriminate. }
  split; [| split].
  - intros i j a b Hij Ha Hb.
    pose proof (Hin j b Hb) as Hj.
    rewrite single_lap_index in Ha, Hb by (assumption || lia).
    injection Ha as <-. injection Hb as <-.
    apply position_mono; try apply cumulativeDistance_class;
      apply cumulativeDistance_sorted; lia.
  - intros l rest ->. rewrite single_lap_index by (assumption || simpl; lia).
    rewrite cumulativeDistance_first. f_equal.
    change (Prim2SF 0) with (S754_zero false).
    unfold position. now destruct (Prim2SF _).
  - intros i a Ha.
    rewrite single_lap_index in Ha by (assumption || eapply Hin; eassumption).
    injection Ha as <-. apply position_range.
Qed.

(** Sixty samples one unit apart along the X axis. *)
Definition straight : list Location :=
  map (fun i => mkLocation String.EmptyString 44 0 0 (Z.of_nat i) 0 0) (seq 0 60).

Lemma mapLocationsToIndices_single_lap_monotone_witness :
  (forall i j a b, (i <= j)%nat ->
     nth_error (mapLocationsToIndices straight) i = Some a ->
     nth_error (mapLocationsToIndices straight) j = Some b -> a <= b) /\
  (forall l rest, straight = l :: rest ->
     nth_error (mapLocationsToIndices straight) 0 = Some 0) /\
  (forall i a, nth_error (mapLocationsToIndices straight) i = Some a ->
     0 <= a <= 143).
Proof.
  apply (mapLocationsToIndices_single_lap_monotone straight).
  - vm_compute; reflexivity.
  - vm_compute; reflexivity.
Defined.

(** C10: [mapLocationsToIndices] returns as many indices as it is given
    samples; on the empty input it returns the empty list, and on every
    non-empty input the first index is 0. *)
Theorem mapLocationsToIndices_length_first (locations : list Location) :
  length (mapLocationsToIndices locations) = length locations /\
  mapLocationsToIndices [] = [] /\
  forall l rest, nth_error (mapLocationsToIndices (l :: rest)) 0 = Some 0.
Proof.
  split; [| split; [reflexivity |]].
  - unfold mapLocationsToIndices. destruct locations as [|l rest]; [reflexivity |].
    now rewrite length_map, length_seq.
  - intros l rest. rewrite nth_error_indices by (simpl; lia).
    f_equal. unfold indexOf.
    pose proof (lapStarts_boundaries (l :: rest)) as [H1 H2 H3 H4].
    assert (H0 : (nth 0 (lapStarts (l :: rest)) 0 <= 0)%nat) by lia.
    destruct (searchLap_spec _ 0%nat (length (lapStarts (l :: rest)) - 1) H0)
      as (_ & Hs & _).
    set (k := searchLap _ _ _) in *.
    assert (Hk : nth k (lapStarts (l :: rest)) 0%nat = 0%nat) by lia.
    rewrite Hk.
    match goal with |- normalize _ (nth ?e _ _) _ = _ => set (lapEndIdx := e) end.
    pose proof (cumulativeDistance_nonneg (l :: rest) lapEndIdx) as Hn.
    unfold cumulativeDistance in Hn.
    change (nth 0 (cumulativeDistances (l :: rest)) 0%float) with 0%float.
    unfold normalize.
    destruct (_ =? 0)%float eqn:Hz; [reflexivity |].
    rewrite (scale_zero _ Hn Hz). reflexivity.
Qed.

End LocatorProofs.

(** ** Pipeline controller *)

Module ControllerProofs.
Import Controller.

(** The current [start] tells a second start from a first one: it fails
    with [AlreadyStarted] exactly when the flag is set. *)
Lemma start_already_started_iff up s cmdValue :
  snd (start up s cmdValue) = inl AlreadyStarted <-> started s = true.
Proof.
  unfold start, CompareAndSwap. destruct (started s); simpl.
  - split; reflexivity.
  - split; [| discriminate].
    destruct (parseDriverNumbers cmdValue) as [e | ns] eqn:Hp.
    + destruct cmdValue; simpl in Hp; try (inversion Hp; subst; simpl; discriminate).
      revert Hp. generalize 0%nat. revert e.
      induction elems as [|v rest IH]; simpl; intros e n Hp; [discriminate |].
      destruct v; try (inversion Hp; subst; simpl; discriminate);
        (destruct (parseElements rest (S n)) eqn:Hr; [| discriminate];
         inversion Hp; subst; eapply IH; eassumption).
    + destruct (length ns =? 0)%nat; simpl; [discriminate |].
      destruct (fetchSession up); simpl; [| discriminate].
      destruct (parseRFC3339 up _); simpl; discriminate.
Qed.

(** An upstream with one session whose start time parses. *)
Definition upstreamOk : Upstream :=
  mkUpstream (Some (mkSession 9165 String.EmptyString String.EmptyString))
             (fun _ _ _ _ => None)
             (fun _ => Some 0).

Definition fresh : vizF1viz := mkViz false [] None.

(** C3: the earlier variant of [start] (module.go, second copy) has the
    guard inverted.  Called on a fresh service, whose flag is not set, it
    fails with [AlreadyStarted] and leaves the flag set; called again, now
    that the flag is set, it does not fail but launches the pipeline. *)
Theorem startLegacy_guard_inverted (up : Upstream) (chans : list nat)
        (ws : option (list Worker)) :
  startLegacy up (mkViz false chans ws) = (mkViz true chans ws, inl AlreadyStarted) /\
  startLegacy upstreamOk (mkViz true chans ws)
  = (mkViz true [locationChannelBuffer]
           (Some [FetcherWorker (mkFetcherState 9165 0 44) 0; ConsumerWorker]),
     inr (Started 1)).
Proof. split; reflexivity. Qed.

(** C4: an invalid payload leaves the flag set.  On a fresh service,
    [start] with an empty list, with a value that is not a list, or with
    a list holding a string fails, and the flag is set afterwards; a
    well-formed [start] that follows fails with [AlreadyStarted]. *)
Theorem start_invalid_payload_sets_flag (up : Upstream) :
  start up fresh (VSlice []) = (mkViz true [] None, inl NoDriverNumber) /\
  start up fresh (VString String.EmptyString)
  = (mkViz true [] None, inl NotAListOfIntegers) /\
  start up fresh (VSlice [VInt 44; VString String.EmptyString])
  = (mkViz true [] None, inl (ElementNotANumber 1)) /\
  snd (start up (fst (start up fresh (VSlice []))) (VIntSlice [44]))
  = inl AlreadyStarted.
Proof. repeat split. Qed.

(** C9: a tick whose fetch fails is a no-op.  Whatever the buffer level
    and the cancellation, when [fetchLocationData] returns an error for
    the window of this tick, [fetcher] pushes no sample, does not close
    the channel and leaves its state, [lastFetchedTime] included, as it
    was. *)
Theorem fetcher_error_is_noop (up : Upstream) (cancelAfter : option nat)
        (state : fetcherState) (bufLen bufCap : nat) :
  fetchLocationData up (sessionKey state) (driverNumber state)
                    (lastFetchedTime state)
                    (lastFetchedTime state + fetchWindowDuration) = None ->
  fetcher up cancelAfter state bufLen bufCap = mkOutcome state [] false.
Proof.
  intros Herr. unfold fetcher. rewrite Herr.
  now destruct (_ <? _)%float.
Qed.

Lemma fetcher_error_is_noop_witness :
  fetcher upstreamOk None (mkFetcherState 9165 0 44) 10 500
  = mkOutcome (mkFetcherState 9165 0 44) [] false.
Proof.
  apply (fetcher_error_is_noop upstreamOk None (mkFetcherState 9165 0 44) 10 500).
  reflexivity.
Defined.

End ControllerProofs.

(** ** Further properties of the path locator *)

Module LocatorInvariants.
Import Builder Locator Binary64 Differences Exact LocatorProofs.

(** Every sample lies in the lap of the most recent boundary, between
    its first and its last sample, and has the position that binary64
    arithmetic gives it there. *)
Lemma sample_lap locations i :
  (i < length locations)%nat ->
  exists s e,
    mostRecentBoundary (lapStarts locations) i s /\
    lapEndOf (lapStarts locations) (length locations) s e /\
    (s <= i <= e)%nat /\ (e < length locations)%nat /\
    nth_error (mapLocationsToIndices locations) i
    = Some (lapPositionBinary64 (cumulativeDistance locations s)
                                (cumulativeDistance locations e)
                                (cumulativeDistance locations i)).
Proof.
  intros Hi.
  destruct (indexOf_spec (length locations) (cumulativeDistances locations)
                         (lapStarts locations) _ i (lapStarts_boundaries locations))
    as (s & e & Hs & He & Hidx).
  exists s, e.
  destruct (lap_contains (lapStarts locations) (length locations) i s e) as [Hsie Hen];
    try assumption.
  { intros b Hb. apply lapStarts_below; [exact Hb | lia]. }
  repeat (split; [assumption || lia |]).
  rewrite nth_error_indices by exact Hi. now rewrite Hidx.
Qed.

Lemma mostRecentBoundary_unique starts i s s' :
  mostRecentBoundary starts i s -> mostRecentBoundary starts i s' -> s = s'.
Proof.
  intros (H1 & H2 & H3) (H1' & H2' & H3').
  specialize (H3 s' H1' H2'). specialize (H3' s H1 H2). lia.
Qed.

Lemma lapEndOf_unique starts n s e e' :
  lapEndOf starts n s e -> lapEndOf starts n s e' -> e = e'.
Proof.
  intros [(b & Hb & Hsb & Hmin & ->) | (Hall & ->)]
         [(b' & Hb' & Hsb' & Hmin' & ->) | (Hall' & ->)].
  - specialize (Hmin b' Hb' Hsb'). specialize (Hmin' b Hb Hsb). lia.
  - specialize (Hall' b Hb). lia.
  - specialize (Hall b' Hb'). lia.
  - reflexivity.
Qed.

(** The position of the first sample of a lap is 0. *)
Lemma lapPositionBinary64_start (a b : float) :
  cumulative (Prim2SF a) -> cumulative (Prim2SF b) ->
  SFleb (Prim2SF a) (Prim2SF b) = true ->
  lapPositionBinary64 a b a = 0.
Proof.
  intros Ha Hb Hab. unfold lapPositionBinary64. rewrite eqb_spec.
  destruct (SFeqb (Prim2SF b) (Prim2SF a)) eqn:Heq; [reflexivity |].
  pose proof (SFsub_pos _ _ Ha Hb Hab Heq) as (my & ey & Hy & Hmy & Hey).
  assert (Hz : Prim2SF ((a - a) / (b - a) * 144) = S754_zero false).
  { rewrite mul_spec, div_spec, !sub_spec. unfold SF64mul, SF64div, SF64sub.
    rewrite (SFsub_diag _ Ha), Hy. reflexivity. }
  unfold Floor. rewrite Hz. unfold int_of_float64. rewrite Hz. reflexivity.
Qed.

(** The position within a lap never decreases with the distance. *)
Lemma lapPositionBinary64_mono (a b p1 p2 : float) :
  cumulative (Prim2SF a) -> cumulative (Prim2SF b) ->
  cumulative (Prim2SF p1) -> cumulative (Prim2SF p2) ->
  SFleb (Prim2SF a) (Prim2SF p1) = true ->
  SFleb (Prim2SF p1) (Prim2SF p2) = true ->
  SFleb (Prim2SF p2) (Prim2SF b) = true ->
  lapPositionBinary64 a b p1 <= lapPositionBinary64 a b p2.
Proof.
  intros Ha Hb H1 H2 Ha1 H12 H2b.
  assert (Ha2 : SFleb (Prim2SF a) (Prim2SF p2) = true)
    by (eapply SFleb_trans; try eassumption; now apply cumulative_nonneg).
  assert (H1b : SFleb (Prim2SF p1) (Prim2SF b) = true)
    by (eapply SFleb_trans; try eassumption; now apply cumulative_nonneg).
  assert (Hab : SFleb (Prim2SF a) (Prim2SF b) = true)
    by (eapply SFleb_trans; try eassumption; now apply cumulative_nonneg).
  pose proof (proj1 (lapPosition_error a b p2 Ha H2 Hb Ha2 H2b)) as Hr2.
  unfold lapPositionBinary64 in *. rewrite eqb_spec in *.
  destruct (SFeqb (Prim2SF b) (Prim2SF a)) eqn:Heq; [lia |].
  pose proof (SFsub_pos _ _ Ha Hb Hab Heq) as (my & ey & Hy & Hmy & Hey).
  destruct (SFsub_error _ _ Ha H1 Ha1) as (HG1 & HG1z & HG1p).
  destruct (Z.eq_dec (units (Prim2SF p1) - units (Prim2SF a)) 0) as [Ez | Ez].
  - assert (Hz : Prim2SF ((p1 - a) / (b - a) * 144) = S754_zero false).
    { rewrite mul_spec, div_spec, !sub_spec. unfold SF64mul, SF64div, SF64sub.
      rewrite (HG1z Ez), Hy. reflexivity. }
    assert (Hi : int_of_float64 (Floor ((p1 - a) / (b - a) * 144)) = 0).
    { unfold Floor. rewrite Hz. unfold int_of_float64. rewrite Hz. reflexivity. }
    rewrite Hi. lia.
  - destruct (HG1p ltac:(lia)) as ((m1 & e1 & Hx1 & Hm1 & He1) & _).
    pose proof (units_mono _ _ H1 H2 H12) as Hu.
    destruct (SFsub_error _ _ Ha H2 Ha2) as (_ & _ & HG2p).
    destruct (HG2p ltac:(lia)) as ((m2 & e2 & Hx2 & Hm2 & He2) & _).
    pose proof (SFsub_mono _ _ _ Ha H1 H2 Ha1 H12) as Hx12.
    pose proof (SFsub_mono _ _ _ Ha H2 Hb Ha2 H2b) as Hx2y.
    rewrite Hx1, Hx2 in Hx12. rewrite Hx2, Hy in Hx2y.
    assert (He2y : e2 <= ey)
      by (destruct (SFleb_finite_inv _ _ _ _ Hx2y) as [Hlt | [E _]]; lia).
    assert (He12 : e1 <= e2)
      by (destruct (SFleb_finite_inv _ _ _ _ Hx12) as [Hlt | [E _]]; lia).
    destruct (scaled_differences m1 e1 my ey Hm1 Hmy ltac:(lia) ltac:(lia) ltac:(lia))
      as (w1 & f1 & Hs1 & Hw1 & Hf1).
    destruct (scaled_differences m2 e2 my ey Hm2 Hmy ltac:(lia) ltac:(lia) ltac:(lia))
      as (w2 & f2 & Hs2 & Hw2 & Hf2).
    pose proof (scaled_differences_mono m1 e1 m2 e2 my ey Hm1 Hm2 Hmy
                  ltac:(lia) ltac:(lia) ltac:(lia) ltac:(lia) ltac:(lia) Hx12) as Hmono.
    rewrite Hs1, Hs2 in Hmono.
    assert (Hp1 : Prim2SF ((p1 - a) / (b - a) * 144) = S754_finite false w1 f1).
    { rewrite mul_spec, div_spec, !sub_spec. unfold SF64mul, SF64div, SF64sub.
      rewrite Hx1, Hy. exact Hs1. }
    assert (Hp2 : Prim2SF ((p2 - a) / (b - a) * 144) = S754_finite false w2 f2).
    { rewrite mul_spec, div_spec, !sub_spec. unfold SF64mul, SF64div, SF64sub.
      rewrite Hx2, Hy. exact Hs2. }
    rewrite (int_Floor _ w1 f1 Hp1 Hw1 Hf1), (int_Floor _ w2 f2 Hp2 Hw2 Hf2), Hp1, Hp2.
    apply Z.min_le_compat_l. apply floorZ_mono; assumption || lia.
Qed.

(** X1: whatever the samples, every index that [mapLocationsToIndices]
    returns lies between 0 and 143: the quotient never exceeds one by
    more than a rounding, the product by 144 fits an [int], and the
    comparison with 144 clamps the rest. *)
Theorem mapLocationsToIndices_range (locations : list Location) :
  Forall (fun index => 0 <= index <= 143) (mapLocationsToIndices locations).
Proof.
  apply Forall_forall. intros a Ha.
  destruct (In_nth_error _ _ Ha) as (i & Hi).
  assert (Hlt : (i < length locations)%nat).
  { rewrite <- length_indices. apply nth_error_Some. rewrite Hi. discriminate. }
  destruct (sample_lap locations i Hlt) as (s & e & _ & _ & Hsie & Hen & Hidx).
  rewrite Hidx in Hi. injection Hi as <-.
  apply lapPosition_error; try apply cumulativeDistance_class;
    apply cumulativeDistance_sorted; lia.
Qed.

(** X2: every sample at which a lap starts has index 0. *)
Theorem mapLocationsToIndices_lap_start (locations : list Location) (b : nat) :
  (0 < length locations)%nat -> In b (lapStarts locations) ->
  nth_error (mapLocationsToIndices locations) b = Some 0.
Proof.
  intros Hn Hb.
  pose proof (lapStarts_below locations b Hb Hn) as Hlt.
  destruct (sample_lap locations b Hlt) as (s & e & Hs & _ & Hsie & Hen & Hidx).
  assert (s = b) as ->.
  { destruct Hs as (_ & Hsb & Hmax). specialize (Hmax b Hb ltac:(lia)). lia. }
  rewrite Hidx. f_equal.
  apply lapPositionBinary64_start; try apply cumulativeDistance_class.
  apply cumulativeDistance_sorted. lia.
Qed.

Lemma mapLocationsToIndices_lap_start_witness :
  nth_error (mapLocationsToIndices outAndBack) 51 = Some 0.
Proof.
  apply (mapLocationsToIndices_lap_start outAndBack 51).
  - vm_compute; lia.
  - vm_compute. right; left; reflexivity.
Defined.

(** X3: within a lap the indices never decrease: when no lap starts
    after sample [i] and up to sample [j], the index of [i] is at most
    that of [j]. *)
Theorem mapLocationsToIndices_monotone_in_lap (locations : list Location)
        (i j : nat) (a b : Z) :
  (i <= j)%nat ->
  (forall k, In k (lapStarts locations) -> ~ (i < k <= j)%nat) ->
  nth_error (mapLocationsToIndices locations) i = Some a ->
  nth_error (mapLocationsToIndices locations) j = Some b ->
  a <= b.
Proof.
  intros Hij Hnone Ha Hb.
  assert (Hj : (j < length locations)%nat).
  { rewrite <- length_indices. apply nth_error_Some. rewrite Hb. discriminate. }
  destruct (sample_lap locations i ltac:(lia)) as (s & e & Hs & He & Hsie & Hen & Hidx).
  destruct (sample_lap locations j Hj) as (s' & e' & Hs' & He' & Hsje & Hen' & Hjdx).
  assert (s' = s) as ->.
  { destruct Hs as (Hin & Hsi & Hmax). destruct Hs' as (Hin' & Hsj & Hmax').
    specialize (Hmax' s Hin ltac:(lia)).
    specialize (Hnone s' Hin').
    specialize (Hmax s' Hin' ltac:(lia)). lia. }
  rewrite (lapEndOf_unique _ _ _ _ _ He' He) in *. clear He'.
  rewrite Hidx in Ha. rewrite Hjdx in Hb. injection Ha as <-. injection Hb as <-.
  apply lapPositionBinary64_mono; try apply cumulativeDistance_class;
    apply cumulativeDistance_sorted; lia.
Qed.

Lemma mapLocationsToIndices_monotone_in_lap_witness :
  nth_error (mapLocationsToIndices outAndBack) 52 = Some 18 /\
  nth_error (mapLocationsToIndices outAndBack) 55 = Some 72 /\
  18 <= 72.
Proof.
  assert (H1 : nth_error (mapLocationsToIndices outAndBack) 52 = Some 18)
    by (vm_compute; reflexivity).
  assert (H2 : nth_error (mapLocationsToIndices outAndBack) 55 = Some 72)
    by (vm_compute; reflexivity).
  split; [exact H1 | split; [exact H2 |]].
  apply (mapLocationsToIndices_monotone_in_lap outAndBack 52 55 18 72).
  - lia.
  - intros k Hk. vm_compute in Hk. lia.
  - exact H1.
  - exact H2.
Defined.


(** *** Cumulative distances *)

Lemma cumulative_finite (x : float) :
  cumulative (Prim2SF x) ->
  (0 <=? x)%float = true /\ (x <? infinity)%float = true.
Proof.
  intros H. rewrite leb_spec, ltb_spec.
  change (Prim2SF 0) with (S754_zero false).
  change (Prim2SF infinity) with (S754_infinity false).
  destruct H as [-> | (m & e & -> & _)]; split; reflexivity.
Qed.

(** X4: the cumulative distances are as many as the samples, start at
    zero, never decrease and are finite numbers: the running sum is
    never NaN and never overflows, whatever the coordinates. *)
Theorem cumulativeDistances_sorted_finite (locations : list Location) :
  length (cumulativeDistances locations) = length locations /\
  (forall l rest, locations = l :: rest ->
     nth_error (cumulativeDistances locations) 0 = Some 0%float) /\
  (forall i j, (i <= j < length locations)%nat ->
     (cumulativeDistance locations i <=? cumulativeDistance locations j)%float = true) /\
  (forall k, (0 <=? cumulativeDistance locations k)%float = true /\
             (cumulativeDistance locations k <? infinity)%float = true).
Proof.
  split; [apply length_cumulativeDistances | split; [| split]].
  - intros l rest ->. reflexivity.
  - intros i j Hij. rewrite leb_spec. now apply cumulativeDistance_sorted.
  - intros k. apply cumulative_finite, cumulativeDistance_class.
Qed.

Lemma cumulativeDistances_sorted_finite_witness :
  nth_error (cumulativeDistances outAndBack) 0 = Some 0%float /\
  (cumulativeDistance outAndBack 3 <=? cumulativeDistance outAndBack 57)%float = true.
Proof.
  pose proof (cumulativeDistances_sorted_finite outAndBack) as (_ & H1 & H2 & _).
  split.
  - apply (H1 (hd zeroLocation outAndBack) (tl outAndBack)). reflexivity.
  - apply H2. vm_compute; lia.
Defined.

(** *** Lap boundaries *)








(** *** The planar distance *)

Lemma wrap64_opp z :
  GoInt.wrap64 (- z)
  = if GoInt.wrap64 z =? - 2 ^ 63 then - 2 ^ 63 else - GoInt.wrap64 z.
Proof.
  destruct (Z.eqb_spec (GoInt.wrap64 z) (- 2 ^ 63)) as [E | E];
    unfold GoInt.wrap64 in *; Z.div_mod_to_equations; lia.
Qed.

Lemma wrap64_idem z : GoInt.wrap64 (GoInt.wrap64 z) = GoInt.wrap64 z.
Proof.
  pose proof (wrap64_range z) as Hr. unfold GoInt.wrap64 at 1.
  rewrite Z.mod_small; lia.
Qed.

Lemma opp_mul_self (a : float) : (- a * - a = a * a)%float.
Proof.
  apply Prim2SF_inj. rewrite !mul_spec, FloatAxioms.opp_spec.
  unfold SF64mul. destruct (Prim2SF a) as [[]|[]| |[] m e]; reflexivity.
Qed.

(** The square of a converted difference does not depend on the order
    of the subtraction. *)
Lemma square_sym z :
  (float64_of_int (GoInt.wrap64 (- z)) * float64_of_int (GoInt.wrap64 (- z))
   = float64_of_int (GoInt.wrap64 z) * float64_of_int (GoInt.wrap64 z))%float.
Proof.
  rewrite wrap64_opp. pose proof (wrap64_range z) as Hr.
  destruct (Z.eqb_spec (GoInt.wrap64 z) (- 2 ^ 63)) as [E | E]; [now rewrite E |].
  set (w := GoInt.wrap64 z) in *.
  assert (Hw : GoInt.wrap64 w = w) by apply wrap64_idem.
  assert (Hw' : GoInt.wrap64 (- w) = - w).
  { unfold GoInt.wrap64. rewrite Z.mod_small; lia. }
  unfold float64_of_int. rewrite Hw, Hw'. unfold GoInt.min_int.
  destruct (Z.eqb_spec w (- 2 ^ 63)); [lia |].
  destruct (Z.eqb_spec (- w) (- 2 ^ 63)); [lia |].
  destruct (Z.ltb_spec w 0), (Z.ltb_spec (- w) 0); try lia.
  - now rewrite opp_mul_self.
  - rewrite Z.opp_involutive. now rewrite opp_mul_self.
  - assert (w = 0) as -> by lia. reflexivity.
Qed.

(** X6: [distance2D] does not depend on the order of its two points,
    and is a finite number that is not negative; for coordinates that
    are values of [int], it is zero exactly when the two points have the
    same coordinates, and at least 1 otherwise. *)
Theorem distance2D_metric (x1 y1 x2 y2 : Z) :
  distance2D x1 y1 x2 y2 = distance2D x2 y2 x1 y1 /\
  (0 <=? distance2D x1 y1 x2 y2)%float = true /\
  (distance2D x1 y1 x2 y2 <? infinity)%float = true /\
  (GoInt.int64 x1 -> GoInt.int64 y1 -> GoInt.int64 x2 -> GoInt.int64 y2 ->
   (distance2D x1 y1 x2 y2 = 0%float <-> x1 = x2 /\ y1 = y2) /\
   (x1 <> x2 \/ y1 <> y2 -> (1 <=? distance2D x1 y1 x2 y2)%float = true)).
Proof.
  split; [| split; [| split]].
  - unfold distance2D, GoInt.sub. cbv zeta.
    replace (x1 - x2) with (- (x2 - x1)) by lia.
    replace (y1 - y2) with (- (y2 - y1)) by lia.
    now rewrite !square_sym.
  - rewrite leb_spec. change (Prim2SF 0) with (S754_zero false).
    destruct (distance2D_class x1 y1 x2 y2) as [(_ & _ & ->) | (_ & m & e & -> & _)];
      reflexivity.
  - rewrite ltb_spec. change (Prim2SF infinity) with (S754_infinity false).
    destruct (distance2D_class x1 y1 x2 y2) as [(_ & _ & ->) | (_ & m & e & -> & _)];
      reflexivity.
  - unfold GoInt.int64, GoInt.min_int, GoInt.max_int. intros Hx1 Hy1 Hx2 Hy2.
    assert (Hsub : forall a b, - 2 ^ 63 <= a <= 2 ^ 63 - 1 -> - 2 ^ 63 <= b <= 2 ^ 63 - 1 ->
                               (GoInt.sub b a = 0 <-> a = b)).
    { intros a b Ha Hb. unfold GoInt.sub. split.
      - intros H. apply wrap64_zero in H; lia.
      - intros ->. now rewrite Z.sub_diag. }
    destruct (distance2D_class x1 y1 x2 y2)
      as [(Hdx & Hdy & Hd) | (Hne & m & e & Hd & Hm & He)].
    + apply (proj1 (Hsub x1 x2 Hx1 Hx2)) in Hdx. apply (proj1 (Hsub y1 y2 Hy1 Hy2)) in Hdy.
      split; [split; [intros _; split; assumption | intros _; exact Hd] |].
      intros [H | H]; contradiction.
    + split.
      * split.
        -- intros H0. rewrite H0 in Hd. discriminate.
        -- intros [Ex Ey]. exfalso.
           destruct Hne as [H | H]; apply H; [apply (Hsub x1 x2) | apply (Hsub y1 y2)];
             assumption.
      * intros _. rewrite leb_spec, Hd.
        change (Prim2SF 1) with (S754_finite false 4503599627370496 (-52)).
        apply SFleb_finite.
        pose proof (log2_52_bounds (Z.pos m) ltac:(lia) Hm). lia.
Qed.

Lemma distance2D_metric_witness :
  (distance2D 0 0 3 4 = 0%float <-> 0 = 3 /\ 0 = 4) /\
  (1 <=? distance2D 0 0 3 4)%float = true.
Proof.
  destruct (distance2D_metric 0 0 3 4) as (_ & _ & _ & H).
  destruct H as [H1 H2]; try (vm_compute; split; discriminate).
  split; [exact H1 | apply H2; left; discriminate].
Defined.

End LocatorInvariants.
